(** * M5Scribe: the streaming loop of src/main.cpp

    A shallow embedding of the firmware's control loop: the level analysis
    ([calculateAudioLevel]), the display policy ([updateDisplay]), the link
    callback ([btCallback]) and the tick ([loop]) with its transmit loop.

    The target is the ESP32 (ILP32): [int] and [long] are 32-bit signed,
    [unsigned long] and [size_t] are 32-bit unsigned.  Unsigned arithmetic
    wraps ([u32]); signed arithmetic that leaves the 32-bit range and division
    by zero are undefined in C++ and are reported as faults. *)

From Stdlib Require Import ZArith List Bool Lia.
From Stdlib.Strings Require Import Byte.
Import ListNotations.
Local Open Scope Z_scope.

(** ** Machine arithmetic *)

Definition u32 (z : Z) : Z := z mod 2 ^ 32.

Definition INT_MIN : Z := - 2 ^ 31.
Definition INT_MAX : Z := 2 ^ 31 - 1.

Inductive fault : Type :=
| DivideByZero     (* integer division by zero *)
| SignedOverflow   (* an int/long result outside the 32-bit range *)
| OutOfBounds      (* a read past the end of audioBuffer *)
| Stalled.         (* the transmit loop is still spinning when the transport script ends *)

Definition res (A : Type) : Type := (fault + A)%type.

Definition rbind {A B : Type} (m : res A) (f : A -> res B) : res B :=
  match m with
  | inl e => inl e
  | inr a => f a
  end.

Declare Scope res_scope.
Delimit Scope res_scope with res.
Notation "x <- m ;; k" := (rbind m (fun x => k))
  (at level 61, m at next level, right associativity) : res_scope.
Notation "' pat <- m ;; k" := (rbind m (fun x => match x with pat => k end))
  (at level 61, pat pattern, m at next level, right associativity) : res_scope.

(** An [int] (or [long]) result: defined only inside the 32-bit range. *)
Definition checked (z : Z) : res Z :=
  if (INT_MIN <=? z) && (z <=? INT_MAX) then inr z else inl SignedOverflow.

(** C++ [a / b] on [int]: truncation toward zero, undefined for [b = 0]. *)
Definition cdiv (a b : Z) : res Z :=
  if b =? 0 then inl DivideByZero else checked (Z.quot a b).

(** ** Constants of main.cpp *)

Definition DATA_SIZE : Z := 2048.
Definition DISCOVERABLE_DURATION : Z := 60000.

(** ** Level analysis: calculateAudioLevel (main.cpp 84-111) *)

Module Level.

Local Open Scope res_scope.

(** [samples[i]] read through [(int16_t* )buffer]: two bytes, little endian,
    two's complement. *)
Definition int16_of (lo hi : byte) : Z :=
  let w := Z.of_N (Byte.to_N lo) + 256 * Z.of_N (Byte.to_N hi) in
  if w <? 32768 then w else w - 65536.

Definition sample_at (buffer : list byte) (i : nat) : res Z :=
  match nth_error buffer (2 * i), nth_error buffer (2 * i + 1) with
  | Some lo, Some hi => inr (int16_of lo hi)
  | _, _ => inl OutOfBounds
  end.

(** The [for] loop of lines 91-97; [n] iterations remain, [i] is the index. *)
Fixpoint scan (buffer : list byte) (n i : nat) (sum maxSample : Z) : res (Z * Z) :=
  match n with
  | O => inr (sum, maxSample)
  | S n' =>
      raw <- sample_at buffer i ;;
      sample <- checked (Z.abs raw) ;;
      sum' <- checked (sum + sample) ;;
      scan buffer n' (S i) sum' (if sample >? maxSample then sample else maxSample)
  end.

(** Modelled from the spec: the Arduino core's [map], which main.cpp calls
    and does not define; the linear map of [x] from [in_min, in_max] to
    [out_min, out_max] in [long] arithmetic. *)
Definition map (x in_min in_max out_min out_max : Z) : res Z :=
  delta <- checked (x - in_min) ;;
  rise <- checked (out_max - out_min) ;;
  run <- checked (in_max - in_min) ;;
  num <- checked (delta * rise) ;;
  q <- cdiv num run ;;
  checked (q + out_min).

(** Modelled from the spec: the Arduino core's [constrain] macro, which
    main.cpp uses and does not define; clamps [amt] to [low, high]. *)
Definition constrain (amt low high : Z) : Z :=
  if amt <? low then low else if amt >? high then high else amt.

(** Lines 85-105: [audioLevel] before smoothing. *)
Definition rawLevel (buffer : list byte) (length : Z) : res Z :=
  let sampleCount := u32 length / 2 in
  '(sum, maxSample) <- scan buffer (Z.to_nat sampleCount) 0 0 0 ;;
  avg <- cdiv sum sampleCount ;;
  avg3 <- checked (avg * 3) ;;
  num <- checked (avg3 + maxSample) ;;
  combined <- cdiv num 4 ;;
  mapped <- map combined 100 2000 0 100 ;;
  inr (constrain mapped 0 100).

(** Line 109: the blend with the static [lastLevel]. *)
Definition smooth (audioLevel lastLevel : Z) : res Z :=
  a7 <- checked (audioLevel * 7) ;;
  l3 <- checked (lastLevel * 3) ;;
  blend <- checked (a7 + l3) ;;
  cdiv blend 10.

(** [calculateAudioLevel(buffer, length)] with the function's static
    [lastLevel] passed in; the result is the new [audioLevel], which is also
    the new [lastLevel]. *)
Definition calculateAudioLevel (buffer : list byte) (length lastLevel : Z) : res Z :=
  audioLevel <- rawLevel buffer length ;;
  smooth audioLevel lastLevel.

(** Consecutive calls, each starting from the [lastLevel] the previous one
    left; the list holds every call's output. *)
Fixpoint analyze_all (blocks : list (list byte * Z)) (lastLevel : Z) : res (list Z) :=
  match blocks with
  | [] => inr []
  | (buffer, length) :: rest =>
      level <- calculateAudioLevel buffer length lastLevel ;;
      levels <- analyze_all rest level ;;
      inr (level :: levels)
  end.

(** *** The analysis as the specification words it *)

(** The block's 16-bit samples. *)
Definition sample_of (buffer : list byte) (i : nat) : Z :=
  int16_of (nth (2 * i) buffer x00) (nth (2 * i + 1) buffer x00).

Definition block_samples (buffer : list byte) (length : Z) : list Z :=
  List.map (sample_of buffer) (seq 0 (Z.to_nat (length / 2))).

Definition sum_abs (samples : list Z) : Z :=
  fold_right (fun s acc => Z.abs s + acc) 0 samples.

Definition spec_mean (samples : list Z) : Z :=
  sum_abs samples / Z.of_nat (List.length samples).

Definition spec_peak (samples : list Z) : Z :=
  fold_right (fun s acc => Z.max (Z.abs s) acc) 0 samples.

Definition spec_combined (samples : list Z) : Z :=
  (3 * spec_mean samples + spec_peak samples) / 4.

Definition spec_mapped (combined : Z) : Z :=
  Z.max 0 (Z.min 100 ((combined - 100) * (100 - 0) / (2000 - 100) + 0)).

Definition spec_level (samples : list Z) (previous : Z) : Z :=
  (spec_mapped (spec_combined samples) * 7 + previous * 3) / 10.

(** The bound the 70/30 blend is said to give on one step. *)
Definition blend_bound (previous mapped new : Z) : Prop :=
  10 * Z.abs (new - previous) <= 7 * Z.abs (mapped - previous).

(** The blocks the capture path hands to the analysis: [audioBuffer] has
    [DATA_SIZE] bytes and at least one whole sample was read. *)
Definition valid_block (buffer : list byte) (length : Z) : Prop :=
  Z.of_nat (List.length buffer) = DATA_SIZE /\ 2 <= length <= DATA_SIZE.

End Level.

(** ** Program state: the globals and function statics of main.cpp *)

Record State : Type := mkState {
  btConnected : bool;
  btDiscoverable : bool;
  discoverableStartTime : Z;
  audioBuffer : list byte;
  audioLevel : Z;
  lastAudioUpdate : Z;
  lastDisplayState : Z;
  needsFullRedraw : bool;
  lastLevel : Z;             (* static of calculateAudioLevel *)
  lastUpdate : Z;            (* statics of updateDisplay *)
  animFrame : Z;
  lastAudioLevel : Z;
  lastRemainingTime : Z;
  lastStatusBarUpdate : Z;
  lastTouchState : bool      (* static of loop *)
}.

(** [pulseAnimation] and the statics of [drawAudioVisualizer] hold floating
    point animation phases that only pick pixels; they are left out and the
    visualizer appears in the trace as one drawing event. *)

Definition set_btConnected (v : bool) (s : State) : State :=
  mkState v (btDiscoverable s) (discoverableStartTime s) (audioBuffer s)
    (audioLevel s) (lastAudioUpdate s) (lastDisplayState s) (needsFullRedraw s)
    (lastLevel s) (lastUpdate s) (animFrame s) (lastAudioLevel s)
    (lastRemainingTime s) (lastStatusBarUpdate s) (lastTouchState s).

Definition set_btDiscoverable (v : bool) (s : State) : State :=
  mkState (btConnected s) v (discoverableStartTime s) (audioBuffer s)
    (audioLevel s) (lastAudioUpdate s) (lastDisplayState s) (needsFullRedraw s)
    (lastLevel s) (lastUpdate s) (animFrame s) (lastAudioLevel s)
    (lastRemainingTime s) (lastStatusBarUpdate s) (lastTouchState s).

Definition set_discoverableStartTime (v : Z) (s : State) : State :=
  mkState (btConnected s) (btDiscoverable s) v (audioBuffer s)
    (audioLevel s) (lastAudioUpdate s) (lastDisplayState s) (needsFullRedraw s)
    (lastLevel s) (lastUpdate s) (animFrame s) (lastAudioLevel s)
    (lastRemainingTime s) (lastStatusBarUpdate s) (lastTouchState s).

Definition set_audioBuffer (v : list byte) (s : State) : State :=
  mkState (btConnected s) (btDiscoverable s) (discoverableStartTime s) v
    (audioLevel s) (lastAudioUpdate s) (lastDisplayState s) (needsFullRedraw s)
    (lastLevel s) (lastUpdate s) (animFrame s) (lastAudioLevel s)
    (lastRemainingTime s) (lastStatusBarUpdate s) (lastTouchState s).

Definition set_audioLevel (v : Z) (s : State) : State :=
  mkState (btConnected s) (btDiscoverable s) (discoverableStartTime s) (audioBuffer s)
    v (lastAudioUpdate s) (lastDisplayState s) (needsFullRedraw s)
    (lastLevel s) (lastUpdate s) (animFrame s) (lastAudioLevel s)
    (lastRemainingTime s) (lastStatusBarUpdate s) (lastTouchState s).

Definition set_lastAudioUpdate (v : Z) (s : State) : State :=
  mkState (btConnected s) (btDiscoverable s) (discoverableStartTime s) (audioBuffer s)
    (audioLevel s) v (lastDisplayState s) (needsFullRedraw s)
    (lastLevel s) (lastUpdate s) (animFrame s) (lastAudioLevel s)
    (lastRemainingTime s) (lastStatusBarUpdate s) (lastTouchState s).

Definition set_lastDisplayState (v : Z) (s : State) : State :=
  mkState (btConnected s) (btDiscoverable s) (discoverableStartTime s) (audioBuffer s)
    (audioLevel s) (lastAudioUpdate s) v (needsFullRedraw s)
    (lastLevel s) (lastUpdate s) (animFrame s) (lastAudioLevel s)
    (lastRemainingTime s) (lastStatusBarUpdate s) (lastTouchState s).

Definition set_needsFullRedraw (v : bool) (s : State) : State :=
  mkState (btConnected s) (btDiscoverable s) (discoverableStartTime s) (audioBuffer s)
    (audioLevel s) (lastAudioUpdate s) (lastDisplayState s) v
    (lastLevel s) (lastUpdate s) (animFrame s) (lastAudioLevel s)
    (lastRemainingTime s) (lastStatusBarUpdate s) (lastTouchState s).

Definition set_lastLevel (v : Z) (s : State) : State :=
  mkState (btConnected s) (btDiscoverable s) (discoverableStartTime s) (audioBuffer s)
    (audioLevel s) (lastAudioUpdate s) (lastDisplayState s) (needsFullRedraw s)
    v (lastUpdate s) (animFrame s) (lastAudioLevel s)
    (lastRemainingTime s) (lastStatusBarUpdate s) (lastTouchState s).

Definition set_lastUpdate (v : Z) (s : State) : State :=
  mkState (btConnected s) (btDiscoverable s) (discoverableStartTime s) (audioBuffer s)
    (audioLevel s) (lastAudioUpdate s) (lastDisplayState s) (needsFullRedraw s)
    (lastLevel s) v (animFrame s) (lastAudioLevel s)
    (lastRemainingTime s) (lastStatusBarUpdate s) (lastTouchState s).

Definition set_animFrame (v : Z) (s : State) : State :=
  mkState (btConnected s) (btDiscoverable s) (discoverableStartTime s) (audioBuffer s)
    (audioLevel s) (lastAudioUpdate s) (lastDisplayState s) (needsFullRedraw s)
    (lastLevel s) (lastUpdate s) v (lastAudioLevel s)
    (lastRemainingTime s) (lastStatusBarUpdate s) (lastTouchState s).

Definition set_lastAudioLevel (v : Z) (s : State) : State :=
  mkState (btConnected s) (btDiscoverable s) (discoverableStartTime s) (audioBuffer s)
    (audioLevel s) (lastAudioUpdate s) (lastDisplayState s) (needsFullRedraw s)
    (lastLevel s) (lastUpdate s) (animFrame s) v
    (lastRemainingTime s) (lastStatusBarUpdate s) (lastTouchState s).

Definition set_lastRemainingTime (v : Z) (s : State) : State :=
  mkState (btConnected s) (btDiscoverable s) (discoverableStartTime s) (audioBuffer s)
    (audioLevel s) (lastAudioUpdate s) (lastDisplayState s) (needsFullRedraw s)
    (lastLevel s) (lastUpdate s) (animFrame s) (lastAudioLevel s)
    v (lastStatusBarUpdate s) (lastTouchState s).

Definition set_lastStatusBarUpdate (v : Z) (s : State) : State :=
  mkState (btConnected s) (btDiscoverable s) (discoverableStartTime s) (audioBuffer s)
    (audioLevel s) (lastAudioUpdate s) (lastDisplayState s) (needsFullRedraw s)
    (lastLevel s) (lastUpdate s) (animFrame s) (lastAudioLevel s)
    (lastRemainingTime s) v (lastTouchState s).

Definition set_lastTouchState (v : bool) (s : State) : State :=
  mkState (btConnected s) (btDiscoverable s) (discoverableStartTime s) (audioBuffer s)
    (audioLevel s) (lastAudioUpdate s) (lastDisplayState s) (needsFullRedraw s)
    (lastLevel s) (lastUpdate s) (animFrame s) (lastAudioLevel s)
    (lastRemainingTime s) (lastStatusBarUpdate s) v.

(** The initial values of the globals and statics. *)
Definition init : State :=
  {| btConnected := false; btDiscoverable := false; discoverableStartTime := 0;
     audioBuffer := repeat x00 (Z.to_nat DATA_SIZE);
     audioLevel := 0; lastAudioUpdate := 0; lastDisplayState := -1;
     needsFullRedraw := true; lastLevel := 0; lastUpdate := 0; animFrame := 0;
     lastAudioLevel := -1; lastRemainingTime := 999; lastStatusBarUpdate := 0;
     lastTouchState := false |}.

(** The connection state of the specification, read off the two link flags
    the way line 281 does. *)
Inductive ConnectionState : Type := Idle | Discoverable | Streaming.

Definition currentState (s : State) : Z :=
  if btConnected s then 2 else if btDiscoverable s then 1 else 0.

Definition connection (s : State) : ConnectionState :=
  if btConnected s then Streaming else if btDiscoverable s then Discoverable else Idle.

(** ** Observable trace *)

Inductive draw : Type :=
| FillScreen                 (* fillScreen + gradient: the full redraw *)
| StatusBar                  (* drawStatusBar() *)
| StaticStreaming            (* "STREAMING", "Level", STOP button, bar background *)
| StaticSearching            (* "SEARCHING", "Waiting for Android device..." *)
| StaticReady                (* "READY", microphone icon, CONNECT button *)
| VisualizerInit
| Visualizer (level : Z)     (* drawAudioVisualizer(160, 135, 50) *)
| LevelBar (level : Z)
| Spinner (frame : Z)
| Countdown (remaining : Z). (* drawString(String(remaining) + "s", ...) *)

Inductive message : Type :=
| ClientConnected            (* "Bluetooth client connected" *)
| ClientDisconnected         (* "Bluetooth client disconnected" *)
| ConnectionModeEnabled      (* "Connection mode enabled for 60 seconds" *)
| DisconnectedByUser         (* "Disconnected by user" *)
| ConnectionModeTimeout      (* "Connection mode timeout" *)
| PartialWrite (totalWritten bytesRead : Z)  (* "Warning: Only wrote %d/%d bytes" *)
| Started                    (* "=== M5Scribe Bluetooth Streaming Started ===" *)
| MicrophoneInitialized      (* "Microphone initialized" *)
| MicrophoneFailed           (* "ERROR: Microphone initialization failed!" *)
| BluetoothFailed            (* "ERROR: Bluetooth initialization failed!" *)
| BluetoothInitialized       (* "Bluetooth initialized (not discoverable)" *)
| PressButtonNotice.         (* "Press button to enable connection mode" *)

Inductive button : Type := CONNECT | STOP.

Inductive component : Type := Microphone | Bluetooth.

Inductive event : Type :=
| Lcd (d : draw)             (* drawing issued by updateDisplay *)
| Splash                     (* the "Starting..." screen of setup() *)
| Feedback (b : button)      (* drawModernButton(..., pressed = true) *)
| Touch (x y : Z)            (* M5.Touch.getPressPoint() *)
| Serial (m : message)
| Wait (ms : Z)              (* delay(ms) *)
| EnableSSP                  (* SerialBT.enableSSP() *)
| BtDisconnect               (* SerialBT.disconnect() *)
| I2sRead (bytesRead : Z)    (* i2s_read(...) *)
| BtWrite (offered written : Z) (* SerialBT.write(buffer + totalWritten, offered) *)
| MicPower (on : bool)       (* M5.Axp.SetLDOEnable(3, on) *)
| ErrorScreen (c : component) (* fillScreen(RED) and "Mic init failed!" or "BT init failed!" *)
| RegisterCallback.          (* SerialBT.register_callback(btCallback) *)

(** ** The environment *)

Inductive spp_event : Type :=
| ESP_SPP_SRV_OPEN_EVT
| ESP_SPP_CLOSE_EVT
| ESP_SPP_OTHER (code : Z).

(** What one pass of [loop] reads from the outside.  Every [millis()] call
    site has its own reading, so no assumption is made on how long drawing or
    sending takes.  Link callbacks run on the Bluetooth task; the model
    delivers them where the loop task waits or blocks: between ticks
    ([Deliver] below), during the two [delay]s of each button handler, while
    [i2s_read] blocks ([i2s_events]) and after each [SerialBT.write]
    ([bt_script]). *)
Record Env : Type := mkEnv {
  t_redraw : Z;      (* millis() at line 292 *)
  t_now : Z;         (* millis() at line 299 *)
  t_countdown : Z;   (* millis() at line 384 *)
  touch_x : Z;       (* pos.x, pos.y at line 492 *)
  touch_y : Z;
  connect_wait_events : list spp_event;  (* callbacks run during delay(100) at line 500 *)
  t_press : Z;       (* millis() at line 504 *)
  connect_done_events : list spp_event;  (* callbacks run during delay(200) at line 508 *)
  stop_wait_events : list spp_event;     (* callbacks run during delay(100) at line 517 *)
  stop_done_events : list spp_event;     (* callbacks run during delay(200) at line 525 *)
  t_timeout : Z;     (* millis() at line 533 *)
  i2s_ok : bool;     (* result == ESP_OK *)
  i2s_data : list byte;           (* the bytes i2s_read stores at the head of audioBuffer *)
  i2s_events : list spp_event;
  t_level : Z;       (* millis() at line 555 *)
  t_level_done : Z;  (* millis() at line 557 *)
  bt_script : list (Z * list spp_event)  (* per write: bytes accepted, callbacks run after it *)
}.

(** ** A state, trace and fault monad *)

Definition M (A : Type) : Type := State -> res (A * State * list event).

Definition ret {A : Type} (a : A) : M A := fun s => inr (a, s, []).

Definition bind {A B : Type} (m : M A) (f : A -> M B) : M B :=
  fun s =>
    match m s with
    | inl e => inl e
    | inr (a, s1, t1) =>
        match f a s1 with
        | inl e => inl e
        | inr (b, s2, t2) => inr (b, s2, t1 ++ t2)
        end
    end.

Definition get : M State := fun s => inr (s, s, []).
Definition modify (f : State -> State) : M unit := fun s => inr (tt, f s, []).
Definition emit (e : event) : M unit := fun s => inr (tt, s, [e]).
Definition raise {A : Type} (e : fault) : M A := fun _ => inl e.
Definition lift {A : Type} (r : res A) : M A :=
  fun s => match r with inl e => inl e | inr a => inr (a, s, []) end.
Definition when (c : bool) (m : M unit) : M unit := if c then m else ret tt.
Definition delay (ms : Z) : M unit := emit (Wait ms).

Declare Scope m_scope.
Delimit Scope m_scope with M.
Notation "x <- m ;; k" := (bind m (fun x => k))
  (at level 61, m at next level, right associativity) : m_scope.
Notation "m ;; k" := (bind m (fun _ => k))
  (at level 61, right associativity) : m_scope.

(** ** The program *)

Section Program.

Local Open Scope m_scope.

(** [calculateAudioLevel] on the globals: it writes [audioLevel] and its
    static [lastLevel]. *)
Definition calculateAudioLevel (length : Z) : M unit :=
  s <- get ;;
  level <- lift (Level.calculateAudioLevel (audioBuffer s) length (lastLevel s)) ;;
  modify (set_audioLevel level) ;;
  modify (set_lastLevel level).

(** The head of [updateDisplay()], lines 280-296: a full-screen redraw when
    the state changed or the flag is up. *)
Definition fullRedraw (env : Env) : M unit :=
  s <- get ;;
  let state := currentState s in
  when (negb (state =? lastDisplayState s) || needsFullRedraw s)
    (emit (Lcd FillScreen) ;;
     emit (Lcd StatusBar) ;;
     modify (set_lastDisplayState state) ;;
     modify (set_needsFullRedraw false) ;;
     modify (set_lastAudioLevel (-1)) ;;
     modify (set_lastRemainingTime 999) ;;
     modify (set_lastStatusBarUpdate (u32 (t_redraw env)))).

(** Lines 301-305: the status bar, every five seconds. *)
Definition refreshStatusBar (now : Z) : M unit :=
  s <- get ;;
  when (u32 (now - lastStatusBarUpdate s) >? 5000)
    (emit (Lcd StatusBar) ;;
     modify (set_lastStatusBarUpdate now)).

(** Lines 309-353: the streaming screen. *)
Definition drawStreaming (now : Z) : M unit :=
  s <- get ;;
  when (lastAudioLevel s =? -1) (emit (Lcd StaticStreaming)) ;;
  when (u32 (now - lastUpdate s) >? 50)
    (when (lastAudioLevel s =? -1) (emit (Lcd VisualizerInit)) ;;
     emit (Lcd (Visualizer (audioLevel s))) ;;
     when (negb (audioLevel s =? lastAudioLevel s))
       (emit (Lcd (LevelBar (audioLevel s))) ;;
        modify (set_lastAudioLevel (audioLevel s))) ;;
     modify (set_lastUpdate now)).

(** The countdown of line 384, in [unsigned long] arithmetic. *)
Definition remainingSeconds (now start : Z) : Z :=
  u32 (DISCOVERABLE_DURATION - u32 (now - start)) / 1000.

(** Lines 355-394: the searching screen. *)
Definition drawSearching (env : Env) (now : Z) : M unit :=
  s <- get ;;
  when (lastAudioLevel s =? -1)
    (emit (Lcd StaticSearching) ;;
     modify (set_lastAudioLevel 0)) ;;
  when (u32 (now - lastUpdate s) >? 50)
    (let frame := Z.rem (animFrame s + 5) 360 in
     modify (set_animFrame frame) ;;
     emit (Lcd (Spinner frame)) ;;
     let remaining :=
       remainingSeconds (u32 (t_countdown env)) (discoverableStartTime s) in
     when (negb (remaining =? lastRemainingTime s))
       (emit (Lcd (Countdown remaining)) ;;
        modify (set_lastRemainingTime remaining)) ;;
     modify (set_lastUpdate now)).

(** Lines 396-416: the idle screen. *)
Definition drawReady : M unit :=
  s <- get ;;
  when (lastAudioLevel s =? -1)
    (emit (Lcd StaticReady) ;;
     modify (set_lastAudioLevel 0)).

(** [updateDisplay()], lines 273-419. *)
Definition updateDisplay (env : Env) : M unit :=
  fullRedraw env ;;
  let now := u32 (t_now env) in
  refreshStatusBar now ;;
  s <- get ;;
  if btConnected s then drawStreaming now
  else if btDiscoverable s then drawSearching env now
  else drawReady.

(** [btCallback(event, param)], lines 422-432. *)
Definition btCallback (ev : spp_event) : M unit :=
  match ev with
  | ESP_SPP_SRV_OPEN_EVT =>
      modify (set_btConnected true) ;;
      modify (set_needsFullRedraw true) ;;
      emit (Serial ClientConnected)
  | ESP_SPP_CLOSE_EVT =>
      modify (set_btConnected false) ;;
      modify (set_needsFullRedraw true) ;;
      emit (Serial ClientDisconnected)
  | ESP_SPP_OTHER _ => ret tt
  end.

Fixpoint callbacks (evs : list spp_event) : M unit :=
  match evs with
  | [] => ret tt
  | ev :: rest => btCallback ev ;; callbacks rest
  end.

(** The CONNECT button, lines 495-510.  The callbacks that arrive while the
    handler waits run during its two [delay]s. *)
Definition connectButton (env : Env) (touching : bool) : M unit :=
  s <- get ;;
  let x := touch_x env in
  let y := touch_y env in
  when (negb (btConnected s) && negb (btDiscoverable s) && touching
        && negb (lastTouchState s))
    (when ((x >=? 70) && (x <=? 250) && (y >=? 190) && (y <=? 240))
       (emit (Feedback CONNECT) ;;
        delay 100 ;;
        callbacks (connect_wait_events env) ;;
        modify (set_btDiscoverable true) ;;
        modify (set_discoverableStartTime (u32 (t_press env))) ;;
        emit EnableSSP ;;
        emit (Serial ConnectionModeEnabled) ;;
        modify (set_needsFullRedraw true) ;;
        delay 200 ;;
        callbacks (connect_done_events env))).

(** The STOP button, lines 512-527, with the callbacks that arrive during
    its two [delay]s. *)
Definition stopButton (env : Env) (touching : bool) : M unit :=
  s <- get ;;
  let x := touch_x env in
  let y := touch_y env in
  when (btConnected s && touching && negb (lastTouchState s))
    (when ((x >=? 195) && (x <=? 305) && (y >=? 185) && (y <=? 230))
       (emit (Feedback STOP) ;;
        delay 100 ;;
        callbacks (stop_wait_events env) ;;
        emit BtDisconnect ;;
        modify (set_btConnected false) ;;
        modify (set_btDiscoverable false) ;;
        emit (Serial DisconnectedByUser) ;;
        modify (set_needsFullRedraw true) ;;
        delay 200 ;;
        callbacks (stop_done_events env))).

(** The discoverability timeout, lines 531-538. *)
Definition discoverableTimeout (env : Env) : M unit :=
  s <- get ;;
  when (btDiscoverable s && negb (btConnected s))
    (when (u32 (u32 (t_timeout env) - discoverableStartTime s) >? DISCOVERABLE_DURATION)
       (modify (set_btDiscoverable false) ;;
        modify (set_needsFullRedraw true) ;;
        emit (Serial ConnectionModeTimeout))).

(** The [while] loop of lines 562-569.  Each script entry answers one
    [SerialBT.write]; when the script runs out with the loop condition still
    true the run is [Stalled]. *)
Fixpoint transmit (script : list (Z * list spp_event)) (bytesRead totalWritten : Z)
  : M Z :=
  s <- get ;;
  if (totalWritten <? bytesRead) && btConnected s then
    match script with
    | [] => raise Stalled
    | (accepted, evs) :: rest =>
        let written := u32 accepted in
        emit (BtWrite (u32 (bytesRead - totalWritten)) written) ;;
        when (negb (written >? 0)) (delay 1) ;;
        callbacks evs ;;
        transmit rest bytesRead
          (if written >? 0 then u32 (totalWritten + written) else totalWritten)
    end
  else ret totalWritten.

(** Lines 560-573: the transmit loop and its warning. *)
Definition sendBlock (script : list (Z * list spp_event)) (bytesRead : Z) : M Z :=
  totalWritten <- transmit script bytesRead 0 ;;
  when (negb (totalWritten =? bytesRead))
    (emit (Serial (PartialWrite totalWritten bytesRead))) ;;
  ret totalWritten.

(** [i2s_read(Speak_I2S_NUMBER, audioBuffer, DATA_SIZE, &bytesRead,
    portMAX_DELAY)]: the driver stores at most [DATA_SIZE] bytes at the head
    of [audioBuffer] and reports how many.  Any count up to [DATA_SIZE] is
    admitted here, which is more than the capture contract allows: with
    [portMAX_DELAY] a successful read fills the whole block ([whole_block]
    below). *)
Definition i2s_read (env : Env) : M (bool * Z) :=
  s <- get ;;
  let data := firstn (Z.to_nat DATA_SIZE) (i2s_data env) in
  modify (set_audioBuffer (data ++ skipn (List.length data) (audioBuffer s))) ;;
  emit (I2sRead (Z.of_nat (List.length data))) ;;
  callbacks (i2s_events env) ;;
  ret (i2s_ok env, Z.of_nat (List.length data)).

(** Streaming, lines 540-578. *)
Definition streamAudio (env : Env) : M unit :=
  s <- get ;;
  if btConnected s then
    r <- i2s_read env ;;
    let '(ok, bytesRead) := r in
    when (ok && (bytesRead >? 0))
      (s <- get ;;
       when (u32 (u32 (t_level env) - lastAudioUpdate s) >? 50)
         (calculateAudioLevel bytesRead ;;
          modify (set_lastAudioUpdate (u32 (t_level_done env)))) ;;
       sendBlock (bt_script env) bytesRead ;;
       ret tt)
  else delay 100.

(** [loop()], lines 484-579.  [M5.update()] refreshes the touch controller
    and has no effect on the variables above; the touch point it makes
    available is the [touch_x], [touch_y] of the environment. *)
Definition loop (env : Env) : M unit :=
  updateDisplay env ;;
  emit (Touch (touch_x env) (touch_y env)) ;;
  let touching := (touch_x env >? 0) && (touch_y env >? 0) in
  connectButton env touching ;;
  stopButton env touching ;;
  modify (set_lastTouchState touching) ;;
  discoverableTimeout env ;;
  streamAudio env.

(** How [setup()] ends: it returns, or it stays in [while (1) delay(1000)]
    for ever and [loop] never runs. *)
Inductive boot : Type := Booted | Parked.

(** [setup()], lines 434-482; [mic_ok] is [InitMicrophone()] and [bt_ok] is
    [SerialBT.begin(...)], which is called only after the microphone came
    up.  [M5.begin()], [setRotation] and [Serial.begin] touch none of the
    variables above.  For a parked device the trace is what happened before
    the endless wait. *)
Definition setup (mic_ok bt_ok : bool) (env : Env) : M boot :=
  emit (Serial Started) ;;
  emit Splash ;;
  emit (MicPower true) ;;
  delay 100 ;;
  emit (MicPower false) ;;
  if mic_ok then
    emit (Serial MicrophoneInitialized) ;;
    if bt_ok then
      emit RegisterCallback ;;
      emit (Serial BluetoothInitialized) ;;
      emit (Serial PressButtonNotice) ;;
      updateDisplay env ;;
      ret Booted
    else
      emit (ErrorScreen Bluetooth) ;;
      emit (Serial BluetoothFailed) ;;
      ret Parked
  else
    emit (ErrorScreen Microphone) ;;
    emit (Serial MicrophoneFailed) ;;
    ret Parked.

(** A run of the device after [setup]: ticks of [loop] interleaved with link
    callbacks. *)
Inductive step : Type :=
| Tick (env : Env)
| Deliver (ev : spp_event).

Definition exec (st : step) : M unit :=
  match st with
  | Tick env => loop env
  | Deliver ev => btCallback ev
  end.

Fixpoint run (steps : list step) : M unit :=
  match steps with
  | [] => ret tt
  | st :: rest => exec st ;; run rest
  end.

End Program.

(** ** Vocabulary of the properties *)

(** A render is owed: the state changed since the last render or the flag is
    up (the test of line 284). *)
Definition pending (s : State) : bool :=
  negb (currentState s =? lastDisplayState s) || needsFullRedraw s.

Definition is_fullredraw (e : event) : bool :=
  match e with Lcd FillScreen => true | _ => false end.

Definition redraws (tr : list event) : nat := List.length (filter is_fullredraw tr).

(** Messages that report a link event or a transition. *)
Definition is_link_msg (e : event) : bool :=
  match e with
  | Serial ClientConnected | Serial ClientDisconnected | Serial ConnectionModeEnabled
  | Serial DisconnectedByUser | Serial ConnectionModeTimeout => true
  | _ => false
  end.

Definition link_msgs (tr : list event) : nat := List.length (filter is_link_msg tr).

Definition is_render (e : event) : bool :=
  match e with Lcd _ => true | _ => false end.

Definition is_touch (e : event) : bool :=
  match e with Touch _ _ => true | _ => false end.

(** The transitions [loop] itself takes: the two buttons and the timeout. *)
Definition is_transition (e : event) : bool :=
  match e with
  | Serial ConnectionModeEnabled | Serial DisconnectedByUser
  | Serial ConnectionModeTimeout => true
  | _ => false
  end.

Definition is_audio (e : event) : bool :=
  match e with I2sRead _ | BtWrite _ _ => true | _ => false end.

Definition is_stop (e : event) : bool :=
  match e with Serial DisconnectedByUser => true | _ => false end.

(** What a STOP press does to the link: the teardown and its log line. *)
Definition is_teardown (e : event) : bool :=
  match e with BtDisconnect | Serial DisconnectedByUser => true | _ => false end.

(** Every [P] event of the trace comes before every [Q] event: no [P] is
    found after a [Q]. *)
Fixpoint before (P Q : event -> bool) (tr : list event) : bool :=
  match tr with
  | [] => true
  | e :: rest =>
      (if Q e then forallb (fun x => negb (P x)) rest else true) && before P Q rest
  end.

(** The order the specification gives for one tick. *)
Definition spec_order (tr : list event) : bool :=
  before is_touch is_transition tr && before is_transition is_render tr
  && before is_render is_audio tr.

(** The order [loop] has. *)
Definition loop_order (tr : list event) : bool :=
  before is_render is_touch tr && before is_touch is_transition tr
  && before is_transition is_audio tr.



(** The link flag after a batch of callbacks. *)
Definition link_after (evs : list spp_event) (connected : bool) : bool :=
  fold_left (fun b ev =>
               match ev with
               | ESP_SPP_SRV_OPEN_EVT => true
               | ESP_SPP_CLOSE_EVT => false
               | ESP_SPP_OTHER _ => b
               end) evs connected.

(** What a batch of callbacks logs, and the state it leaves. *)
Definition link_log (evs : list spp_event) : list event :=
  flat_map (fun ev =>
              match ev with
              | ESP_SPP_SRV_OPEN_EVT => [Serial ClientConnected]
              | ESP_SPP_CLOSE_EVT => [Serial ClientDisconnected]
              | ESP_SPP_OTHER _ => []
              end) evs.

Definition is_link_event (ev : spp_event) : bool :=
  match ev with ESP_SPP_OTHER _ => false | _ => true end.

Definition delivered (evs : list spp_event) (s : State) : State :=
  set_needsFullRedraw (needsFullRedraw s || existsb is_link_event evs)
    (set_btConnected (link_after evs (btConnected s)) s).

(** The transport stays connected and takes the [remaining] bytes in
    positive chunks, with any number of zero-byte attempts in between. *)
Inductive drains : list (Z * list spp_event) -> Z -> Prop :=
| drains_done script : drains script 0
| drains_chunk w evs rest remaining :
    0 < w <= remaining -> link_after evs true = true ->
    drains rest (remaining - w) -> drains ((w, evs) :: rest) remaining
| drains_retry evs rest remaining :
    0 < remaining -> link_after evs true = true ->
    drains rest remaining -> drains ((0, evs) :: rest) remaining.

(** The transport takes only part of the [remaining] bytes and then the link
    goes down. *)
Inductive drops : list (Z * list spp_event) -> Z -> Prop :=
| drops_here w evs rest remaining :
    0 <= w < remaining -> link_after evs true = false ->
    drops ((w, evs) :: rest) remaining
| drops_later w evs rest remaining :
    0 <= w < remaining -> link_after evs true = true ->
    drops rest (remaining - w) -> drops ((w, evs) :: rest) remaining.

(** What [updateDisplay] leaves alone: the link flags, the audio side and
    the touch latch; and it only draws. *)
Definition display_frame (s s' : State) (tr : list event) : Prop :=
  btConnected s' = btConnected s /\
  btDiscoverable s' = btDiscoverable s /\
  discoverableStartTime s' = discoverableStartTime s /\
  audioBuffer s' = audioBuffer s /\
  audioLevel s' = audioLevel s /\
  lastAudioUpdate s' = lastAudioUpdate s /\
  lastLevel s' = lastLevel s /\
  lastTouchState s' = lastTouchState s /\
  forallb is_render tr = true.

(** Lines 490-538 of [loop]: the touch poll, the two buttons and the
    timeout. *)
Definition buttons (env : Env) : M unit :=
  let touching := (touch_x env >? 0) && (touch_y env >? 0) in
  bind (emit (Touch (touch_x env) (touch_y env))) (fun _ =>
  bind (connectButton env touching) (fun _ =>
  bind (stopButton env touching) (fun _ =>
  bind (modify (set_lastTouchState touching)) (fun _ =>
  discoverableTimeout env)))).

(** Events the part of [loop] after [updateDisplay] and the touch poll may
    log: no drawing by [updateDisplay], no second poll. *)
Definition is_late (e : event) : bool := negb (is_render e || is_touch e).

(** Events of the streaming part: moreover none of [loop]'s own transitions. *)
Definition is_stream (e : event) : bool :=
  negb (is_render e || is_touch e || is_transition e).

(** What the code after [updateDisplay] keeps: it never touches what the
    display has drawn, draws no full redraw, and changes the link flags only
    together with a logged link message and the redraw flag. *)
Definition link_frame (s s' : State) (tr : list event) : Prop :=
  lastDisplayState s' = lastDisplayState s /\
  lastRemainingTime s' = lastRemainingTime s /\
  redraws tr = 0%nat /\
  ((link_msgs tr = 0%nat /\ btConnected s' = btConnected s /\
    btDiscoverable s' = btDiscoverable s /\
    discoverableStartTime s' = discoverableStartTime s /\
    needsFullRedraw s' = needsFullRedraw s)
   \/ ((0 < link_msgs tr)%nat /\ needsFullRedraw s' = true)).

(** What the streaming part keeps, with the events it may log. *)
Definition stream_rel (s s' : State) (tr : list event) : Prop :=
  link_frame s s' tr /\ forallb is_stream tr = true /\
  btDiscoverable s' = btDiscoverable s.

Definition is_warning (e : event) : bool :=
  match e with Serial (PartialWrite _ _) => true | _ => false end.


(** The trace holds only events of class [P]. *)
Definition only (P : event -> bool) (s s' : State) (tr : list event) : Prop :=
  forallb P tr = true.

(** The displayed level and the smoothing state are in [0,100]. *)
Definition level_ok (s : State) : Prop :=
  0 <= audioLevel s <= 100 /\ 0 <= lastLevel s <= 100.

Definition keeps_level (s s' : State) (tr : list event) : Prop :=
  level_ok s -> level_ok s'.

(** Partial correctness of a computation against a relation between the
    state before, the state after and the trace. *)
Definition sat {A : Type} (m : M A) (R : State -> State -> list event -> Prop) : Prop :=
  forall s a s' tr, m s = inr (a, s', tr) -> R s s' tr.

(** A relation that holds of doing nothing and composes along [bind]. *)
Record stepwise (R : State -> State -> list event -> Prop) : Prop := {
  stepwise_nil : forall s, R s s [];
  stepwise_app : forall s s1 s2 t1 t2, R s s1 t1 -> R s1 s2 t2 -> R s s2 (t1 ++ t2)
}.

(** ** Scenarios *)

Definition silence : list byte := repeat x00 (Z.to_nat DATA_SIZE).

(** 1024 samples of value 138. *)
Definition tone138 : list byte := concat (repeat [x8a; x00] 1024).

(** A tick at time [t] with nobody touching the screen. *)
Definition quiet (t : Z) : Env :=
  mkEnv t t t (-1) (-1) [] t [] [] [] t true [] [] t t [].

(** A tick at time [t] with a finger at ([x], [y]). *)
Definition press (x y t : Z) : Env :=
  mkEnv t t t x y [] t [] [] [] t true [] [] t t [].


(** A tick at time [t] with a finger on STOP, a peer that attaches again
    while the handler waits after the teardown, and a block of [tone138]
    that the transport takes at once. *)
Definition stop_reattach (t : Z) : Env :=
  mkEnv t t t 250 200 [] t [] [] [ESP_SPP_SRV_OPEN_EVT] t true tone138 [] t t
    [(2048, [])].

(** A streaming tick at time [t]: a full block of [data], sent by [script]. *)
Definition capture (t : Z) (data : list byte) (script : list (Z * list spp_event)) : Env :=
  mkEnv t t t (-1) (-1) [] t [] [] [] t true data [] t t script.

Definition state_after {A : Type} (m : M A) (s : State) : State :=
  match m s with
  | inr (_, s', _) => s'
  | inl _ => s
  end.

Definition trace_of {A : Type} (m : M A) (s : State) : list event :=
  match m s with
  | inr (_, _, tr) => tr
  | inl _ => []
  end.

(** The device as [setup] leaves it at boot. *)
Definition ready : State := state_after (setup true true (quiet 0)) init.

(** The device right after a peer attached to the idle device. *)
Definition streaming : State := state_after (btCallback ESP_SPP_SRV_OPEN_EVT) ready.

(** The device after a CONNECT press at 1 s, the finger lifted, and a peer
    that attached. *)
Definition paired : State :=
  state_after (run [Tick (press 160 215 1000); Tick (quiet 1400);
                    Deliver ESP_SPP_SRV_OPEN_EVT]) ready.

(** The device 400 ms after a CONNECT press at 1 s, nobody attached. *)
Definition searching : State :=
  state_after (run [Tick (press 160 215 1000); Tick (quiet 1400)]) ready.

(** ** Further vocabulary *)

(** Every sample of the block has magnitude at most [k]. *)
Definition samples_within (k : Z) (buffer : list byte) (length : Z) : Prop :=
  Forall (fun x => Z.abs x <= k) (Level.block_samples buffer length).

(** Every sample of the block has magnitude at least [k]. *)
Definition samples_beyond (k : Z) (buffer : list byte) (length : Z) : Prop :=
  Forall (fun x => k <= Z.abs x) (Level.block_samples buffer length).

(** The [SerialBT.write] calls of a trace, as (offered, written). *)
Fixpoint writes (tr : list event) : list (Z * Z) :=
  match tr with
  | [] => []
  | BtWrite offered written :: rest => (offered, written) :: writes rest
  | _ :: rest => writes rest
  end.

(** Each call is offered exactly what is still unsent of [bytesRead] when
    [sent] bytes have gone out. *)
Fixpoint reoffers (bytesRead sent : Z) (calls : list (Z * Z)) : Prop :=
  match calls with
  | [] => True
  | (offered, written) :: rest =>
      offered = bytesRead - sent /\ reoffers bytesRead (sent + written) rest
  end.

Definition written_sum (calls : list (Z * Z)) : Z :=
  fold_right (fun call acc => snd call + acc) 0 calls.

(** The back-off of line 567. *)
Definition is_backoff (e : event) : bool :=
  match e with Wait 1 => true | _ => false end.

Definition is_empty_write (call : Z * Z) : bool := snd call =? 0.

(** The touch test of line 493 and the two button rectangles of lines 497
    and 514. *)
Definition touching (env : Env) : bool :=
  (touch_x env >? 0) && (touch_y env >? 0).

Definition in_connect_region (env : Env) : bool :=
  (touch_x env >=? 70) && (touch_x env <=? 250)
  && (touch_y env >=? 190) && (touch_y env <=? 240).

Definition in_stop_region (env : Env) : bool :=
  (touch_x env >=? 195) && (touch_x env <=? 305)
  && (touch_y env >=? 185) && (touch_y env <=? 230).

(** The tests of lines 496-497 and of lines 513-514. *)
Definition connect_fires (env : Env) (s : State) : bool :=
  negb (btConnected s) && negb (btDiscoverable s) && touching env
  && negb (lastTouchState s) && in_connect_region env.

Definition stop_fires (env : Env) (s : State) : bool :=
  btConnected s && touching env && negb (lastTouchState s) && in_stop_region env.

(** What each handler logs when it runs, callbacks included. *)
Definition connect_trace (env : Env) : list event :=
  Feedback CONNECT :: Wait 100 :: link_log (connect_wait_events env)
  ++ EnableSSP :: Serial ConnectionModeEnabled :: Wait 200
  :: link_log (connect_done_events env).

Definition stop_trace (env : Env) : list event :=
  Feedback STOP :: Wait 100 :: link_log (stop_wait_events env)
  ++ BtDisconnect :: Serial DisconnectedByUser :: Wait 200
  :: link_log (stop_done_events env).

(** A peer is attached when the CONNECT handler returns. *)
Definition attached_in_connect (env : Env) : bool :=
  link_after (connect_wait_events env ++ connect_done_events env) false.

(** A peer is attached again when the STOP handler returns. *)
Definition attached_in_stop (env : Env) : bool :=
  link_after (stop_done_events env) false.

(** The state each of the three steps of lines 495-538 leaves. *)
Definition after_connect (env : Env) (s : State) : State :=
  if connect_fires env s
  then delivered (connect_done_events env)
         (set_needsFullRedraw true
            (set_discoverableStartTime (u32 (t_press env))
               (set_btDiscoverable true (delivered (connect_wait_events env) s))))
  else s.

Definition after_stop (env : Env) (s : State) : State :=
  if stop_fires env s
  then delivered (stop_done_events env)
         (set_needsFullRedraw true
            (set_btDiscoverable false
               (set_btConnected false (delivered (stop_wait_events env) s))))
  else s.

Definition times_out (env : Env) (s : State) : bool :=
  btDiscoverable s && negb (btConnected s)
  && (u32 (u32 (t_timeout env) - discoverableStartTime s) >? DISCOVERABLE_DURATION).

Definition after_timeout (env : Env) (s : State) : State :=
  if times_out env s
  then set_needsFullRedraw true (set_btDiscoverable false s)
  else s.

(** What lines 490-538 keep: the link discipline of [link_frame], no
    drawing, no second poll, no audio, and the audio side of the state. *)
Definition handler_rel (s s' : State) (tr : list event) : Prop :=
  link_frame s s' tr /\
  forallb is_late tr = true /\
  forallb (fun e => negb (is_audio e)) tr = true /\
  audioBuffer s' = audioBuffer s /\
  audioLevel s' = audioLevel s /\
  lastLevel s' = lastLevel s /\
  lastAudioUpdate s' = lastAudioUpdate s.

(** What a button handler does beyond waiting: the pressed-button drawing,
    the calls into the link layer and the transition it logs. *)
Definition is_action (e : event) : bool :=
  match e with
  | Feedback _ | EnableSSP | BtDisconnect
  | Serial ConnectionModeEnabled | Serial DisconnectedByUser => true
  | _ => false
  end.

(** What the streaming part keeps of the touch latch, with no button action
    in its trace. *)
Definition latch_rel (s s' : State) (tr : list event) : Prop :=
  lastTouchState s' = lastTouchState s /\
  forallb (fun e => negb (is_action e)) tr = true.

(** The states a run keeps to: [audioBuffer] holds its [DATA_SIZE] bytes and
    the level and its smoothing state are in [0,99]. *)
Definition sound (s : State) : Prop :=
  Z.of_nat (List.length (audioBuffer s)) = DATA_SIZE /\
  0 <= audioLevel s <= 99 /\ 0 <= lastLevel s <= 99.

(** Started in a sound state, the computation either stops with a fault of
    class [F] or returns a value of class [Q] in a sound state. *)
Definition guards {A : Type} (F : fault -> Prop) (m : M A) (Q : A -> Prop) : Prop :=
  forall s, sound s ->
    match m s with
    | inl f => F f
    | inr (a, s', _) => sound s' /\ Q a
    end.

(** The capture contract: the data of this tick fills a whole block. *)
Definition whole_block (env : Env) : Prop :=
  DATA_SIZE <= Z.of_nat (List.length (i2s_data env)).

(** The read of this tick delivers exactly one byte. *)
Definition one_byte (env : Env) : bool :=
  Nat.eqb (List.length (firstn (Z.to_nat DATA_SIZE) (i2s_data env))) 1.

(** The two ways a tick can go wrong. *)
Definition tick_fault (env : Env) (f : fault) : Prop :=
  f = Stalled \/ (f = DivideByZero /\ one_byte env = true).

Definition reads_one_byte (st : step) : bool :=
  match st with
  | Tick env => one_byte env
  | Deliver _ => false
  end.

(** ** The microphone start and the drawing helpers *)

(** ESP-IDF's esp_err.h, which main.cpp gets through driver/i2s.h:
    [esp_err_t] is [int], success is 0 and the generic failure is -1. *)
Definition ESP_OK : Z := 0.
Definition ESP_FAIL : Z := -1.

(** [InitMicrophone()], lines 47-81.  [install], [pin] and [clk] are the
    codes [i2s_driver_install], [i2s_set_pin] and [i2s_set_clk] return; the
    code of [i2s_driver_uninstall] is dropped by the source.  The three
    [err += ...] are [int] additions. *)
Definition InitMicrophone (install pin clk : Z) : res bool :=
  (e1 <- checked (ESP_OK + install) ;;
   e2 <- checked (e1 + pin) ;;
   e3 <- checked (e2 + clk) ;;
   inr (e3 =? ESP_OK))%res.

(** The codes the driver can return: success, the generic failure, or one of
    the numbered errors, which start at 0x101. *)
Definition idf_code (e : Z) : Prop :=
  e = ESP_OK \/ e = ESP_FAIL \/ 257 <= e < 2 ^ 29.

(** Calls into the display driver, as the helpers below issue them. *)
Inductive lcd_op : Type :=
| FastHLine (x y w color : Z)            (* M5.Lcd.drawFastHLine *)
| DrawCircle (x y r color : Z)            (* M5.Lcd.drawCircle *)
| Spoke (angle inner outer color : Z).    (* M5.Lcd.drawLine along [angle] degrees
                                             from the centre, between two distances *)

(** The three fields of an RGB565 colour. *)
Definition red5 (color : Z) : Z := Z.shiftr color 11.
Definition green6 (color : Z) : Z := Z.land (Z.shiftr color 5) 63.
Definition blue5 (color : Z) : Z := Z.land color 31.

(** A value stored in a [uint16_t], and one passed as a [uint8_t]. *)
Definition u16 (z : Z) : Z := z mod 2 ^ 16.
Definition u8 (z : Z) : Z := z mod 2 ^ 8.

(** The interpolation of lines 117-119 as a formula: the weighted mean of
    [a] and [b] at row [i] of [h]. *)
Definition mix (a b h i : Z) : Z := (a * (h - i) + b * i) / h.

(** The list [lo; lo+1; ...; hi] a [for (r = lo; r <= hi; r++)] runs over. *)
Definition Zrange (lo hi : Z) : list Z :=
  List.map (fun k => lo + Z.of_nat k) (seq 0 (Z.to_nat (hi - lo + 1))).

(** The statics of [drawAudioVisualizer]. *)
Record VisualizerState : Type := mkVisualizerState {
  lastLevelRadius : Z;
  lastPulse : Z;
  lastBarHeight : Z
}.

Section Drawing.

(** [M5.Lcd.color565] and the named colours belong to the M5Core2 library;
    the helpers are modelled for any of them.  [color565] takes its three
    channels as [uint8_t]. *)
Variable color565 : Z -> Z -> Z -> Z.
Variables TFT_BLACK TFT_CYAN : Z.

Local Open Scope res_scope.

(** One channel of lines 117-119, in [int] arithmetic. *)
Definition channel (a b h i : Z) : res Z :=
  rest <- checked (h - i) ;;
  p <- checked (a * rest) ;;
  q <- checked (b * i) ;;
  n <- checked (p + q) ;;
  cdiv n h.

(** The [for] loop of [drawGradientRect], with [n] rows left from row [i]. *)
Fixpoint gradientRows (n : nat) (i x y w h color1 color2 : Z) : res (list lcd_op) :=
  match n with
  | O => inr []
  | S n' =>
      r <- channel (red5 color1) (red5 color2) h i ;;
      g <- channel (green6 color1) (green6 color2) h i ;;
      b <- channel (blue5 color1) (blue5 color2) h i ;;
      row <- checked (y + i) ;;
      next <- checked (i + 1) ;;
      rows <- gradientRows n' next x y w h color1 color2 ;;
      inr (FastHLine x row w (u16 (color565 (u8 r) (u8 g) (u8 b))) :: rows)
  end.

(** [drawGradientRect(x, y, w, h, color1, color2)], lines 114-123. *)
Definition drawGradientRect (x y w h color1 color2 : Z) : res (list lcd_op) :=
  gradientRows (Z.to_nat h) 0 x y w h (u16 color1) (u16 color2).

(** The highlight colour of lines 200-204, by channel. *)
Definition highlightChannels (color : Z) : Z * Z * Z :=
  (Z.min 255 (Z.land (Z.shiftr color 11) 31 * 8 + 50),
   Z.min 255 (Z.land (Z.shiftr color 5) 63 * 4 + 30),
   Z.min 255 (Z.land color 31 * 8 + 50)).

(** The colour of ring [r], lines 152-156. *)
Definition ringColor (radius r : Z) : res Z :=
  cr <- Level.map r 0 radius 0 100 ;;
  cg <- Level.map r 0 radius 200 255 ;;
  cb <- Level.map r 0 radius 100 200 ;;
  inr (u16 (color565 (u8 cr) (u8 cg) (u8 cb))).

Fixpoint rings (centerX centerY radius : Z) (radii : list Z) : res (list lcd_op) :=
  match radii with
  | [] => inr []
  | r :: rest =>
      color <- ringColor radius r ;;
      ops <- rings centerX centerY radius rest ;;
      inr (DrawCircle centerX centerY r color :: ops)
  end.

(** [drawAudioVisualizer(centerX, centerY, radius)], lines 126-186, for the
    global [audioLevel].  [pulse] is the [int] that line 137 obtains from the
    floating-point [sin(pulseAnimation) * 3]; the twelve bars are lines
    whose end points lines 166-178 compute with [cos] and [sin], recorded
    here by angle and by their two distances from the centre.  The two
    unnamed results are the last [r++] of each loop over the circles. *)
Definition drawAudioVisualizer (centerX centerY radius audioLevel pulse : Z)
           (v : VisualizerState) : res (VisualizerState * list lcd_op) :=
  top <- checked (radius - 10) ;;
  levelRadius <- Level.map audioLevel 0 100 0 top ;;
  currentRadius <- checked (levelRadius + pulse) ;;
  barHeight <- Level.map audioLevel 0 100 0 20 ;;
  first <- (if currentRadius <? lastLevelRadius v
            then checked (currentRadius + 1) else inr 0) ;;
  _ <- (if currentRadius <? lastLevelRadius v
        then checked (lastLevelRadius v + 1) else inr 0) ;;
  let erased :=
    if currentRadius <? lastLevelRadius v
    then List.map (fun r => DrawCircle centerX centerY r TFT_BLACK)
                  (Zrange first (lastLevelRadius v))
    else [] in
  back <- checked (lastLevelRadius v - 5) ;;
  let startR := Z.max 0 back in
  drawn <- rings centerX centerY radius (Zrange startR currentRadius) ;;
  _ <- (if startR <=? currentRadius then checked (currentRadius + 1) else inr 0) ;;
  inner <- (if (lastBarHeight v >? 0) || (barHeight >? 0)
            then checked (radius - 15) else inr 0) ;;
  oldOuter <- (if lastBarHeight v >? 0
               then checked (inner + lastBarHeight v) else inr 0) ;;
  newOuter <- (if barHeight >? 0 then checked (inner + barHeight) else inr 0) ;;
  let bars :=
    flat_map (fun angle =>
                (if lastBarHeight v >? 0 then [Spoke angle inner oldOuter TFT_BLACK] else [])
                ++ (if barHeight >? 0 then [Spoke angle inner newOuter TFT_CYAN] else []))
             (List.map (fun k => 30 * Z.of_nat k) (seq 0 12)) in
  inr (mkVisualizerState currentRadius pulse barHeight, erased ++ drawn ++ bars).

End Drawing.

(** The values the statics of the visualizer stay within, for a widget of
    the given [radius]. *)
Definition visualizer_ok (radius : Z) (v : VisualizerState) : Prop :=
  -3 <= lastLevelRadius v <= radius - 7 /\ 0 <= lastBarHeight v <= 20.

Definition circle_radius (op : lcd_op) : option Z :=
  match op with
  | DrawCircle _ _ r _ => Some r
  | _ => None
  end.


(** The circles among [ops] have their radius within [lo, hi]. *)
Definition circles_within (lo hi : Z) (ops : list lcd_op) : Prop :=
  Forall (fun op => forall r, circle_radius op = Some r -> lo <= r <= hi) ops.

(** The usual packing of three 8-bit channels into RGB565, an instance of
    [color565] for the examples. *)
Definition rgb565 (r g b : Z) : Z :=
  Z.lor (Z.shiftl (Z.land r 248) 8) (Z.lor (Z.shiftl (Z.land g 252) 3) (Z.shiftr b 3)).

(** * Properties *)

Section LevelFacts.

Import Level.
Local Open Scope res_scope.

Lemma checked_ok z : INT_MIN <= z <= INT_MAX -> checked z = inr z.
Proof.
  intros [Hlo Hhi]. unfold checked.
  apply Z.leb_le in Hlo. apply Z.leb_le in Hhi. now rewrite Hlo, Hhi.
Qed.

Lemma cdiv_ok a b :
  0 <= a <= INT_MAX -> 0 < b -> cdiv a b = inr (a / b).
Proof.
  intros Ha Hb. unfold cdiv.
  destruct (Z.eqb_spec b 0) as [->|_]; [lia|].
  rewrite Z.quot_div_nonneg by lia.
  apply checked_ok.
  assert (0 <= a / b) by (apply Z.div_pos; lia).
  assert (a / b <= a) by (apply Z.div_le_upper_bound; nia).
  unfold INT_MIN, INT_MAX in *. lia.
Qed.

Lemma int16_of_range lo hi : -32768 <= int16_of lo hi <= 32767.
Proof.
  unfold int16_of.
  pose proof (Byte.to_N_bounded lo). pose proof (Byte.to_N_bounded hi).
  destruct (Z.ltb_spec (Z.of_N (to_N lo) + 256 * Z.of_N (to_N hi)) 32768); lia.
Qed.

Lemma sample_at_ok buffer i :
  (2 * i + 1 < List.length buffer)%nat -> sample_at buffer i = inr (sample_of buffer i).
Proof.
  intros Hi. unfold sample_at, sample_of.
  rewrite (nth_error_nth' buffer x00) by lia.
  rewrite (nth_error_nth' buffer x00) by lia.
  reflexivity.
Qed.

Lemma sum_abs_bound l :
  Forall (fun x => -32768 <= x <= 32767) l ->
  0 <= sum_abs l <= 32768 * Z.of_nat (List.length l).
Proof.
  induction 1 as [|x l Hx _ IH]; cbn [sum_abs fold_right List.length].
  - lia.
  - fold (sum_abs l). lia.
Qed.

Lemma spec_peak_bound l :
  Forall (fun x => -32768 <= x <= 32767) l -> 0 <= spec_peak l <= 32768.
Proof.
  induction 1 as [|x l Hx _ IH]; cbn [spec_peak fold_right].
  - lia.
  - fold (spec_peak l). lia.
Qed.

Lemma samples_range buffer i n :
  Forall (fun x => -32768 <= x <= 32767) (List.map (sample_of buffer) (seq i n)).
Proof.
  apply Forall_forall. intros x Hx. apply in_map_iff in Hx.
  destruct Hx as [j [<- _]]. apply int16_of_range.
Qed.

(** The scan loop adds up the absolute samples and keeps their maximum. *)
Lemma scan_ok buffer : forall n i sum mx,
  (2 * (i + n) <= List.length buffer)%nat ->
  0 <= sum -> sum + 32768 * Z.of_nat n <= INT_MAX -> 0 <= mx ->
  scan buffer n i sum mx =
    inr (sum + sum_abs (List.map (sample_of buffer) (seq i n)),
         Z.max mx (spec_peak (List.map (sample_of buffer) (seq i n)))).
Proof.
  induction n as [|n IH]; intros i sum mx Hlen Hsum Hmax Hmx.
  - cbn. f_equal. f_equal; lia.
  - cbn [scan seq List.map sum_abs spec_peak fold_right].
    fold (sum_abs (List.map (sample_of buffer) (seq (S i) n))).
    fold (spec_peak (List.map (sample_of buffer) (seq (S i) n))).
    rewrite sample_at_ok by lia. cbn [rbind].
    pose proof (int16_of_range (nth (2 * i) buffer x00) (nth (2 * i + 1) buffer x00)) as Hr.
    fold (sample_of buffer i) in Hr.
    unfold INT_MAX in Hmax.
    rewrite checked_ok by (unfold INT_MIN, INT_MAX; lia). cbn [rbind].
    rewrite checked_ok by (unfold INT_MIN, INT_MAX; lia). cbn [rbind].
    rewrite IH;
      [| lia | lia | unfold INT_MAX; lia
       | destruct (Z.gtb_spec (Z.abs (sample_of buffer i)) mx); lia ].
    f_equal. f_equal; [lia|].
    destruct (Z.gtb_spec (Z.abs (sample_of buffer i)) mx); lia.
Qed.

Lemma block_samples_eq buffer length :
  block_samples buffer length = List.map (sample_of buffer) (seq 0 (Z.to_nat (length / 2))).
Proof. reflexivity. Qed.

Lemma spec_mapped_range c : 0 <= spec_mapped c <= 100.
Proof. unfold spec_mapped. lia. Qed.

(** Lines 85-105 on a valid block: no fault, and the value the
    specification describes. *)
Lemma rawLevel_ok buffer length :
  valid_block buffer length ->
  rawLevel buffer length = inr (spec_mapped (spec_combined (block_samples buffer length))).
Proof.
  intros [Hbuf Hlen]. unfold DATA_SIZE in *.
  unfold rawLevel.
  assert (Hu : u32 length = length) by (unfold u32; apply Z.mod_small; lia).
  rewrite Hu.
  assert (Hn : 1 <= length / 2 <= 1024).
  { split; [apply Z.div_le_lower_bound; lia | apply Z.div_le_upper_bound; lia]. }
  rewrite scan_ok; [| lia | lia | unfold INT_MAX; lia | lia ].
  cbn [rbind]. rewrite <- block_samples_eq.
  set (l := block_samples buffer length).
  assert (Hl : Z.of_nat (List.length l) = length / 2).
  { unfold l, block_samples. rewrite length_map, length_seq. lia. }
  assert (Hr : Forall (fun x => -32768 <= x <= 32767) l) by apply samples_range.
  pose proof (sum_abs_bound l Hr) as Hs. pose proof (spec_peak_bound l Hr) as Hp.
  rewrite Hl in Hs.
  rewrite Z.add_0_l, Z.max_r by lia.
  rewrite cdiv_ok by (unfold INT_MAX; lia). cbn [rbind].
  assert (Havg : 0 <= sum_abs l / (length / 2) <= 32768).
  { split; [apply Z.div_pos; lia | apply Z.div_le_upper_bound; lia]. }
  rewrite checked_ok by (unfold INT_MIN, INT_MAX; lia). cbn [rbind].
  rewrite checked_ok by (unfold INT_MIN, INT_MAX; lia). cbn [rbind].
  rewrite cdiv_ok by (unfold INT_MAX; lia). cbn [rbind].
  assert (Hc : spec_combined l = (sum_abs l / (length / 2) * 3 + spec_peak l) / 4).
  { unfold spec_combined, spec_mean. rewrite Hl. f_equal. lia. }
  rewrite <- Hc.
  assert (Hcr : 0 <= spec_combined l <= 32768).
  { rewrite Hc. split; [apply Z.div_pos; lia | apply Z.div_le_upper_bound; lia]. }
  unfold map.
  rewrite checked_ok by (unfold INT_MIN, INT_MAX; lia). cbn [rbind].
  rewrite (checked_ok (100 - 0)) by (unfold INT_MIN, INT_MAX; lia). cbn [rbind].
  rewrite (checked_ok (2000 - 100)) by (unfold INT_MIN, INT_MAX; lia). cbn [rbind].
  rewrite checked_ok by (unfold INT_MIN, INT_MAX; lia). cbn [rbind].
  unfold cdiv. change (2000 - 100 =? 0) with false. cbv iota.
  set (num := (spec_combined l - 100) * (100 - 0)).
  assert (Hq : -6 < Z.quot num (2000 - 100) <= 1800).
  { unfold num. split.
    - apply Z.lt_le_trans with (Z.quot (-10000) (2000 - 100)); [reflexivity|].
      apply Z.quot_le_mono; lia.
    - apply Z.le_trans with (Z.quot 3266800 (2000 - 100)); [|vm_compute; discriminate].
      apply Z.quot_le_mono; lia. }
  rewrite checked_ok by (unfold INT_MIN, INT_MAX; lia). cbn [rbind].
  rewrite checked_ok by (unfold INT_MIN, INT_MAX; lia). cbn [rbind].
  f_equal. unfold constrain, spec_mapped. fold num.
  rewrite !Z.add_0_r.
  destruct (Z.le_gt_cases 0 num) as [Hpos|Hneg].
  - rewrite Z.quot_div_nonneg by lia.
    assert (0 <= num / (2000 - 100)) by (apply Z.div_pos; lia).
    destruct (Z.ltb_spec (num / (2000 - 100)) 0); [lia|].
    destruct (Z.gtb_spec (num / (2000 - 100)) 100); lia.
  - assert (Z.quot num (2000 - 100) <= 0).
    { apply Z.le_trans with (Z.quot 0 (2000 - 100)); [|reflexivity].
      apply Z.quot_le_mono; lia. }
    assert (num / (2000 - 100) < 0) by (apply Z.div_lt_upper_bound; lia).
    destruct (Z.ltb_spec (Z.quot num (2000 - 100)) 0).
    + lia.
    + destruct (Z.gtb_spec (Z.quot num (2000 - 100)) 100); lia.
Qed.

Lemma smooth_ok mapped previous :
  0 <= mapped <= 100 -> 0 <= previous <= 100 ->
  smooth mapped previous = inr ((mapped * 7 + previous * 3) / 10).
Proof.
  intros Hm Hp. unfold smooth.
  rewrite checked_ok by (unfold INT_MIN, INT_MAX; lia). cbn [rbind].
  rewrite checked_ok by (unfold INT_MIN, INT_MAX; lia). cbn [rbind].
  rewrite checked_ok by (unfold INT_MIN, INT_MAX; lia). cbn [rbind].
  apply cdiv_ok; unfold INT_MAX; lia.
Qed.

Lemma blend_range mapped previous :
  0 <= mapped <= 100 -> 0 <= previous <= 100 ->
  0 <= (mapped * 7 + previous * 3) / 10 <= 100.
Proof.
  intros Hm Hp. split.
  - apply Z.div_pos; lia.
  - apply Z.div_le_upper_bound; lia.
Qed.

Lemma valid_block_intro buffer length :
  (Z.of_nat (List.length buffer) =? DATA_SIZE) && (2 <=? length) && (length <=? DATA_SIZE)
    = true ->
  valid_block buffer length.
Proof.
  intros H. apply andb_prop in H. destruct H as [H H3].
  apply andb_prop in H. destruct H as [H1 H2].
  apply Z.eqb_eq in H1. apply Z.leb_le in H2. apply Z.leb_le in H3.
  repeat split; assumption.
Qed.

Lemma constrain_range amt : 0 <= constrain amt 0 100 <= 100.
Proof.
  unfold constrain.
  destruct (Z.ltb_spec amt 0); [lia|]. destruct (Z.gtb_spec amt 100); lia.
Qed.

Lemma rawLevel_range buffer length mapped :
  rawLevel buffer length = inr mapped -> 0 <= mapped <= 100.
Proof.
  unfold rawLevel. intros H.
  destruct (scan _ _ _ _ _) as [e|[sum mx]]; cbn [rbind] in H; [discriminate|].
  repeat match type of H with
         | rbind ?m _ = _ => destruct m; cbn [rbind] in H; [discriminate|]
         end.
  injection H as <-. apply constrain_range.
Qed.

(** On a valid block the whole call returns the level the specification
    describes. *)
Lemma calculateAudioLevel_ok buffer length previous :
  valid_block buffer length -> 0 <= previous <= 100 ->
  Level.calculateAudioLevel buffer length previous =
    inr (spec_level (block_samples buffer length) previous).
Proof.
  intros Hv Hp. unfold Level.calculateAudioLevel.
  rewrite rawLevel_ok by assumption. cbn [rbind].
  apply smooth_ok; [apply spec_mapped_range | assumption].
Qed.

(** C5: on every block the analysis computes the mean and the peak of the
    absolute samples, combined = (3*mean + peak)/4, the linear map of
    combined from 100..2000 to 0..100 clamped to [0,100], and
    new = (mapped*7 + previous*3)/10, all in integer arithmetic. *)
Theorem C5_level_formula buffer length previous :
  valid_block buffer length -> 0 <= previous <= 100 ->
  Level.calculateAudioLevel buffer length previous =
    inr (spec_level (block_samples buffer length) previous).
Proof.
  intros Hv Hp. unfold Level.calculateAudioLevel.
  rewrite (rawLevel_ok buffer length Hv). cbn [rbind].
  unfold spec_level.
  apply smooth_ok; [apply spec_mapped_range | exact Hp].
Qed.

Lemma C5_level_formula_witness :
  valid_block tone138 2048 /\ 0 <= 0 <= 100 /\
  Level.calculateAudioLevel tone138 2048 0 =
    inr (spec_level (block_samples tone138 2048) 0).
Proof.
  assert (Hv : valid_block tone138 2048) by (apply valid_block_intro; vm_compute; reflexivity).
  assert (Hp : 0 <= 0 <= 100) by lia.
  exact (conj Hv (conj Hp (C5_level_formula tone138 2048 0 Hv Hp))).
Defined.

Lemma analyze_all_range : forall blocks lastLevel,
  Forall (fun b => valid_block (fst b) (snd b)) blocks ->
  0 <= lastLevel <= 100 ->
  exists levels,
    analyze_all blocks lastLevel = inr levels /\
    List.length levels = List.length blocks /\
    Forall (fun level => 0 <= level <= 100) levels.
Proof.
  induction blocks as [|[buffer length] rest IH]; intros lastLevel Hv Hl.
  - exists []. repeat split. constructor.
  - inversion Hv as [|b bs Hb Hrest]; subst. cbn [fst snd] in Hb.
    cbn [analyze_all]. rewrite calculateAudioLevel_ok by assumption. cbn [rbind].
    assert (Hn : 0 <= spec_level (block_samples buffer length) lastLevel <= 100).
    { apply blend_range; [apply spec_mapped_range | assumption]. }
    destruct (IH _ Hrest Hn) as [levels [Hrun [Hlen Hall]]].
    rewrite Hrun. cbn [rbind]. eexists. split; [reflexivity|].
    split; [cbn; now rewrite Hlen | now constructor].
Qed.

(** Whatever the blocks, an output that is produced lies in [0,100]. *)
Lemma analyze_all_bounded : forall blocks lastLevel levels,
  0 <= lastLevel <= 100 ->
  analyze_all blocks lastLevel = inr levels ->
  Forall (fun level => 0 <= level <= 100) levels.
Proof.
  induction blocks as [|[buffer length] rest IH]; intros lastLevel levels Hl Hrun;
    cbn [analyze_all] in Hrun.
  - injection Hrun as <-. constructor.
  - unfold Level.calculateAudioLevel in Hrun.
    destruct (rawLevel buffer length) as [e|mapped] eqn:Hm; [discriminate|].
    cbn [rbind] in Hrun. apply rawLevel_range in Hm.
    rewrite smooth_ok in Hrun by assumption. cbn [rbind] in Hrun.
    pose proof (blend_range mapped lastLevel Hm Hl) as Hn.
    destruct (analyze_all rest _) as [e|levels'] eqn:Hrest; [discriminate|].
    cbn [rbind] in Hrun. injection Hrun as <-.
    constructor; [exact Hn | exact (IH _ _ Hn Hrest)].
Qed.

(** C6: over any sequence of analyzer calls that starts from the initial
    smoothing state, every output lies in [0,100]. *)
Theorem C6_level_in_range blocks :
  Forall (fun b => valid_block (fst b) (snd b)) blocks ->
  exists levels,
    analyze_all blocks (lastLevel init) = inr levels /\
    List.length levels = List.length blocks /\
    Forall (fun level => 0 <= level <= 100) levels.
Proof.
  intros Hv. apply analyze_all_range; [assumption | cbn; lia].
Qed.

Lemma C6_level_in_range_witness :
  Forall (fun b => valid_block (fst b) (snd b)) [(tone138, 2048); (silence, 2048)] /\
  exists levels,
    analyze_all [(tone138, 2048); (silence, 2048)] (lastLevel init) = inr levels /\
    List.length levels = 2%nat /\
    Forall (fun level => 0 <= level <= 100) levels.
Proof.
  assert (Hv : Forall (fun b => valid_block (fst b) (snd b))
                 [(tone138, 2048); (silence, 2048)]).
  { repeat apply Forall_cons; try apply Forall_nil;
      apply valid_block_intro; vm_compute; reflexivity. }
  exact (conj Hv (C6_level_in_range _ Hv)).
Defined.

(** C7, as stated, fails: after a block of level 2 has left the output at 1,
    a silent block moves it to 0, a change of 1 where 7/10 of
    |mapped - previous| is 0.7. *)
Lemma C7_truncation_counterexample :
  analyze_all [(tone138, 2048); (silence, 2048)] (lastLevel init) = inr [1; 0] /\
  rawLevel silence 2048 = inr 0 /\
  Level.calculateAudioLevel silence 2048 1 = inr 0 /\
  ~ blend_bound 1 0 0.
Proof.
  split; [vm_compute; reflexivity|].
  split; [vm_compute; reflexivity|].
  split; [vm_compute; reflexivity|].
  unfold blend_bound. cbn. lia.
Qed.

(** C7 (amended): one call moves the output toward the mapped level by 7/10
    of the distance, truncated to an integer: a rise is at most 7/10 of
    (mapped - previous), a fall is less than 7/10 of (previous - mapped)
    plus 1, and no call moves the output by more than 70. *)
Theorem C7_blend_step buffer length previous :
  valid_block buffer length -> 0 <= previous <= 100 ->
  exists mapped new,
    rawLevel buffer length = inr mapped /\
    Level.calculateAudioLevel buffer length previous = inr new /\
    0 <= mapped <= 100 /\
    (previous <= mapped -> previous <= new /\ blend_bound previous mapped new) /\
    (mapped <= previous -> new <= previous) /\
    10 * Z.abs (new - previous) < 7 * Z.abs (mapped - previous) + 10 /\
    Z.abs (new - previous) <= 70.
Proof.
  intros Hv Hp.
  exists (spec_mapped (spec_combined (block_samples buffer length))).
  exists (spec_level (block_samples buffer length) previous).
  split; [now apply rawLevel_ok|].
  split; [now apply calculateAudioLevel_ok|].
  unfold spec_level.
  pose proof (spec_mapped_range (spec_combined (block_samples buffer length))) as Hm.
  set (m := spec_mapped _) in *.
  pose proof (Z.div_mod (m * 7 + previous * 3) 10 ltac:(lia)) as Hd.
  pose proof (Z.mod_pos_bound (m * 7 + previous * 3) 10 ltac:(lia)) as Hr.
  unfold blend_bound.
  repeat split; try lia.
Qed.

Lemma C7_blend_step_witness :
  valid_block silence 2048 /\ 0 <= 1 <= 100 /\
  exists mapped new,
    rawLevel silence 2048 = inr mapped /\
    Level.calculateAudioLevel silence 2048 1 = inr new /\
    0 <= mapped <= 100 /\
    (1 <= mapped -> 1 <= new /\ blend_bound 1 mapped new) /\
    (mapped <= 1 -> new <= 1) /\
    10 * Z.abs (new - 1) < 7 * Z.abs (mapped - 1) + 10 /\
    Z.abs (new - 1) <= 70.
Proof.
  assert (Hv : valid_block silence 2048) by (apply valid_block_intro; vm_compute; reflexivity).
  assert (Hp : 0 <= 1 <= 100) by lia.
  exact (conj Hv (conj Hp (C7_blend_step silence 2048 1 Hv Hp))).
Defined.

End LevelFacts.

(** ** Running the monad *)

Section MonadFacts.

Local Open Scope m_scope.

Lemma bind_inr {A B : Type} (m : M A) (f : A -> M B) s b s2 tr :
  bind m f s = inr (b, s2, tr) ->
  exists a s1 t1 t2,
    m s = inr (a, s1, t1) /\ f a s1 = inr (b, s2, t2) /\ tr = t1 ++ t2.
Proof.
  unfold bind. destruct (m s) as [e|[[a s1] t1]] eqn:Hm; [discriminate|].
  destruct (f a s1) as [e|[[b' s2'] t2]] eqn:Hf; [discriminate|].
  intros H. injection H as Hb Hs Ht. subst.
  exists a, s1, t1, t2. repeat split; assumption.
Qed.

Lemma bind_run {A B : Type} (m : M A) (f : A -> M B) s a s1 t1 :
  m s = inr (a, s1, t1) ->
  bind m f s =
    match f a s1 with
    | inl e => inl e
    | inr (b, s2, t2) => inr (b, s2, t1 ++ t2)
    end.
Proof. intros H. unfold bind. now rewrite H. Qed.

Lemma bind_assoc {A B C : Type} (m : M A) (f : A -> M B) (g : B -> M C) s :
  bind (bind m f) g s = bind m (fun a => bind (f a) g) s.
Proof.
  unfold bind. destruct (m s) as [e|[[a s1] t1]]; [reflexivity|].
  destruct (f a s1) as [e|[[b s2] t2]]; [reflexivity|].
  destruct (g b s2) as [e|[[c s3] t3]]; [reflexivity|].
  now rewrite app_assoc.
Qed.

End MonadFacts.

Ltac run_m :=
  unfold bind, when, modify, emit, ret, get, delay, raise, lift;
  cbn [btConnected btDiscoverable discoverableStartTime audioBuffer audioLevel
       lastAudioUpdate lastDisplayState needsFullRedraw lastLevel lastUpdate
       animFrame lastAudioLevel lastRemainingTime lastStatusBarUpdate
       lastTouchState set_btConnected set_btDiscoverable
       set_discoverableStartTime set_audioBuffer set_audioLevel
       set_lastAudioUpdate set_lastDisplayState set_needsFullRedraw
       set_lastLevel set_lastUpdate set_animFrame set_lastAudioLevel
       set_lastRemainingTime set_lastStatusBarUpdate set_lastTouchState
       app fst snd negb andb orb].

Ltac split_if :=
  match goal with
  | |- context [if ?c then _ else _] => destruct c eqn:?; run_m
  end.

Ltac brute := repeat split_if; do 2 eexists; repeat split; reflexivity.

Section DisplayFacts.

Lemma fullRedraw_spec env s :
  exists s' tr,
    fullRedraw env s = inr (tt, s', tr) /\
    display_frame s s' tr /\
    lastUpdate s' = lastUpdate s /\
    needsFullRedraw s' = false /\
    lastDisplayState s' = currentState s /\
    lastRemainingTime s' = (if pending s then 999 else lastRemainingTime s) /\
    redraws tr = (if pending s then 1 else 0)%nat.
Proof.
  destruct s. unfold fullRedraw, display_frame, pending, currentState. run_m.
  destruct (negb _ || _) eqn:Hp; run_m.
  - do 2 eexists. repeat split; reflexivity.
  - apply orb_false_elim in Hp. destruct Hp as [Hs Hf].
    apply negb_false_iff, Z.eqb_eq in Hs.
    do 2 eexists. repeat split; try reflexivity; auto.
Qed.

Lemma refreshStatusBar_spec now s :
  exists s' tr,
    refreshStatusBar now s = inr (tt, s', tr) /\
    display_frame s s' tr /\
    lastUpdate s' = lastUpdate s /\
    lastAudioLevel s' = lastAudioLevel s /\
    lastRemainingTime s' = lastRemainingTime s /\
    needsFullRedraw s' = needsFullRedraw s /\
    lastDisplayState s' = lastDisplayState s /\
    redraws tr = 0%nat.
Proof.
  destruct s. unfold refreshStatusBar, display_frame. run_m. brute.
Qed.

Lemma drawStreaming_spec now s :
  exists s' tr,
    drawStreaming now s = inr (tt, s', tr) /\
    display_frame s s' tr /\
    needsFullRedraw s' = needsFullRedraw s /\
    lastDisplayState s' = lastDisplayState s /\
    redraws tr = 0%nat.
Proof.
  destruct s. unfold drawStreaming, display_frame. run_m. brute.
Qed.

Lemma drawSearching_spec env now s :
  exists s' tr,
    drawSearching env now s = inr (tt, s', tr) /\
    display_frame s s' tr /\
    needsFullRedraw s' = needsFullRedraw s /\
    lastDisplayState s' = lastDisplayState s /\
    redraws tr = 0%nat /\
    ((u32 (now - lastUpdate s) >? 50) = true ->
     lastRemainingTime s' =
       remainingSeconds (u32 (t_countdown env)) (discoverableStartTime s) /\
     (lastRemainingTime s' = lastRemainingTime s \/
      In (Lcd (Countdown (lastRemainingTime s'))) tr)).
Proof.
  destruct s as [c d st buf lvl lau lds nfr ll lu af lal lrt lsb lts].
  unfold drawSearching, display_frame. run_m.
  destruct (u32 (now - lu) >? 50) eqn:Hdue; run_m.
  - destruct (negb (_ =? lrt)) eqn:Hnew; run_m.
    + split_if; do 2 eexists; repeat split; try reflexivity;
        right; cbn; tauto.
    + apply negb_false_iff, Z.eqb_eq in Hnew.
      split_if; do 2 eexists; repeat split; try reflexivity;
        solve [ symmetry; exact Hnew | left; reflexivity ].
  - split_if; do 2 eexists; repeat split; try reflexivity; discriminate.
Qed.

Lemma drawReady_spec s :
  exists s' tr,
    drawReady s = inr (tt, s', tr) /\
    display_frame s s' tr /\
    needsFullRedraw s' = needsFullRedraw s /\
    lastDisplayState s' = lastDisplayState s /\
    redraws tr = 0%nat.
Proof.
  destruct s. unfold drawReady, display_frame. run_m. brute.
Qed.

End DisplayFacts.

Section TraceFacts.

Lemma redraws_app t1 t2 : redraws (t1 ++ t2) = (redraws t1 + redraws t2)%nat.
Proof. unfold redraws. now rewrite filter_app, length_app. Qed.

Lemma link_msgs_app t1 t2 : link_msgs (t1 ++ t2) = (link_msgs t1 + link_msgs t2)%nat.
Proof. unfold link_msgs. now rewrite filter_app, length_app. Qed.

Lemma redraws_none P tr :
  forallb P tr = true -> (forall e, P e = true -> is_fullredraw e = false) ->
  redraws tr = 0%nat.
Proof.
  intros Hall HP. unfold redraws. induction tr as [|e tr IH]; [reflexivity|].
  cbn in Hall. apply andb_prop in Hall. destruct Hall as [He Htr].
  cbn. rewrite (HP e He). now apply IH.
Qed.

Lemma forallb_weaken (P Q : event -> bool) tr :
  (forall e, P e = true -> Q e = true) -> forallb P tr = true -> forallb Q tr = true.
Proof.
  intros HPQ. rewrite !forallb_forall. auto.
Qed.

(** No [P] after a [Q] in [t1 ++ t2] when that holds of both parts and
    either [t1] has no [Q] or [t2] has no [P]. *)
Lemma before_app P Q t1 t2 :
  before P Q t1 = true -> before P Q t2 = true ->
  forallb (fun e => negb (Q e)) t1 = true \/ forallb (fun e => negb (P e)) t2 = true ->
  before P Q (t1 ++ t2) = true.
Proof.
  induction t1 as [|e t1 IH]; intros H1 H2 Hor; [exact H2|].
  cbn [app before] in *. apply andb_prop in H1. destruct H1 as [He H1].
  apply andb_true_intro. split.
  - destruct (Q e) eqn:HQ; [|reflexivity].
    rewrite forallb_app, He. cbn [andb].
    destruct Hor as [Hq|Hp]; [|exact Hp].
    cbn [forallb] in Hq. rewrite HQ in Hq. discriminate.
  - apply IH; [assumption | assumption |].
    destruct Hor as [Hq|Hp]; [left|right; exact Hp].
    cbn [forallb] in Hq. apply andb_prop in Hq. tauto.
Qed.

Lemma before_no_Q P Q tr :
  forallb (fun e => negb (Q e)) tr = true -> before P Q tr = true.
Proof.
  induction tr as [|e tr IH]; [reflexivity|]. cbn [forallb before].
  intros H. apply andb_prop in H. destruct H as [He H].
  apply negb_true_iff in He. rewrite He. now apply IH.
Qed.

Lemma before_no_P P Q tr :
  forallb (fun e => negb (P e)) tr = true -> before P Q tr = true.
Proof.
  induction tr as [|e tr IH]; [reflexivity|]. cbn [forallb before].
  intros H. apply andb_prop in H. destruct H as [He H].
  rewrite H, IH by assumption. now destruct (Q e).
Qed.

End TraceFacts.

Section DisplayComposition.

Lemma display_frame_trans s s1 s2 t1 t2 :
  display_frame s s1 t1 -> display_frame s1 s2 t2 -> display_frame s s2 (t1 ++ t2).
Proof.
  unfold display_frame. intros H1 H2.
  destruct H1 as (A1 & B1 & C1 & D1 & E1 & F1 & G1 & I1 & J1).
  destruct H2 as (A2 & B2 & C2 & D2 & E2 & F2 & G2 & I2 & J2).
  rewrite forallb_app, J1, J2.
  repeat split; congruence.
Qed.

(** [updateDisplay] always returns; it redraws the whole screen exactly when
    a render is owed and leaves the display in step with the state. *)
Lemma updateDisplay_spec env s :
  exists s' tr,
    updateDisplay env s = inr (tt, s', tr) /\
    display_frame s s' tr /\
    needsFullRedraw s' = false /\
    lastDisplayState s' = currentState s /\
    redraws tr = (if pending s then 1 else 0)%nat /\
    (btConnected s = false -> btDiscoverable s = true ->
     (u32 (u32 (t_now env) - lastUpdate s) >? 50) = true ->
     lastRemainingTime s' =
       remainingSeconds (u32 (t_countdown env)) (discoverableStartTime s) /\
     (lastRemainingTime s' = (if pending s then 999 else lastRemainingTime s) \/
      In (Lcd (Countdown (lastRemainingTime s'))) tr)).
Proof.
  unfold updateDisplay.
  destruct (fullRedraw_spec env s) as (s1 & t1 & R1 & F1 & U1 & N1 & L1 & T1 & D1).
  rewrite (bind_run _ _ _ _ _ _ R1).
  destruct (refreshStatusBar_spec (u32 (t_now env)) s1)
    as (s2 & t2 & R2 & F2 & U2 & A2 & T2 & N2 & L2 & D2).
  rewrite (bind_run _ _ _ _ _ _ R2).
  pose proof (display_frame_trans _ _ _ _ _ F1 F2) as F12.
  assert (Hc : btConnected s2 = btConnected s) by apply F12.
  assert (Hd : btDiscoverable s2 = btDiscoverable s) by (destruct F12; tauto).
  assert (Hst : discoverableStartTime s2 = discoverableStartTime s)
    by (destruct F12; tauto).
  unfold bind at 1. unfold get. cbn beta iota.
  destruct (btConnected s2) eqn:Ec.
  - destruct (drawStreaming_spec (u32 (t_now env)) s2) as (s3 & t3 & R3 & F3 & N3 & L3 & D3).
    rewrite R3. exists s3, (t1 ++ t2 ++ t3).
    split; [reflexivity|]. split; [eauto using display_frame_trans|].
    rewrite !redraws_app, D1, D2, D3.
    repeat split; try congruence; try lia.
  - destruct (btDiscoverable s2) eqn:Ed.
    + destruct (drawSearching_spec env (u32 (t_now env)) s2)
        as (s3 & t3 & R3 & F3 & N3 & L3 & D3 & C3).
      rewrite R3. exists s3, (t1 ++ t2 ++ t3).
      split; [reflexivity|]. split; [eauto using display_frame_trans|].
      rewrite !redraws_app, D1, D2, D3.
      split; [congruence|]. split; [congruence|]. split; [lia|].
      intros _ _ Hdue. rewrite U2, U1 in C3. specialize (C3 Hdue).
      destruct C3 as [Hrem Hshown]. rewrite Hst in Hrem.
      split; [exact Hrem|].
      destruct Hshown as [Hsame|Hin].
      * left. congruence.
      * right. rewrite !in_app_iff. auto.
    + destruct (drawReady_spec s2) as (s3 & t3 & R3 & F3 & N3 & L3 & D3).
      rewrite R3. exists s3, (t1 ++ t2 ++ t3).
      split; [reflexivity|]. split; [eauto using display_frame_trans|].
      rewrite !redraws_app, D1, D2, D3.
      repeat split; try congruence; try lia.
Qed.

End DisplayComposition.

Section Stepwise.

Local Open Scope m_scope.

Variable R : State -> State -> list event -> Prop.
Hypothesis HR : stepwise R.

Lemma sat_ret {A : Type} (a : A) : sat (ret a) R.
Proof. intros s a' s' tr H. injection H as _ <- <-. apply HR. Qed.

Lemma sat_get : sat get R.
Proof. intros s a' s' tr H. injection H as _ <- <-. apply HR. Qed.

Lemma sat_raise {A : Type} e : sat (@raise A e) R.
Proof. intros s a s' tr H. discriminate. Qed.

Lemma sat_lift {A : Type} (r : res A) : sat (lift r) R.
Proof.
  intros s a s' tr H. unfold lift in H. destruct r; [discriminate|].
  injection H as _ <- <-. apply HR.
Qed.

Lemma sat_bind {A B : Type} (m : M A) (f : A -> M B) :
  sat m R -> (forall a, sat (f a) R) -> sat (bind m f) R.
Proof.
  intros Hm Hf s b s' tr H.
  apply bind_inr in H. destruct H as (a & s1 & t1 & t2 & H1 & H2 & ->).
  eapply stepwise_app; [exact HR | eapply Hm; eassumption | eapply Hf; eassumption].
Qed.

Lemma sat_when c (m : M unit) : sat m R -> sat (when c m) R.
Proof. intros Hm. destruct c; [exact Hm | apply sat_ret]. Qed.

Lemma sat_emit e : (forall s, R s s [e]) -> sat (emit e) R.
Proof. intros He s a s' tr H. injection H as _ <- <-. apply He. Qed.

Lemma sat_modify f : (forall s, R s (f s) []) -> sat (modify f) R.
Proof. intros Hf s a s' tr H. injection H as _ <- <-. apply Hf. Qed.

End Stepwise.

Section StreamFacts.

Local Open Scope m_scope.

Lemma link_frame_stepwise : stepwise link_frame.
Proof.
  split.
  - intros s. unfold link_frame. repeat split. left. repeat split.
  - intros s s1 s2 t1 t2 (L1 & T1 & D1 & C1) (L2 & T2 & D2 & C2).
    unfold link_frame. rewrite redraws_app, link_msgs_app, D1, D2.
    split; [congruence|]. split; [congruence|]. split; [reflexivity|].
    destruct C2 as [(M2 & A2 & B2 & S2 & N2)|(M2 & N2)].
    + destruct C1 as [(M1 & A1 & B1 & S1 & N1)|(M1 & N1)].
      * left. repeat split; try congruence. lia.
      * right. split; [lia | congruence].
    + right. split; [lia | assumption].
Qed.

Lemma stream_rel_stepwise : stepwise stream_rel.
Proof.
  split.
  - intros s. split; [apply link_frame_stepwise|]. split; reflexivity.
  - intros s s1 s2 t1 t2 (F1 & E1 & B1) (F2 & E2 & B2).
    split; [eapply stepwise_app; eauto using link_frame_stepwise|].
    rewrite forallb_app, E1, E2. split; [reflexivity | congruence].
Qed.

Lemma btCallback_stream ev : sat (btCallback ev) stream_rel.
Proof.
  intros s a s' tr H. destruct s. unfold stream_rel, link_frame.
  destruct ev; unfold btCallback in H; revert H; run_m; intros H;
    injection H as _ <- <-; cbn;
    (repeat split; try reflexivity);
    first [ right; split; [lia | reflexivity] | left; repeat split ].
Qed.

Lemma callbacks_stream evs : sat (callbacks evs) stream_rel.
Proof.
  induction evs as [|ev evs IH]; cbn [callbacks].
  - apply sat_ret, stream_rel_stepwise.
  - apply sat_bind; [apply stream_rel_stepwise | apply btCallback_stream | intros _; exact IH].
Qed.

Lemma stream_rel_emit e :
  is_stream e = true -> is_fullredraw e = false -> is_link_msg e = false ->
  forall s, stream_rel s s [e].
Proof.
  intros He Hf Hl s. unfold stream_rel, link_frame, redraws, link_msgs.
  cbn. rewrite He, Hf, Hl. cbn. repeat split. left. repeat split.
Qed.

Lemma stream_rel_modify f :
  (forall s, lastDisplayState (f s) = lastDisplayState s /\
             lastRemainingTime (f s) = lastRemainingTime s /\
             btConnected (f s) = btConnected s /\
             btDiscoverable (f s) = btDiscoverable s /\
             discoverableStartTime (f s) = discoverableStartTime s /\
             needsFullRedraw (f s) = needsFullRedraw s) ->
  forall s, stream_rel s (f s) [].
Proof.
  intros Hf s. destruct (Hf s) as (A & B & C & D & E & F).
  unfold stream_rel, link_frame. repeat split; try assumption.
  left. repeat split; assumption.
Qed.

Ltac stream_step :=
  first
    [ apply sat_bind; [apply stream_rel_stepwise | | intros ? ]
    | apply sat_when; [apply stream_rel_stepwise | ]
    | apply sat_get; apply stream_rel_stepwise
    | apply sat_ret; apply stream_rel_stepwise
    | apply sat_raise
    | apply sat_lift; apply stream_rel_stepwise
    | apply callbacks_stream
    | apply sat_emit; apply stream_rel_emit; reflexivity
    | apply sat_modify; apply stream_rel_modify; intros s; destruct s; repeat split ].

Lemma transmit_stream : forall script bytesRead totalWritten,
  sat (transmit script bytesRead totalWritten) stream_rel.
Proof.
  induction script as [|[accepted evs] rest IH]; intros bytesRead totalWritten;
    cbn [transmit].
  - repeat stream_step. destruct (_ && _); stream_step.
  - repeat stream_step. destruct (_ && _); [|stream_step].
    unfold delay. repeat stream_step. apply IH.
Qed.

Lemma streamAudio_stream env : sat (streamAudio env) stream_rel.
Proof.
  unfold streamAudio, i2s_read, sendBlock, calculateAudioLevel, delay.
  repeat stream_step. destruct (btConnected _); [|stream_step].
  repeat stream_step.
  match goal with |- sat (let '(_, _) := ?r in _) _ => destruct r as [ok bytesRead] end.
  repeat stream_step. apply transmit_stream.
Qed.

Lemma streamAudio_idle env s :
  btConnected s = false -> streamAudio env s = inr (tt, s, [Wait 100]).
Proof.
  intros H. unfold streamAudio, bind, get, delay, emit. now rewrite H.
Qed.

End StreamFacts.

Section LatchFacts.

Local Open Scope m_scope.

Lemma latch_rel_stepwise : stepwise latch_rel.
Proof.
  split; unfold latch_rel.
  - intros s. split; reflexivity.
  - intros s s1 s2 t1 t2 [L1 A1] [L2 A2].
    rewrite forallb_app, A1, A2. split; [congruence | reflexivity].
Qed.

Ltac latch_step :=
  first
    [ apply sat_bind; [apply latch_rel_stepwise | | intros ? ]
    | apply sat_when; [apply latch_rel_stepwise | ]
    | apply sat_get; apply latch_rel_stepwise
    | apply sat_ret; apply latch_rel_stepwise
    | apply sat_raise
    | apply sat_lift; apply latch_rel_stepwise
    | apply sat_emit; intros s; split; reflexivity
    | apply sat_modify; intros s; destruct s; split; reflexivity ].

Lemma callbacks_latch evs : sat (callbacks evs) latch_rel.
Proof.
  induction evs as [|ev evs IH]; cbn [callbacks].
  - latch_step.
  - latch_step; [|exact IH]. destruct ev; cbn [btCallback]; repeat latch_step.
Qed.

Lemma transmit_latch : forall script bytesRead totalWritten,
  sat (transmit script bytesRead totalWritten) latch_rel.
Proof.
  induction script as [|[accepted evs] rest IH]; intros bytesRead totalWritten;
    cbn [transmit].
  - repeat latch_step. destruct (_ && _); latch_step.
  - latch_step; [latch_step|]. destruct (_ && _); [|latch_step].
    unfold delay.
    latch_step; [latch_step|].
    latch_step; [repeat latch_step|].
    latch_step; [apply callbacks_latch | apply IH].
Qed.

Lemma streamAudio_latch env : sat (streamAudio env) latch_rel.
Proof.
  unfold streamAudio, i2s_read, sendBlock, calculateAudioLevel, delay.
  latch_step; [latch_step|]. destruct (btConnected _); [|latch_step].
  latch_step.
  - latch_step; [latch_step|]. latch_step; [latch_step|].
    latch_step; [latch_step|]. latch_step; [apply callbacks_latch | latch_step].
  - match goal with |- sat (let '(_, _) := ?r in _) _ => destruct r as [ok bytesRead] end.
    latch_step. latch_step; [latch_step|].
    latch_step; [repeat latch_step|].
    latch_step; [|latch_step].
    latch_step; [apply transmit_latch|]. repeat latch_step.
Qed.

Lemma forallb_In (P : event -> bool) tr e :
  forallb P tr = true -> In e tr -> P e = true.
Proof. intros H. rewrite forallb_forall in H. apply H. Qed.

Lemma no_action_in tr :
  forallb (fun e => negb (is_action e)) tr = true -> existsb is_action tr = false.
Proof.
  induction tr as [|e tr IH]; [reflexivity|]. cbn. intros H.
  apply andb_prop in H. destruct H as [He H]. apply negb_true_iff in He.
  rewrite He, IH by assumption. reflexivity.
Qed.

Lemma render_no_action tr :
  forallb is_render tr = true -> forallb (fun e => negb (is_action e)) tr = true.
Proof.
  apply forallb_weaken. intros e He. destruct e; try discriminate. reflexivity.
Qed.

End LatchFacts.

Section ButtonFacts.

Local Open Scope m_scope.

Lemma link_after_app evs1 evs2 c :
  link_after (evs1 ++ evs2) c = link_after evs2 (link_after evs1 c).
Proof. unfold link_after. apply fold_left_app. Qed.

(** A batch of callbacks always returns, with the state and the log that
    [delivered] and [link_log] give. *)
Lemma callbacks_eq : forall evs s,
  callbacks evs s = inr (tt, delivered evs s, link_log evs).
Proof.
  induction evs as [|ev evs IH]; intros s.
  - destruct s. unfold delivered. cbn. now rewrite orb_false_r.
  - cbn [callbacks]. unfold bind.
    destruct ev; cbn [btCallback]; run_m; rewrite IH; destruct s;
      unfold delivered; cbn; rewrite ?orb_true_r; reflexivity.
Qed.

Lemma link_log_class (P : event -> bool) evs :
  P (Serial ClientConnected) = true -> P (Serial ClientDisconnected) = true ->
  forallb P (link_log evs) = true.
Proof.
  intros Ha Hd. induction evs as [|ev evs IH]; [reflexivity|].
  destruct ev; cbn; rewrite ?Ha, ?Hd; exact IH.
Qed.

Lemma link_msgs_In tr e :
  In e tr -> is_link_msg e = true -> (0 < link_msgs tr)%nat.
Proof.
  intros Hin He. unfold link_msgs.
  assert (Hf : In e (filter is_link_msg tr)) by (apply filter_In; auto).
  destruct (filter is_link_msg tr); [contradiction | cbn; lia].
Qed.

Ltac trace_class :=
  cbn [forallb app]; rewrite ?forallb_app; cbn [forallb];
  rewrite ?link_log_class by reflexivity; reflexivity.

Lemma connect_trace_class (P : event -> bool) env :
  P (Serial ClientConnected) = true -> P (Serial ClientDisconnected) = true ->
  P (Feedback CONNECT) = true -> P (Wait 100) = true -> P EnableSSP = true ->
  P (Serial ConnectionModeEnabled) = true -> P (Wait 200) = true ->
  forallb P (connect_trace env) = true.
Proof.
  intros Ha Hd H1 H2 H3 H4 H5. unfold connect_trace.
  cbn [forallb]. rewrite forallb_app. cbn [forallb].
  rewrite !link_log_class, H1, H2, H3, H4, H5 by assumption. reflexivity.
Qed.

Lemma stop_trace_class (P : event -> bool) env :
  P (Serial ClientConnected) = true -> P (Serial ClientDisconnected) = true ->
  P (Feedback STOP) = true -> P (Wait 100) = true -> P BtDisconnect = true ->
  P (Serial DisconnectedByUser) = true -> P (Wait 200) = true ->
  forallb P (stop_trace env) = true.
Proof.
  intros Ha Hd H1 H2 H3 H4 H5. unfold stop_trace.
  cbn [forallb]. rewrite forallb_app. cbn [forallb].
  rewrite !link_log_class, H1, H2, H3, H4, H5 by assumption. reflexivity.
Qed.

(** The CONNECT handler, in closed form. *)
Lemma connectButton_eq env s :
  connectButton env (touching env) s =
    inr (tt, after_connect env s, if connect_fires env s then connect_trace env else []).
Proof.
  destruct s as [c d st buf lvl lau lds nfr ll lu af lal lrt lsb lts].
  unfold connectButton, after_connect, connect_fires, connect_trace, in_connect_region.
  run_m.
  destruct c, d, (touching env), lts; run_m; try reflexivity.
  destruct ((touch_x env >=? 70) && (touch_x env <=? 250)
            && (touch_y env >=? 190) && (touch_y env <=? 240)); run_m;
    [|reflexivity].
  rewrite callbacks_eq. unfold delivered at 2. run_m.
  rewrite callbacks_eq. reflexivity.
Qed.

(** The STOP handler, in closed form. *)
Lemma stopButton_eq env s :
  stopButton env (touching env) s =
    inr (tt, after_stop env s, if stop_fires env s then stop_trace env else []).
Proof.
  destruct s as [c d st buf lvl lau lds nfr ll lu af lal lrt lsb lts].
  unfold stopButton, after_stop, stop_fires, stop_trace, in_stop_region. run_m.
  destruct c, (touching env), lts; run_m; try reflexivity.
  destruct ((touch_x env >=? 195) && (touch_x env <=? 305)
            && (touch_y env >=? 185) && (touch_y env <=? 230)); run_m;
    [|reflexivity].
  rewrite callbacks_eq. unfold delivered at 2. run_m.
  rewrite callbacks_eq. reflexivity.
Qed.

Lemma discoverableTimeout_eq env s :
  discoverableTimeout env s =
    inr (tt, after_timeout env s,
         if times_out env s then [Serial ConnectionModeTimeout] else []).
Proof.
  destruct s as [c d st buf lvl lau lds nfr ll lu af lal lrt lsb lts].
  unfold discoverableTimeout, after_timeout, times_out. run_m.
  destruct d, c; run_m; try reflexivity.
  destruct (_ >? _); reflexivity.
Qed.

(** Lines 490-538, in closed form: they always return. *)
Lemma buttons_eq env s :
  buttons env s =
    inr (tt,
         after_timeout env
           (set_lastTouchState (touching env) (after_stop env (after_connect env s))),
         Touch (touch_x env) (touch_y env)
         :: (if connect_fires env s then connect_trace env else [])
         ++ (if stop_fires env (after_connect env s) then stop_trace env else [])
         ++ (if times_out env
                  (set_lastTouchState (touching env) (after_stop env (after_connect env s)))
             then [Serial ConnectionModeTimeout] else [])).
Proof.
  unfold buttons. fold (touching env).
  unfold bind at 1. unfold emit at 1.
  rewrite (bind_run _ _ _ _ _ _ (connectButton_eq env s)).
  rewrite (bind_run _ _ _ _ _ _ (stopButton_eq env _)).
  unfold bind at 1. unfold modify at 1.
  rewrite discoverableTimeout_eq. cbn [app]. reflexivity.
Qed.

Lemma handler_rel_stepwise : stepwise handler_rel.
Proof.
  split.
  - intros s. unfold handler_rel. split; [apply link_frame_stepwise|].
    repeat split; reflexivity.
  - intros s s1 s2 t1 t2 (F1 & L1 & N1 & A1 & B1 & C1 & D1) (F2 & L2 & N2 & A2 & B2 & C2 & D2).
    unfold handler_rel. rewrite !forallb_app, L1, L2, N1, N2.
    split; [eapply stepwise_app; eauto using link_frame_stepwise|].
    repeat split; congruence.
Qed.

Lemma delivered_rel evs s : handler_rel s (delivered evs s) (link_log evs).
Proof.
  pose proof (callbacks_stream evs s tt _ _ (callbacks_eq evs s)) as (F & _ & _).
  split; [exact F|].
  split; [apply link_log_class; reflexivity|].
  split; [apply link_log_class; reflexivity|].
  destruct s; repeat split; reflexivity.
Qed.

Lemma waiting_rel s tr :
  forallb (fun e => match e with Feedback _ | Wait _ => true | _ => false end) tr = true ->
  handler_rel s s tr.
Proof.
  intros H. unfold handler_rel, link_frame.
  assert (Hl : forallb is_late tr = true).
  { revert H. apply forallb_weaken. intros e; destruct e; try discriminate; reflexivity. }
  assert (Ha : forallb (fun e => negb (is_audio e)) tr = true).
  { revert H. apply forallb_weaken. intros e; destruct e; try discriminate; reflexivity. }
  assert (Hr : redraws tr = 0%nat).
  { apply (redraws_none _ _ H). intros e; destruct e; try discriminate; reflexivity. }
  assert (Hm : link_msgs tr = 0%nat).
  { unfold link_msgs. clear -H. induction tr as [|e tr IH]; [reflexivity|].
    cbn in H. apply andb_prop in H. destruct H as [He H].
    destruct e; try discriminate; cbn; now apply IH. }
  repeat split; try assumption. left. repeat split. exact Hm.
Qed.

(** A transition of [loop] itself: the flags change, the message is logged
    and the redraw flag goes up. *)
Lemma transition_rel s s' tr :
  lastDisplayState s' = lastDisplayState s ->
  lastRemainingTime s' = lastRemainingTime s ->
  needsFullRedraw s' = true ->
  audioBuffer s' = audioBuffer s -> audioLevel s' = audioLevel s ->
  lastLevel s' = lastLevel s -> lastAudioUpdate s' = lastAudioUpdate s ->
  forallb is_late tr = true ->
  forallb (fun e => negb (is_audio e)) tr = true ->
  (0 < link_msgs tr)%nat ->
  handler_rel s s' tr.
Proof.
  intros. unfold handler_rel, link_frame. repeat split; try assumption.
  - apply (redraws_none is_late); [assumption|].
    intros e; destruct e; try discriminate; reflexivity.
  - right. split; assumption.
Qed.

Lemma after_connect_rel env s :
  handler_rel s (after_connect env s)
    (if connect_fires env s then connect_trace env else []).
Proof.
  unfold after_connect. destruct (connect_fires env s); [|apply handler_rel_stepwise].
  change (connect_trace env)
    with ([Feedback CONNECT; Wait 100] ++ link_log (connect_wait_events env)
          ++ [EnableSSP; Serial ConnectionModeEnabled; Wait 200]
          ++ link_log (connect_done_events env)).
  eapply stepwise_app; [apply handler_rel_stepwise | now apply waiting_rel |].
  eapply stepwise_app; [apply handler_rel_stepwise | apply delivered_rel |].
  eapply stepwise_app; [apply handler_rel_stepwise | | apply delivered_rel].
  apply transition_rel; try reflexivity;
    try (destruct (delivered (connect_wait_events env) s); reflexivity).
  cbn. lia.
Qed.

Lemma after_stop_rel env s :
  handler_rel s (after_stop env s) (if stop_fires env s then stop_trace env else []).
Proof.
  unfold after_stop. destruct (stop_fires env s); [|apply handler_rel_stepwise].
  change (stop_trace env)
    with ([Feedback STOP; Wait 100] ++ link_log (stop_wait_events env)
          ++ [BtDisconnect; Serial DisconnectedByUser; Wait 200]
          ++ link_log (stop_done_events env)).
  eapply stepwise_app; [apply handler_rel_stepwise | now apply waiting_rel |].
  eapply stepwise_app; [apply handler_rel_stepwise | apply delivered_rel |].
  eapply stepwise_app; [apply handler_rel_stepwise | | apply delivered_rel].
  apply transition_rel; try reflexivity;
    try (destruct (delivered (stop_wait_events env) s); reflexivity).
  cbn. lia.
Qed.

Lemma after_timeout_rel env s :
  handler_rel s (after_timeout env s)
    (if times_out env s then [Serial ConnectionModeTimeout] else []).
Proof.
  unfold after_timeout. destruct (times_out env s); [|apply handler_rel_stepwise].
  apply transition_rel; try reflexivity; try (destruct s; reflexivity).
  cbn. lia.
Qed.

Lemma latch_rel_handler t s : handler_rel s (set_lastTouchState t s) [].
Proof.
  unfold handler_rel, link_frame. destruct s. repeat split. left. repeat split.
Qed.

(** The link flags after each step. *)
Lemma after_connect_flags env s :
  lastTouchState (after_connect env s) = lastTouchState s /\
  if connect_fires env s
  then btConnected s = false /\ btDiscoverable s = false /\ lastTouchState s = false /\
       touching env = true /\ in_connect_region env = true /\
       btConnected (after_connect env s) = attached_in_connect env /\
       btDiscoverable (after_connect env s) = true /\
       discoverableStartTime (after_connect env s) = u32 (t_press env) /\
       needsFullRedraw (after_connect env s) = true
  else after_connect env s = s.
Proof.
  unfold after_connect, connect_fires, attached_in_connect.
  destruct s as [c d st buf lvl lau lds nfr ll lu af lal lrt lsb lts].
  cbn [btConnected btDiscoverable lastTouchState].
  destruct c, d, (touching env), lts, (in_connect_region env);
    cbn [negb andb]; try (split; reflexivity).
  unfold delivered. cbn. rewrite link_after_app. repeat split; reflexivity.
Qed.

Lemma after_stop_flags env s :
  lastTouchState (after_stop env s) = lastTouchState s /\
  discoverableStartTime (after_stop env s) = discoverableStartTime s /\
  if stop_fires env s
  then btConnected s = true /\ lastTouchState s = false /\
       touching env = true /\ in_stop_region env = true /\
       btConnected (after_stop env s) = attached_in_stop env /\
       btDiscoverable (after_stop env s) = false /\
       needsFullRedraw (after_stop env s) = true
  else after_stop env s = s.
Proof.
  unfold after_stop, stop_fires, attached_in_stop.
  destruct s as [c d st buf lvl lau lds nfr ll lu af lal lrt lsb lts].
  cbn [btConnected btDiscoverable lastTouchState discoverableStartTime].
  destruct c, (touching env), lts, (in_stop_region env);
    cbn [negb andb]; try (repeat split; reflexivity).
Qed.

Lemma after_timeout_flags env s :
  btConnected (after_timeout env s) = btConnected s /\
  lastTouchState (after_timeout env s) = lastTouchState s /\
  discoverableStartTime (after_timeout env s) = discoverableStartTime s /\
  btDiscoverable (after_timeout env s) = (btDiscoverable s && negb (times_out env s)).
Proof.
  unfold after_timeout, times_out. destruct s as [c d st buf lvl lau lds nfr ll lu af lal lrt lsb lts].
  cbn [btConnected btDiscoverable lastTouchState discoverableStartTime].
  destruct d, c; cbn [negb andb]; try (repeat split; reflexivity).
  destruct (_ >? _); repeat split; reflexivity.
Qed.

Lemma existsb_none (P : event -> bool) tr :
  forallb (fun e => negb (P e)) tr = true -> existsb P tr = false.
Proof.
  induction tr as [|e tr IH]; [reflexivity|]. cbn. intros H.
  apply andb_prop in H. destruct H as [He H]. apply negb_true_iff in He.
  rewrite He, IH by assumption. reflexivity.
Qed.

Lemma no_stop_connect env : existsb is_stop (connect_trace env) = false.
Proof.
  apply existsb_none. apply connect_trace_class; reflexivity.
Qed.

(** Lines 490-538 always return.  They begin with the touch poll and log a
    link message for every change of the link flags.  A peer is attached
    afterwards only if it was before or attached while a handler waited;
    after a STOP press, only if it attached again during the handler's
    closing wait. *)
Lemma buttons_spec env s :
  exists s' tr,
    buttons env s = inr (tt, s', Touch (touch_x env) (touch_y env) :: tr) /\
    link_frame s s' tr /\
    forallb is_late tr = true /\
    forallb (fun e => negb (is_audio e)) tr = true /\
    audioBuffer s' = audioBuffer s /\
    audioLevel s' = audioLevel s /\
    lastLevel s' = lastLevel s /\
    lastAudioUpdate s' = lastAudioUpdate s /\
    (btConnected s = false -> attached_in_connect env = false ->
     btConnected s' = false) /\
    (existsb is_stop tr = true -> btConnected s' = attached_in_stop env) /\
    (btConnected s = false -> btDiscoverable s = true ->
     btConnected s' = false /\
     if u32 (u32 (t_timeout env) - discoverableStartTime s) >? DISCOVERABLE_DURATION
     then btDiscoverable s' = false /\ tr = [Serial ConnectionModeTimeout]
     else btDiscoverable s' = true /\
          discoverableStartTime s' = discoverableStartTime s /\ tr = []).
Proof.
  do 2 eexists. split; [apply buttons_eq|].
  set (s1 := after_connect env s).
  set (s2 := after_stop env s1).
  set (s3 := set_lastTouchState (touching env) s2).
  pose proof (after_connect_rel env s) as R1. fold s1 in R1.
  pose proof (after_stop_rel env s1) as R2. fold s2 in R2.
  pose proof (latch_rel_handler (touching env) s2) as R3. fold s3 in R3.
  pose proof (after_timeout_rel env s3) as R4.
  pose proof (stepwise_app _ handler_rel_stepwise _ _ _ _ _ R1
                (stepwise_app _ handler_rel_stepwise _ _ _ _ _ R2
                   (stepwise_app _ handler_rel_stepwise _ _ _ _ _ R3 R4))) as R.
  cbn [app] in R. destruct R as (F & L & N & A & B & C & D).
  destruct (after_connect_flags env s) as (T1 & K1). fold s1 in T1, K1.
  destruct (after_stop_flags env s1) as (T2 & S2 & K2). fold s2 in T2, S2, K2.
  destruct (after_timeout_flags env s3) as (C4 & T4 & S4 & D4).
  assert (C3 : btConnected s3 = btConnected s2) by (unfold s3; destruct s2; reflexivity).
  assert (D3 : btDiscoverable s3 = btDiscoverable s2) by (unfold s3; destruct s2; reflexivity).
  assert (S3 : discoverableStartTime s3 = discoverableStartTime s2)
    by (unfold s3; destruct s2; reflexivity).
  repeat (split; [assumption|]).
  split; [|split].
  - intros Hc Hno. rewrite C4, C3.
    destruct (connect_fires env s).
    + destruct K1 as (_ & _ & _ & _ & _ & Hc1 & _). rewrite Hno in Hc1.
      destruct (stop_fires env s1).
      * destruct K2 as (Hc1' & _). congruence.
      * congruence.
    + rewrite K1 in *. destruct (stop_fires env s).
      * destruct K2 as (Hc1' & _). congruence.
      * congruence.
  - intros Hstop. rewrite C4, C3.
    destruct (stop_fires env s1).
    + destruct K2 as (_ & _ & _ & _ & Hc2 & _). exact Hc2.
    + rewrite !existsb_app in Hstop. cbn [existsb] in Hstop.
      assert (existsb is_stop (if connect_fires env s then connect_trace env else [])
              = false) as E1 by (destruct (connect_fires env s); [apply no_stop_connect | reflexivity]).
      rewrite E1 in Hstop.
      destruct (times_out env s3); discriminate.
  - intros Hc Hd.
    assert (N1 : connect_fires env s = false)
      by (unfold connect_fires; rewrite Hd; cbn; now rewrite andb_false_r).
    rewrite N1 in *. rewrite K1 in *.
    assert (N2 : stop_fires env s = false) by (unfold stop_fires; now rewrite Hc).
    rewrite N2 in *. rewrite K2 in *.
    split; [congruence|].
    assert (E : times_out env s3
                = (u32 (u32 (t_timeout env) - discoverableStartTime s)
                   >? DISCOVERABLE_DURATION))
      by (unfold times_out; rewrite D3, C3, S3, Hc, Hd; reflexivity).
    cbn [app]. rewrite D4, S4, S3, D3, Hd, E.
    destruct (_ >? _); cbn; repeat split; reflexivity.
Qed.

End ButtonFacts.

Section TickFacts.

Local Open Scope m_scope.

Lemma loop_eq env s :
  loop env s =
    bind (updateDisplay env) (fun _ => bind (buttons env) (fun _ => streamAudio env)) s.
Proof.
  unfold loop, buttons, bind.
  destruct (updateDisplay env s) as [e|[[[] s1] t1]]; [reflexivity|].
  destruct (emit _ s1) as [e|[[[] s2] t2]]; [reflexivity|].
  destruct (connectButton _ _ s2) as [e|[[[] s3] t3]]; [reflexivity|].
  destruct (stopButton _ _ s3) as [e|[[[] s4] t4]]; [reflexivity|].
  destruct (modify _ s4) as [e|[[[] s5] t5]]; [reflexivity|].
  destruct (discoverableTimeout _ s5) as [e|[[[] s6] t6]]; [reflexivity|].
  destruct (streamAudio env s6) as [e|[[[] s7] t7]]; [reflexivity|].
  now rewrite <- !app_assoc.
Qed.

(** A tick that returns went through its three parts in order. *)
Lemma loop_inv env s s' tr :
  loop env s = inr (tt, s', tr) ->
  exists s1 t1 s2 t2 t3,
    updateDisplay env s = inr (tt, s1, t1) /\
    buttons env s1 = inr (tt, s2, Touch (touch_x env) (touch_y env) :: t2) /\
    streamAudio env s2 = inr (tt, s', t3) /\
    tr = t1 ++ Touch (touch_x env) (touch_y env) :: t2 ++ t3.
Proof.
  rewrite loop_eq. intros H.
  apply bind_inr in H. destruct H as ([] & s1 & t1 & tr1 & H1 & H & ->).
  apply bind_inr in H. destruct H as ([] & s2 & t2' & t3 & H2 & H3 & ->).
  destruct (buttons_spec env s1) as (s2' & t2 & H2' & _).
  rewrite H2' in H2. injection H2 as <- <-.
  exists s1, t1, s2', t2, t3. repeat split; assumption.
Qed.

(** A tick reaches the streaming part whatever the state and the inputs. *)
Lemma loop_run env s :
  exists s1 t1 s2 t2,
    updateDisplay env s = inr (tt, s1, t1) /\
    buttons env s1 = inr (tt, s2, Touch (touch_x env) (touch_y env) :: t2) /\
    loop env s =
      match streamAudio env s2 with
      | inl e => inl e
      | inr (u, s3, t3) => inr (u, s3, t1 ++ Touch (touch_x env) (touch_y env) :: t2 ++ t3)
      end.
Proof.
  destruct (updateDisplay_spec env s) as (s1 & t1 & H1 & _).
  destruct (buttons_spec env s1) as (s2 & t2 & H2 & _).
  exists s1, t1, s2, t2. split; [assumption|]. split; [assumption|].
  rewrite loop_eq. rewrite (bind_run _ _ _ _ _ _ H1), (bind_run _ _ _ _ _ _ H2).
  destruct (streamAudio env s2) as [e|[[u s3] t3]]; reflexivity.
Qed.





End TickFacts.

Section LevelInvariant.

Local Open Scope m_scope.

Lemma keeps_level_stepwise : stepwise keeps_level.
Proof.
  split; unfold keeps_level.
  - auto.
  - intros s s1 s2 t1 t2 H1 H2 H. auto.
Qed.

Lemma calculateAudioLevel_level length : sat (calculateAudioLevel length) keeps_level.
Proof.
  intros s a s' tr H [_ Hl]. unfold calculateAudioLevel in H.
  apply bind_inr in H. destruct H as (s0 & s1 & t1 & t2 & H1 & H & _).
  injection H1 as <- <- _.
  apply bind_inr in H. destruct H as (level & s1 & t1' & t2' & H1 & H & _).
  unfold lift in H1.
  destruct (Level.calculateAudioLevel (audioBuffer s) length (lastLevel s))
    as [e|v] eqn:Hv; [discriminate|].
  injection H1 as <- <- _.
  unfold bind, modify in H. injection H as _ <- _.
  unfold Level.calculateAudioLevel in Hv.
  destruct (Level.rawLevel (audioBuffer s) length) as [e|mapped] eqn:Hm;
    [discriminate|]. cbn [rbind] in Hv.
  apply rawLevel_range in Hm. rewrite smooth_ok in Hv by assumption.
  injection Hv as <-.
  pose proof (blend_range mapped (lastLevel s) Hm Hl).
  destruct s; split; assumption.
Qed.

Ltac level_step :=
  first
    [ apply calculateAudioLevel_level
    | apply sat_bind; [apply keeps_level_stepwise | | intros ? ]
    | apply sat_when; [apply keeps_level_stepwise | ]
    | apply sat_get; apply keeps_level_stepwise
    | apply sat_ret; apply keeps_level_stepwise
    | apply sat_raise
    | apply sat_lift; apply keeps_level_stepwise
    | apply sat_emit; unfold keeps_level; solve [auto]
    | apply sat_modify; unfold keeps_level, level_ok; intros s; destruct s;
      solve [auto] ].

Lemma btCallback_level ev : sat (btCallback ev) keeps_level.
Proof. destruct ev; cbn [btCallback]; repeat level_step. Qed.

Lemma callbacks_level evs : sat (callbacks evs) keeps_level.
Proof.
  induction evs as [|ev evs IH]; cbn [callbacks].
  - level_step.
  - level_step; [apply btCallback_level | exact IH].
Qed.

Lemma transmit_level : forall script bytesRead totalWritten,
  sat (transmit script bytesRead totalWritten) keeps_level.
Proof.
  induction script as [|[accepted evs] rest IH]; intros bytesRead totalWritten;
    cbn [transmit].
  - repeat level_step. destruct (_ && _); level_step.
  - repeat level_step. destruct (_ && _); [|level_step].
    unfold delay. repeat level_step; [apply callbacks_level | apply IH].
Qed.

Lemma streamAudio_level env : sat (streamAudio env) keeps_level.
Proof.
  unfold streamAudio, i2s_read, sendBlock, delay.
  repeat level_step. destruct (btConnected _); [|level_step].
  repeat level_step; [apply callbacks_level|].
  match goal with |- sat (let '(_, _) := ?r in _) _ => destruct r as [ok bytesRead] end.
  repeat level_step. apply transmit_level.
Qed.

Lemma exec_level st : sat (exec st) keeps_level.
Proof.
  destruct st as [env|ev]; cbn [exec].
  - intros s a s' tr H [Ha Hl]. destruct a. apply loop_inv in H.
    destruct H as (s1 & t1 & s2 & t2 & t3 & H1 & H2 & H3 & _).
    destruct (updateDisplay_spec env s) as (s1' & t1' & H1' & F1 & _).
    rewrite H1 in H1'. injection H1' as <- <-.
    destruct F1 as (_ & _ & _ & _ & A1 & _ & L1 & _).
    destruct (buttons_spec env s1) as (s2' & t2' & H2' & _ & _ & _ & _ & A2 & L2 & _).
    rewrite H2 in H2'. injection H2' as <- <-.
    apply (streamAudio_level env _ _ _ _ H3).
    split; congruence.
  - apply btCallback_level.
Qed.

(** Over any run of ticks and link callbacks that starts from a state with
    the displayed level and the smoothing state in [0,100], as the boot
    state has them, both stay there. *)
Lemma run_level : forall steps, sat (run steps) keeps_level.
Proof.
  induction steps as [|st steps IH]; cbn [run].
  - apply sat_ret, keeps_level_stepwise.
  - apply sat_bind; [apply keeps_level_stepwise | apply exec_level | intros _; exact IH].
Qed.

Lemma ready_level : level_ok ready.
Proof. vm_compute. repeat split; discriminate. Qed.

End LevelInvariant.

Section Ordering.

Lemma class_no (C P : event -> bool) tr :
  (forall e, C e = true -> P e = false) -> forallb C tr = true ->
  forallb (fun e => negb (P e)) tr = true.
Proof.
  intros HCP. apply forallb_weaken. intros e He. now rewrite (HCP e He).
Qed.

Lemma no_stop_in tr :
  forallb (fun e => negb (is_stop e)) tr = true -> existsb is_stop tr = false.
Proof.
  induction tr as [|e tr IH]; [reflexivity|]. cbn. intros H.
  apply andb_prop in H. destruct H as [He H]. apply negb_true_iff in He.
  rewrite He, IH by assumption. reflexivity.
Qed.

Ltac by_event :=
  let e := fresh "e" in
  intros e; destruct e as [d| |b|x y|m|ms| | |n|o w|on|c| ]; try destruct m;
  cbn; intros; congruence.

Ltac absent :=
  match goal with
  | |- forallb _ (_ ++ _) = true =>
      rewrite forallb_app; apply andb_true_intro; split; absent
  | |- forallb _ (_ :: _) = true =>
      cbn [forallb]; apply andb_true_intro; split; [reflexivity | absent]
  | |- forallb _ [] = true => reflexivity
  | |- true = true => reflexivity
  | H : forallb ?C ?t = true |- forallb (fun e => negb (?P e)) ?t = true =>
      first [ exact H | apply (class_no C P); [ by_event | exact H ] ]
  end.

(** C2 (amended): in every tick the display is rendered first, then the
    touch input is read, then loop's transitions (buttons, timeout) are
    taken, then audio is read and sent.  So a STOP press takes effect before
    the next audio block is transmitted: its teardown comes before every
    audio read or send of the tick, and the tick has one only if a peer
    attached again while the handler waited after the teardown. *)
Theorem C2_tick_order env s s' tr :
  loop env s = inr (tt, s', tr) ->
  loop_order tr = true /\
  before is_render is_audio tr = true /\
  before is_teardown is_audio tr = true /\
  (existsb is_stop tr = true -> existsb is_audio tr = true ->
   attached_in_stop env = true).
Proof.
  intros H. apply loop_inv in H.
  destruct H as (s1 & t1 & s2 & t2 & t3 & H1 & H2 & H3 & ->).
  destruct (updateDisplay_spec env s) as (s1' & t1' & H1' & F1 & _).
  rewrite H1 in H1'. injection H1' as <- <-.
  destruct (buttons_spec env s1)
    as (s2' & t2' & H2' & _ & Late & NoAudio & _ & _ & _ & _ & _ & Stop & _).
  rewrite H2 in H2'. injection H2' as <- <-.
  pose proof (streamAudio_stream env _ _ _ _ H3) as (_ & Str & _).
  pose proof (streamAudio_latch env _ _ _ _ H3) as (_ & Act).
  assert (R1 : forallb is_render t1 = true) by (destruct F1; tauto).
  clear F1 H1 H2.
  split; [unfold loop_order; repeat (apply andb_true_intro; split)|split; [|split]].
  - (* render before touch *)
    apply before_app; [apply before_no_Q | apply before_no_P | left]; absent.
  - (* touch before transitions *)
    change (t1 ++ ?x :: t2 ++ t3) with (t1 ++ [x] ++ t2 ++ t3).
    rewrite app_assoc.
    apply before_app; [apply before_no_Q | apply before_no_P | left]; absent.
  - (* transitions before audio *)
    change (t1 ++ ?x :: t2 ++ t3) with (t1 ++ (x :: t2) ++ t3).
    rewrite app_assoc.
    apply before_app; [apply before_no_Q | apply before_no_P | left]; absent.
  - (* render before audio *)
    apply before_app; [apply before_no_Q | apply before_no_P | left]; absent.
  - (* the teardown before audio *)
    change (t1 ++ ?x :: t2 ++ t3) with (t1 ++ (x :: t2) ++ t3).
    rewrite app_assoc.
    apply before_app; [apply before_no_Q | apply before_no_P | left]; absent.
  - (* audio after a STOP press *)
    intros Hstop Haudio.
    change (t1 ++ ?x :: t2 ++ t3) with (t1 ++ [x] ++ t2 ++ t3) in Hstop.
    rewrite !existsb_app in Hstop.
    rewrite (no_stop_in t1) in Hstop by absent.
    rewrite (no_stop_in t3) in Hstop by absent.
    cbn in Hstop. rewrite orb_false_r in Hstop.
    specialize (Stop Hstop).
    destruct (attached_in_stop env); [reflexivity|].
    rewrite (streamAudio_idle env s2 Stop) in H3. injection H3 as <- <-.
    rewrite existsb_none in Haudio; [discriminate|]. absent.
Qed.

Lemma C2_tick_order_witness :
  loop (stop_reattach 1000) streaming
    = inr (tt, state_after (loop (stop_reattach 1000)) streaming,
           trace_of (loop (stop_reattach 1000)) streaming) /\
  loop_order (trace_of (loop (stop_reattach 1000)) streaming) = true /\
  before is_render is_audio (trace_of (loop (stop_reattach 1000)) streaming) = true /\
  before is_teardown is_audio (trace_of (loop (stop_reattach 1000)) streaming) = true /\
  existsb is_stop (trace_of (loop (stop_reattach 1000)) streaming) = true /\
  existsb is_audio (trace_of (loop (stop_reattach 1000)) streaming) = true /\
  attached_in_stop (stop_reattach 1000) = true.
Proof.
  assert (H : loop (stop_reattach 1000) streaming
              = inr (tt, state_after (loop (stop_reattach 1000)) streaming,
                     trace_of (loop (stop_reattach 1000)) streaming))
    by (vm_compute; reflexivity).
  assert (Hs : existsb is_stop (trace_of (loop (stop_reattach 1000)) streaming) = true)
    by (vm_compute; reflexivity).
  assert (Ha : existsb is_audio (trace_of (loop (stop_reattach 1000)) streaming) = true)
    by (vm_compute; reflexivity).
  destruct (C2_tick_order _ _ _ _ H) as (O & R & T & A).
  exact (conj H (conj O (conj R (conj T (conj Hs (conj Ha (A Hs Ha))))))).
Defined.

(** C2, as stated, fails: in a tick that renders the streaming screen and
    then reads a STOP press, the drawing comes before the touch poll and
    before the transition, and the screen drawn in that tick is the
    streaming one although the tick ends idle. *)
Lemma C2_render_first_counterexample :
  trace_of (loop (press 250 200 1000)) streaming =
    [Lcd FillScreen; Lcd StatusBar; Lcd StaticStreaming; Lcd VisualizerInit;
     Lcd (Visualizer 0); Lcd (LevelBar 0); Touch 250 200; Feedback STOP; Wait 100;
     BtDisconnect; Serial DisconnectedByUser; Wait 200; Wait 100] /\
  spec_order (trace_of (loop (press 250 200 1000)) streaming) = false /\
  connection (state_after (loop (press 250 200 1000)) streaming) = Idle /\
  lastDisplayState (state_after (loop (press 250 200 1000)) streaming) = 2.
Proof.
  split; [vm_compute; reflexivity|].
  split; [vm_compute; reflexivity|].
  split; vm_compute; reflexivity.
Qed.

End Ordering.

Section RedrawPolicy.








End RedrawPolicy.

Section Discoverable.

(** A tick of the discoverable, unattached device: it always returns, stays
    unattached, and leaves the discoverable state exactly when the time read
    at the timeout test is past the window. *)
Lemma tick_discoverable env s :
  btConnected s = false -> btDiscoverable s = true ->
  exists s' tr,
    loop env s = inr (tt, s', tr) /\
    btConnected s' = false /\
    (if u32 (u32 (t_timeout env) - discoverableStartTime s) >? DISCOVERABLE_DURATION
     then btDiscoverable s' = false /\ In (Serial ConnectionModeTimeout) tr
     else btDiscoverable s' = true /\
          discoverableStartTime s' = discoverableStartTime s) /\
    ((u32 (u32 (t_now env) - lastUpdate s) >? 50) = true ->
     lastRemainingTime s' =
       remainingSeconds (u32 (t_countdown env)) (discoverableStartTime s) /\
     (lastRemainingTime s' = (if pending s then 999 else lastRemainingTime s) \/
      In (Lcd (Countdown (lastRemainingTime s'))) tr)).
Proof.
  intros Hc Hd.
  destruct (loop_run env s) as (s1 & t1 & s2 & t2 & H1 & H2 & Hloop).
  destruct (updateDisplay_spec env s) as (s1' & t1' & H1' & F1 & _ & _ & _ & Hcount).
  rewrite H1 in H1'. injection H1' as <- <-.
  destruct F1 as (A1 & B1 & S1 & _).
  destruct (buttons_spec env s1)
    as (s2' & t2' & H2' & F2 & _ & _ & _ & _ & _ & _ & _ & _ & Tmo).
  rewrite H2 in H2'. injection H2' as <- <-.
  specialize (Tmo ltac:(congruence) ltac:(congruence)). rewrite S1 in Tmo.
  destruct Tmo as [Hc2 Tmo].
  rewrite (streamAudio_idle env s2 Hc2) in Hloop.
  do 2 eexists. split; [exact Hloop|]. split; [exact Hc2|].
  split.
  - revert Tmo.
    destruct (u32 (u32 (t_timeout env) - discoverableStartTime s) >? DISCOVERABLE_DURATION);
      intros Tmo.
    + destruct Tmo as [Hb ->]. split; [exact Hb|].
      rewrite in_app_iff. right. cbn. tauto.
    + destruct Tmo as (Hb & Hst & _). split; congruence.
  - intros Hdue. destruct (Hcount Hc Hd Hdue) as [Hrem Hshown].
    destruct F2 as (_ & T2 & _). rewrite T2.
    split; [exact Hrem|].
    destruct Hshown as [Hsame|Hin]; [left; exact Hsame|right].
    rewrite in_app_iff. left. exact Hin.
Qed.

(** C8: the discoverable, unattached device stays discoverable through every
    tick that reads a time within the 60-second window, and the first tick
    that reads a time past it returns the device to idle. *)
Theorem C8_discoverable_times_out : forall envs env s,
  btConnected s = false -> btDiscoverable s = true ->
  Forall (fun e => u32 (u32 (t_timeout e) - discoverableStartTime s)
                   <= DISCOVERABLE_DURATION) envs ->
  DISCOVERABLE_DURATION < u32 (u32 (t_timeout env) - discoverableStartTime s) ->
  exists s1 tr1 s2 tr2,
    run (List.map Tick envs) s = inr (tt, s1, tr1) /\
    connection s1 = Discoverable /\
    discoverableStartTime s1 = discoverableStartTime s /\
    loop env s1 = inr (tt, s2, tr2) /\
    connection s2 = Idle /\
    In (Serial ConnectionModeTimeout) tr2.
Proof.
  induction envs as [|e envs IH]; intros env s Hc Hd Hin Hout.
  - destruct (tick_discoverable env s Hc Hd) as (s2 & tr2 & Hloop & Hc2 & Ht & _).
    destruct (Z.gtb_spec (u32 (u32 (t_timeout env) - discoverableStartTime s))
                DISCOVERABLE_DURATION) as [_|Hle]; [|lia].
    destruct Ht as [Hd2 Hmsg].
    exists s, [], s2, tr2. cbn [List.map run].
    repeat split; try assumption.
    + unfold connection. now rewrite Hc, Hd.
    + unfold connection. now rewrite Hc2, Hd2.
  - inversion Hin as [|e' envs' He Hrest]; subst.
    destruct (tick_discoverable e s Hc Hd) as (s1 & tr1 & Hloop & Hc1 & Ht & _).
    destruct (Z.gtb_spec (u32 (u32 (t_timeout e) - discoverableStartTime s))
                DISCOVERABLE_DURATION) as [Hgt|_]; [lia|].
    destruct Ht as [Hd1 Hst].
    rewrite <- Hst in Hrest, Hout.
    destruct (IH env s1 Hc1 Hd1 Hrest Hout)
      as (s1' & tr1' & s2 & tr2 & Hrun & Hconn & Hst' & Hl & Hidle & Hmsg).
    exists s1', (tr1 ++ tr1'), s2, tr2. cbn [List.map run exec].
    rewrite (bind_run _ _ _ _ _ _ Hloop), Hrun.
    repeat split; try assumption. congruence.
Qed.

Lemma C8_discoverable_times_out_witness :
  exists s1 tr1 s2 tr2,
    run (List.map Tick [quiet 30000; quiet 61000]) searching = inr (tt, s1, tr1) /\
    connection s1 = Discoverable /\
    discoverableStartTime s1 = discoverableStartTime searching /\
    loop (quiet 61001) s1 = inr (tt, s2, tr2) /\
    connection s2 = Idle /\
    In (Serial ConnectionModeTimeout) tr2.
Proof.
  apply (C8_discoverable_times_out [quiet 30000; quiet 61000] (quiet 61001) searching).
  - vm_compute; reflexivity.
  - vm_compute; reflexivity.
  - repeat apply Forall_cons; try apply Forall_nil; vm_compute; discriminate.
  - vm_compute; reflexivity.
Defined.

Lemma wrapped_countdown elapsed :
  DISCOVERABLE_DURATION < elapsed < 2 ^ 32 ->
  u32 (DISCOVERABLE_DURATION - elapsed)
  = 2 ^ 32 - (elapsed - DISCOVERABLE_DURATION).
Proof.
  intros H. unfold u32, DISCOVERABLE_DURATION in *.
  rewrite <- (Z_mod_plus_full (60000 - elapsed) 1 (2 ^ 32)).
  rewrite Z.mod_small; lia.
Qed.

(** Inside the window the countdown does not wrap. *)
Lemma countdown_in_window now start :
  u32 (now - start) <= DISCOVERABLE_DURATION ->
  remainingSeconds now start = (DISCOVERABLE_DURATION - u32 (now - start)) / 1000 /\
  0 <= remainingSeconds now start <= 60.
Proof.
  intros H. unfold remainingSeconds.
  assert (H0 : 0 <= u32 (now - start)) by (unfold u32; apply Z.mod_pos_bound; lia).
  unfold DISCOVERABLE_DURATION in *.
  assert (Hs : u32 (60000 - u32 (now - start)) = 60000 - u32 (now - start)).
  { unfold u32 at 1. apply Z.mod_small. lia. }
  rewrite Hs. split; [reflexivity|]. split.
  - apply Z.div_pos; lia.
  - apply Z.div_le_upper_bound; lia.
Qed.

Lemma u32_range z : 0 <= u32 z < 2 ^ 32.
Proof. unfold u32. apply Z.mod_pos_bound. lia. Qed.

(** C10: when the searching screen refreshes its countdown at an elapsed
    time past 60000 ms, the value it shows is
    ((60000 - elapsed) mod 2^32) / 1000, which is
    (2^32 - (elapsed - 60000)) / 1000 and never 0; the timeout test comes
    later in the same tick and only then returns the device to idle. *)
Theorem C10_countdown_wraps env s :
  btConnected s = false -> btDiscoverable s = true ->
  (u32 (u32 (t_now env) - lastUpdate s) >? 50) = true ->
  DISCOVERABLE_DURATION < u32 (u32 (t_countdown env) - discoverableStartTime s) ->
  DISCOVERABLE_DURATION < u32 (u32 (t_timeout env) - discoverableStartTime s) ->
  exists s' tr,
    loop env s = inr (tt, s', tr) /\
    connection s' = Idle /\
    lastRemainingTime s'
    = ((DISCOVERABLE_DURATION - u32 (u32 (t_countdown env) - discoverableStartTime s))
       mod 2 ^ 32) / 1000 /\
    lastRemainingTime s'
    = (2 ^ 32 - (u32 (u32 (t_countdown env) - discoverableStartTime s)
                 - DISCOVERABLE_DURATION)) / 1000 /\
    60 <= lastRemainingTime s' /\
    2 ^ 32 - 1000 - (u32 (u32 (t_countdown env) - discoverableStartTime s)
                     - DISCOVERABLE_DURATION) < 1000 * lastRemainingTime s' /\
    (In (Lcd (Countdown (lastRemainingTime s'))) tr \/
     lastRemainingTime s' = (if pending s then 999 else lastRemainingTime s)).
Proof.
  intros Hc Hd Hdue Hcount Htime.
  destruct (tick_discoverable env s Hc Hd) as (s' & tr & Hloop & Hc' & Ht & Hrem).
  destruct (Z.gtb_spec (u32 (u32 (t_timeout env) - discoverableStartTime s))
              DISCOVERABLE_DURATION) as [_|Hle]; [|lia].
  destruct Ht as [Hd' _]. destruct (Hrem Hdue) as [Hval Hshown].
  exists s', tr. split; [exact Hloop|].
  split; [unfold connection; now rewrite Hc', Hd'|].
  unfold remainingSeconds in Hval.
  set (elapsed := u32 (u32 (t_countdown env) - discoverableStartTime s)) in *.
  pose proof (u32_range (u32 (t_countdown env) - discoverableStartTime s)) as Hr.
  fold elapsed in Hr.
  assert (Hw : u32 (DISCOVERABLE_DURATION - elapsed)
               = 2 ^ 32 - (elapsed - DISCOVERABLE_DURATION))
    by (apply wrapped_countdown; lia).
  split; [exact Hval|].
  rewrite Hw in Hval. split; [exact Hval|].
  rewrite Hval. unfold DISCOVERABLE_DURATION in *.
  pose proof (Z.div_mod (2 ^ 32 - (elapsed - 60000)) 1000 ltac:(lia)) as Hdm.
  pose proof (Z.mod_pos_bound (2 ^ 32 - (elapsed - 60000)) 1000 ltac:(lia)) as Hmb.
  split; [lia|]. split; [lia|].
  rewrite <- Hval. tauto.
Qed.

Lemma C10_countdown_wraps_witness :
  exists s' tr,
    loop (quiet 61301) searching = inr (tt, s', tr) /\
    connection s' = Idle /\
    lastRemainingTime s' = 4294966 /\
    In (Lcd (Countdown 4294966)) tr.
Proof.
  destruct (C10_countdown_wraps (quiet 61301) searching)
    as (s' & tr & Hloop & Hidle & Hval & _ & _ & _ & Hshown);
    try (vm_compute; reflexivity).
  exists s', tr. split; [exact Hloop|]. split; [exact Hidle|].
  assert (Hv : lastRemainingTime s' = 4294966) by (rewrite Hval; vm_compute; reflexivity).
  split; [exact Hv|].
  rewrite Hv in Hshown. destruct Hshown as [Hin|Habs]; [exact Hin|].
  vm_compute in Habs. discriminate.
Defined.

End Discoverable.

Section Transmit.

Lemma btCallback_link ev s :
  exists s' tr,
    btCallback ev s = inr (tt, s', tr) /\
    btConnected s' = link_after [ev] (btConnected s).
Proof. destruct ev; do 2 eexists; split; reflexivity. Qed.

Lemma callbacks_link : forall evs s,
  exists s' tr,
    callbacks evs s = inr (tt, s', tr) /\
    btConnected s' = link_after evs (btConnected s).
Proof.
  induction evs as [|ev evs IH]; intros s; cbn [callbacks].
  - exists s, []. split; reflexivity.
  - destruct (btCallback_link ev s) as (s1 & t1 & H1 & L1).
    destruct (IH s1) as (s2 & t2 & H2 & L2).
    exists s2, (t1 ++ t2). rewrite (bind_run _ _ _ _ _ _ H1), H2.
    split; [reflexivity|]. rewrite L2, L1. reflexivity.
Qed.

Lemma transmit_exit script bytesRead totalWritten s :
  (totalWritten <? bytesRead) && btConnected s = false ->
  transmit script bytesRead totalWritten s = inr (totalWritten, s, []).
Proof.
  intros H. destruct script as [|[w evs] rest]; cbn [transmit];
    unfold bind, get; rewrite H; reflexivity.
Qed.

Lemma transmit_write w evs rest bytesRead totalWritten s s1 t1 :
  totalWritten < bytesRead -> btConnected s = true ->
  callbacks evs s = inr (tt, s1, t1) ->
  transmit ((w, evs) :: rest) bytesRead totalWritten s =
    match transmit rest bytesRead
            (if u32 w >? 0 then u32 (totalWritten + u32 w) else totalWritten) s1 with
    | inl e => inl e
    | inr (r, s2, t2) =>
        inr (r, s2,
             BtWrite (u32 (bytesRead - totalWritten)) (u32 w)
               :: (if u32 w >? 0 then [] else [Wait 1]) ++ t1 ++ t2)
    end.
Proof.
  intros Hlt Hc Hcb. cbn [transmit]. unfold bind at 1. unfold get.
  apply Z.ltb_lt in Hlt. rewrite Hlt, Hc. cbn [andb].
  destruct (u32 w >? 0);
    cbv beta iota delta [bind emit when delay ret negb]; rewrite Hcb;
    destruct (transmit rest _ _ s1) as [e|[[r s2] t2]]; reflexivity.
Qed.

Lemma u32_small z : 0 <= z < 2 ^ 32 -> u32 z = z.
Proof. intros H. unfold u32. now apply Z.mod_small. Qed.

(** Against a transport that stays connected and drains the block, the
    loop returns with every byte written. *)
Lemma transmit_drains bytesRead script remaining :
  drains script remaining ->
  forall s totalWritten,
    btConnected s = true -> 0 <= totalWritten ->
    totalWritten + remaining = bytesRead -> bytesRead < 2 ^ 32 ->
    exists s' tr,
      transmit script bytesRead totalWritten s = inr (bytesRead, s', tr) /\
      btConnected s' = true.
Proof.
  induction 1 as [script | w evs rest remaining Hw Hlink _ IH
                         | evs rest remaining Hpos Hlink _ IH];
    intros s totalWritten Hc Htot Hsum Hmax.
  - exists s, []. rewrite transmit_exit.
    + split; [f_equal; f_equal; f_equal; lia | exact Hc].
    + replace (totalWritten <? bytesRead) with false; [reflexivity|].
      symmetry. apply Z.ltb_ge. lia.
  - destruct (callbacks_link evs s) as (s1 & t1 & Hcb & L1).
    rewrite Hc, Hlink in L1.
    rewrite (transmit_write w evs rest bytesRead totalWritten s s1 t1 ltac:(lia) Hc Hcb).
    rewrite (u32_small w) by lia.
    replace (w >? 0) with true by (symmetry; apply Z.gtb_lt; lia).
    rewrite (u32_small (totalWritten + w)) by lia.
    destruct (IH s1 (totalWritten + w) L1 ltac:(lia) ltac:(lia) Hmax)
      as (s' & tr & Hrun & Hc').
    rewrite Hrun. do 2 eexists. split; [reflexivity | exact Hc'].
  - destruct (callbacks_link evs s) as (s1 & t1 & Hcb & L1).
    rewrite Hc, Hlink in L1.
    rewrite (transmit_write 0 evs rest bytesRead totalWritten s s1 t1 ltac:(lia) Hc Hcb).
    change (u32 0 >? 0) with false. cbv iota.
    destruct (IH s1 totalWritten L1 Htot Hsum Hmax) as (s' & tr & Hrun & Hc').
    rewrite Hrun. do 2 eexists. split; [reflexivity | exact Hc'].
Qed.

(** Against a transport that goes down with part of the block unsent, the
    loop returns with a short count and the link flag down. *)
Lemma transmit_drops bytesRead script remaining :
  drops script remaining ->
  forall s totalWritten,
    btConnected s = true -> 0 <= totalWritten ->
    totalWritten + remaining = bytesRead -> bytesRead < 2 ^ 32 ->
    exists total s' tr,
      transmit script bytesRead totalWritten s = inr (total, s', tr) /\
      totalWritten <= total < bytesRead /\
      btConnected s' = false.
Proof.
  induction 1 as [w evs rest remaining Hw Hlink
                 | w evs rest remaining Hw Hlink _ IH];
    intros s totalWritten Hc Htot Hsum Hmax.
  - destruct (callbacks_link evs s) as (s1 & t1 & Hcb & L1).
    rewrite Hc, Hlink in L1.
    rewrite (transmit_write w evs rest bytesRead totalWritten s s1 t1 ltac:(lia) Hc Hcb).
    rewrite (u32_small w) by lia.
    rewrite transmit_exit by (rewrite L1; apply andb_false_r).
    do 3 eexists. split; [reflexivity|]. split; [|exact L1].
    destruct (Z.gtb_spec w 0); [rewrite u32_small by lia|]; lia.
  - destruct (callbacks_link evs s) as (s1 & t1 & Hcb & L1).
    rewrite Hc, Hlink in L1.
    rewrite (transmit_write w evs rest bytesRead totalWritten s s1 t1 ltac:(lia) Hc Hcb).
    rewrite (u32_small w) by lia.
    assert (Hnext : (if w >? 0 then u32 (totalWritten + w) else totalWritten)
                    = totalWritten + w).
    { destruct (Z.gtb_spec w 0); [rewrite u32_small by lia|]; lia. }
    rewrite Hnext.
    destruct (IH s1 (totalWritten + w) L1 ltac:(lia) ltac:(lia) Hmax)
      as (total & s' & tr & Hrun & Hrange & Hc').
    rewrite Hrun. do 3 eexists. split; [reflexivity|]. split; [lia | exact Hc'].
Qed.

Lemma only_stepwise P : stepwise (only P).
Proof.
  split; unfold only.
  - reflexivity.
  - intros _ _ _ t1 t2 H1 H2. now rewrite forallb_app, H1, H2.
Qed.

Lemma callbacks_quiet evs : sat (callbacks evs) (only (fun e => negb (is_warning e))).
Proof.
  induction evs as [|ev evs IH]; cbn [callbacks].
  - apply sat_ret, only_stepwise.
  - apply sat_bind; [apply only_stepwise | | intros _; exact IH].
    intros s a s' tr H. destruct ev; injection H as _ _ <-; reflexivity.
Qed.

Lemma transmit_quiet : forall script bytesRead totalWritten,
  sat (transmit script bytesRead totalWritten) (only (fun e => negb (is_warning e))).
Proof.
  induction script as [|[w evs] rest IH]; intros bytesRead totalWritten s r s' tr H.
  - cbn [transmit] in H. unfold bind, get, raise, ret in H.
    destruct (_ && _); [discriminate|]. injection H as _ _ <-. reflexivity.
  - destruct ((totalWritten <? bytesRead) && btConnected s) eqn:Hcond.
    + apply andb_prop in Hcond. destruct Hcond as [Hlt Hc].
      apply Z.ltb_lt in Hlt.
      destruct (callbacks_link evs s) as (s1 & t1 & Hcb & _).
      rewrite (transmit_write w evs rest bytesRead totalWritten s s1 t1 Hlt Hc Hcb) in H.
      destruct (transmit rest _ _ s1) as [e|[[r' s2] t2]] eqn:Hrest; [discriminate|].
      injection H as _ _ <-.
      apply IH in Hrest. apply callbacks_quiet in Hcb. unfold only in *.
      cbn [forallb is_warning negb andb]. rewrite forallb_app, forallb_app, Hcb, Hrest.
      destruct (u32 w >? 0); reflexivity.
    + rewrite transmit_exit in H by exact Hcond. injection H as _ _ <-. reflexivity.
Qed.

(** C3: for a block of N bytes, against a transport that stays connected
    and takes the bytes in positive chunks across retries the transmit loop
    returns N and logs no warning; against a transport that goes down after
    taking only part of the block it returns a total below N, logs the
    partial write and returns normally. *)
Theorem C3_transmit_outcomes script N s :
  btConnected s = true -> 0 < N < 2 ^ 32 ->
  (drains script N ->
   exists s' tr,
     sendBlock script N s = inr (N, s', tr) /\
     btConnected s' = true /\
     forallb (fun e => negb (is_warning e)) tr = true) /\
  (drops script N ->
   exists total s' tr,
     sendBlock script N s = inr (total, s', tr) /\
     0 <= total < N /\
     btConnected s' = false /\
     In (Serial (PartialWrite total N)) tr).
Proof.
  intros Hc HN. split; intros Hscript.
  - destruct (transmit_drains N script N Hscript s 0 Hc ltac:(lia) ltac:(lia) ltac:(lia))
      as (s' & tr & Hrun & Hc').
    exists s', (tr ++ []). unfold sendBlock.
    rewrite (bind_run _ _ _ _ _ _ Hrun). rewrite Z.eqb_refl. cbn.
    split; [reflexivity|]. split; [exact Hc'|].
    rewrite app_nil_r. exact (transmit_quiet _ _ _ _ _ _ _ Hrun).
  - destruct (transmit_drops N script N Hscript s 0 Hc ltac:(lia) ltac:(lia) ltac:(lia))
      as (total & s' & tr & Hrun & Hrange & Hc').
    exists total, s', (tr ++ [Serial (PartialWrite total N)]). unfold sendBlock.
    rewrite (bind_run _ _ _ _ _ _ Hrun).
    replace (total =? N) with false by (symmetry; apply Z.eqb_neq; lia). cbn.
    split; [reflexivity|]. split; [lia|]. split; [exact Hc'|].
    rewrite in_app_iff. right. left. reflexivity.
Qed.

Lemma C3_transmit_outcomes_witness :
  (exists s' tr,
     sendBlock [(1, []); (0, []); (500, []); (1547, [])] 2048 streaming
       = inr (2048, s', tr) /\
     btConnected s' = true /\
     forallb (fun e => negb (is_warning e)) tr = true) /\
  (exists total s' tr,
     sendBlock [(1, []); (500, [ESP_SPP_CLOSE_EVT]); (1547, [])] 2048 streaming
       = inr (total, s', tr) /\
     0 <= total < 2048 /\
     btConnected s' = false /\
     In (Serial (PartialWrite total 2048)) tr).
Proof.
  assert (Hc : btConnected streaming = true) by (vm_compute; reflexivity).
  assert (HN : 0 < 2048 < 2 ^ 32) by lia.
  split.
  - apply (proj1 (C3_transmit_outcomes _ 2048 streaming Hc HN)).
    apply drains_chunk; [lia | reflexivity |].
    apply drains_retry; [lia | reflexivity |].
    apply drains_chunk; [lia | reflexivity |].
    apply drains_chunk; [lia | reflexivity |].
    change (2048 - 1 - 500 - 1547) with 0. apply drains_done.
  - apply (proj2 (C3_transmit_outcomes _ 2048 streaming Hc HN)).
    apply drops_later; [lia | reflexivity |].
    apply drops_here; [lia | reflexivity].
Defined.

(** A whole tick in which the link goes down after 501 of 2048 bytes: the
    tick returns, the warning is logged and the device is idle. *)
Example partial_delivery_tick :
  loop (capture 1000 tone138 [(1, []); (500, [ESP_SPP_CLOSE_EVT]); (1547, [])]) streaming
  = inr (tt,
         state_after
           (loop (capture 1000 tone138 [(1, []); (500, [ESP_SPP_CLOSE_EVT]); (1547, [])]))
           streaming,
         [Lcd FillScreen; Lcd StatusBar; Lcd StaticStreaming; Lcd VisualizerInit;
          Lcd (Visualizer 0); Lcd (LevelBar 0); Touch (-1) (-1); I2sRead 2048;
          BtWrite 2048 1; BtWrite 2047 500; Serial ClientDisconnected;
          Serial (PartialWrite 501 2048)]) /\
  connection
    (state_after
       (loop (capture 1000 tone138 [(1, []); (500, [ESP_SPP_CLOSE_EVT]); (1547, [])]))
       streaming) = Idle.
Proof. split; vm_compute; reflexivity. Qed.

End Transmit.

Section Defects.

Lemma detach_state s :
  connection (state_after (btCallback ESP_SPP_CLOSE_EVT) s)
  = if btDiscoverable s then Discoverable else Idle.
Proof. destruct s. reflexivity. Qed.

(** C1 (the code departs from it): a detach callback only clears the link
    flag.  After a CONNECT press and an attach the discoverable flag is
    still up, so the detach leaves the device discoverable, not idle; the
    STOP button clears both flags. *)
Theorem C1_detach_leaves_discoverable :
  connection paired = Streaming /\
  connection (state_after (btCallback ESP_SPP_CLOSE_EVT) paired) = Discoverable /\
  connection (state_after (loop (press 250 200 2000)) paired) = Idle.
Proof.
  split; [vm_compute; reflexivity|]. split; vm_compute; reflexivity.
Qed.

(** The guard [bytesRead > 0] alone would let a one-byte block through:
    its sample count is 0 and the mean divides by zero. *)
Lemma one_byte_block buffer lastLevel :
  Level.calculateAudioLevel buffer 1 lastLevel = inl DivideByZero.
Proof. reflexivity. Qed.

End Defects.

Section LevelThresholds.

Import Level.

Lemma sum_abs_within k l :
  Forall (fun x => Z.abs x <= k) l -> sum_abs l <= k * Z.of_nat (List.length l).
Proof.
  induction 1 as [|x l Hx _ IH]; cbn [sum_abs fold_right List.length].
  - lia.
  - fold (sum_abs l). lia.
Qed.

Lemma sum_abs_beyond k l :
  Forall (fun x => k <= Z.abs x) l -> k * Z.of_nat (List.length l) <= sum_abs l.
Proof.
  induction 1 as [|x l Hx _ IH]; cbn [sum_abs fold_right List.length].
  - lia.
  - fold (sum_abs l). lia.
Qed.

Lemma spec_peak_within k l :
  0 <= k -> Forall (fun x => Z.abs x <= k) l -> spec_peak l <= k.
Proof.
  intros Hk. induction 1 as [|x l Hx _ IH]; cbn [spec_peak fold_right].
  - exact Hk.
  - fold (spec_peak l). lia.
Qed.

Lemma spec_peak_beyond k l :
  l <> [] -> Forall (fun x => k <= Z.abs x) l -> k <= spec_peak l.
Proof.
  intros Hne Hall. destruct Hall as [|x l Hx _]; [congruence|].
  cbn [spec_peak fold_right]. lia.
Qed.

Lemma block_samples_length buffer length :
  2 <= length -> 1 <= Z.of_nat (List.length (block_samples buffer length)).
Proof.
  intros H. unfold block_samples. rewrite length_map, length_seq.
  assert (1 <= length / 2) by (apply Z.div_le_lower_bound; lia). lia.
Qed.

Lemma spec_combined_within k l :
  0 <= k -> l <> [] -> Forall (fun x => Z.abs x <= k) l -> spec_combined l <= k.
Proof.
  intros Hk Hne Hall. unfold spec_combined, spec_mean.
  assert (Hn : 0 < Z.of_nat (List.length l)) by (destruct l; [congruence | cbn; lia]).
  pose proof (sum_abs_within k l Hall) as Hs.
  pose proof (spec_peak_within k l Hk Hall) as Hp.
  assert (Hm : sum_abs l / Z.of_nat (List.length l) <= k)
    by (apply Z.div_le_upper_bound; lia).
  apply Z.div_le_upper_bound; lia.
Qed.

Lemma spec_combined_beyond k l :
  l <> [] -> Forall (fun x => k <= Z.abs x) l -> k <= spec_combined l.
Proof.
  intros Hne Hall. unfold spec_combined, spec_mean.
  assert (Hn : 0 < Z.of_nat (List.length l)) by (destruct l; [congruence | cbn; lia]).
  pose proof (sum_abs_beyond k l Hall) as Hs.
  pose proof (spec_peak_beyond k l Hne Hall) as Hp.
  assert (Hm : k <= sum_abs l / Z.of_nat (List.length l))
    by (apply Z.div_le_lower_bound; lia).
  apply Z.div_le_lower_bound; lia.
Qed.

Lemma block_samples_nonempty buffer length :
  2 <= length -> block_samples buffer length <> [].
Proof.
  intros H Hnil. pose proof (block_samples_length buffer length H) as Hl.
  rewrite Hnil in Hl. cbn in Hl. lia.
Qed.

Lemma rawLevel_floor buffer length :
  valid_block buffer length -> samples_within 118 buffer length ->
  rawLevel buffer length = inr 0.
Proof.
  intros Hv Hall. pose proof Hv as [_ [Hlen _]].
  pose proof (block_samples_nonempty buffer length Hlen) as Hne.
  rewrite (rawLevel_ok buffer length Hv). unfold samples_within in Hall.
  f_equal. unfold spec_mapped.
  pose proof (spec_combined_within 118 _ ltac:(lia) Hne Hall) as Hc.
  assert ((spec_combined (block_samples buffer length) - 100) * (100 - 0)
          / (2000 - 100) <= 0); [|lia].
  apply Z.lt_succ_r. apply Z.div_lt_upper_bound; lia.
Qed.

Lemma rawLevel_ceiling buffer length :
  valid_block buffer length -> samples_beyond 2000 buffer length ->
  rawLevel buffer length = inr 100.
Proof.
  intros Hv Hall. pose proof Hv as [_ [Hlen _]].
  pose proof (block_samples_nonempty buffer length Hlen) as Hne.
  rewrite (rawLevel_ok buffer length Hv). unfold samples_beyond in Hall.
  f_equal. unfold spec_mapped.
  pose proof (spec_combined_beyond 2000 _ Hne Hall) as Hc.
  assert (100 <= (spec_combined (block_samples buffer length) - 100) * (100 - 0)
                 / (2000 - 100)); [|lia].
  apply Z.div_le_lower_bound; lia.
Qed.

Lemma silence_valid : valid_block silence 2048.
Proof. apply valid_block_intro; vm_compute; reflexivity. Qed.

Lemma silence_within : samples_within 118 silence 2048.
Proof.
  unfold samples_within. apply Forall_forall. intros x Hx.
  unfold block_samples in Hx. apply in_map_iff in Hx. destruct Hx as [i [<- Hi]].
  apply in_seq in Hi.
  assert (Hs : forall n, nth n silence x00 = x00).
  { intros n. unfold silence. destruct (Nat.lt_ge_cases n (Z.to_nat DATA_SIZE)).
    - now apply nth_repeat_lt.
    - apply nth_overflow. rewrite repeat_length. lia. }
  unfold sample_of. rewrite !Hs. cbn. lia.
Qed.

(** X1: the noise floor and the ceiling of the mapping: a block whose samples
    all have magnitude at most 118 maps to level 0, and a block whose samples
    all have magnitude at least 2000 maps to level 100. *)
Theorem rawLevel_floor_and_ceiling buffer length :
  valid_block buffer length ->
  (samples_within 118 buffer length -> rawLevel buffer length = inr 0) /\
  (samples_beyond 2000 buffer length -> rawLevel buffer length = inr 100).
Proof.
  intros Hv. split.
  - now apply rawLevel_floor.
  - now apply rawLevel_ceiling.
Qed.

Lemma rawLevel_floor_and_ceiling_witness :
  valid_block silence 2048 /\ rawLevel silence 2048 = inr 0.
Proof.
  split; [exact silence_valid|].
  exact (proj1 (rawLevel_floor_and_ceiling silence 2048 silence_valid) silence_within).
Defined.

Lemma blend_below mapped previous :
  0 <= mapped <= 100 -> 0 <= previous <= 99 ->
  0 <= (mapped * 7 + previous * 3) / 10 <= 99.
Proof.
  intros Hm Hp. split.
  - apply Z.div_pos; lia.
  - apply Z.lt_succ_r. apply Z.div_lt_upper_bound; lia.
Qed.

Lemma analyze_all_below : forall blocks lastLevel levels,
  0 <= lastLevel <= 99 ->
  analyze_all blocks lastLevel = inr levels ->
  Forall (fun level => 0 <= level <= 99) levels.
Proof.
  induction blocks as [|[buffer length] rest IH]; intros lastLevel levels Hl Hrun;
    cbn [analyze_all] in Hrun.
  - injection Hrun as <-. constructor.
  - unfold Level.calculateAudioLevel in Hrun.
    destruct (rawLevel buffer length) as [e|mapped] eqn:Hm; [discriminate|].
    cbn [rbind] in Hrun. apply rawLevel_range in Hm.
    rewrite smooth_ok in Hrun by lia. cbn [rbind] in Hrun.
    pose proof (blend_below mapped lastLevel Hm Hl) as Hn.
    destruct (analyze_all rest _) as [e|levels'] eqn:Hrest; [discriminate|].
    cbn [rbind] in Hrun. injection Hrun as <-.
    constructor; [exact Hn | exact (IH _ _ Hn Hrest)].
Qed.

(** X2: truncation keeps the smoothed level off the top of its scale: over any
    sequence of calls from the initial smoothing state, whatever the blocks,
    no output exceeds 99. *)
Theorem level_never_full blocks levels :
  analyze_all blocks (lastLevel init) = inr levels ->
  Forall (fun level => 0 <= level <= 99) levels.
Proof. apply analyze_all_below. cbn. lia. Qed.

Lemma level_never_full_witness :
  analyze_all [(tone138, 2048); (silence, 2048)] (lastLevel init) = inr [1; 0] /\
  Forall (fun level => 0 <= level <= 99) [1; 0].
Proof.
  assert (H : analyze_all [(tone138, 2048); (silence, 2048)] (lastLevel init)
              = inr [1; 0]) by (vm_compute; reflexivity).
  exact (conj H (level_never_full _ _ H)).
Defined.

(** X3: decay: four consecutive blocks under the noise floor bring the level to
    0 from any previous output. *)
Theorem silence_decays b1 n1 b2 n2 b3 n3 b4 n4 previous :
  0 <= previous <= 100 ->
  valid_block b1 n1 -> samples_within 118 b1 n1 ->
  valid_block b2 n2 -> samples_within 118 b2 n2 ->
  valid_block b3 n3 -> samples_within 118 b3 n3 ->
  valid_block b4 n4 -> samples_within 118 b4 n4 ->
  exists l1 l2 l3,
    analyze_all [(b1, n1); (b2, n2); (b3, n3); (b4, n4)] previous = inr [l1; l2; l3; 0] /\
    l3 <= l2 <= l1 /\ l1 <= previous.
Proof.
  intros Hp V1 Q1 V2 Q2 V3 Q3 V4 Q4.
  pose proof (rawLevel_floor b1 n1 V1 Q1) as R1.
  pose proof (rawLevel_floor b2 n2 V2 Q2) as R2.
  pose proof (rawLevel_floor b3 n3 V3 Q3) as R3.
  pose proof (rawLevel_floor b4 n4 V4 Q4) as R4.
  set (l1 := (0 * 7 + previous * 3) / 10).
  set (l2 := (0 * 7 + l1 * 3) / 10).
  set (l3 := (0 * 7 + l2 * 3) / 10).
  assert (H1 : 0 <= l1 <= 30).
  { unfold l1. split; [apply Z.div_pos; lia | apply Z.div_le_upper_bound; lia]. }
  assert (H2 : 0 <= l2 <= 9).
  { unfold l2. split; [apply Z.div_pos; lia | apply Z.div_le_upper_bound; lia]. }
  assert (H3 : 0 <= l3 <= 2).
  { unfold l3. split; [apply Z.div_pos; lia|].
    apply Z.lt_succ_r. apply Z.div_lt_upper_bound; lia. }
  assert (H4 : (0 * 7 + l3 * 3) / 10 = 0) by (apply Z.div_small; lia).
  exists l1, l2, l3. split.
  - cbn [analyze_all]. unfold Level.calculateAudioLevel.
    rewrite R1. cbn [rbind]. rewrite smooth_ok by lia. cbn [rbind]. fold l1.
    rewrite R2. cbn [rbind]. rewrite smooth_ok by lia. cbn [rbind]. fold l2.
    rewrite R3. cbn [rbind]. rewrite smooth_ok by lia. cbn [rbind]. fold l3.
    rewrite R4. cbn [rbind]. rewrite smooth_ok by lia. cbn [rbind].
    rewrite H4. reflexivity.
  - assert (l1 <= previous) by (unfold l1; apply Z.div_le_upper_bound; lia).
    assert (l2 <= l1) by (unfold l2; apply Z.div_le_upper_bound; lia).
    assert (l3 <= l2) by (unfold l3; apply Z.div_le_upper_bound; lia).
    lia.
Qed.

Lemma silence_decays_witness :
  exists l1 l2 l3,
    analyze_all [(silence, 2048); (silence, 2048); (silence, 2048); (silence, 2048)] 100
    = inr [l1; l2; l3; 0] /\
    l3 <= l2 <= l1 /\ l1 <= 100.
Proof.
  apply (silence_decays silence 2048 silence 2048 silence 2048 silence 2048 100);
    first [lia | exact silence_valid | exact silence_within].
Defined.

End LevelThresholds.

Section TransmitAccounting.

Lemma writes_app t1 t2 : writes (t1 ++ t2) = writes t1 ++ writes t2.
Proof.
  induction t1 as [|e t1 IH]; [reflexivity|].
  destruct e; cbn [app writes]; rewrite ?IH; reflexivity.
Qed.

Lemma backoffs_app t1 t2 :
  List.length (filter is_backoff (t1 ++ t2))
  = (List.length (filter is_backoff t1) + List.length (filter is_backoff t2))%nat.
Proof. now rewrite filter_app, length_app. Qed.

Lemma callbacks_no_write : forall evs s s' tr,
  callbacks evs s = inr (tt, s', tr) ->
  writes tr = [] /\ filter is_backoff tr = [].
Proof.
  induction evs as [|ev evs IH]; intros s s' tr H; cbn [callbacks] in H.
  - injection H as _ <-. split; reflexivity.
  - apply bind_inr in H. destruct H as ([] & s1 & t1 & t2 & H1 & H2 & ->).
    apply IH in H2. destruct H2 as [W2 B2].
    rewrite writes_app, filter_app, W2, B2.
    destruct ev; injection H1 as _ <-; split; reflexivity.
Qed.

(** The bookkeeping of the transmit loop, from any number of bytes already
    sent. *)
Lemma transmit_accounting : forall script bytesRead sent s total s' tr,
  transmit script bytesRead sent s = inr (total, s', tr) ->
  0 <= sent <= bytesRead -> bytesRead < 2 ^ 32 ->
  Forall (fun call => snd call <= fst call) (writes tr) ->
  reoffers bytesRead sent (writes tr) /\
  Forall (fun call => 0 < fst call) (writes tr) /\
  total = sent + written_sum (writes tr) /\
  total <= bytesRead /\
  List.length (filter is_backoff tr)
  = List.length (filter is_empty_write (writes tr)).
Proof.
  induction script as [|[accepted evs] rest IH];
    intros bytesRead sent s total s' tr H Hsent Hmax Hhonest.
  - cbn [transmit] in H. unfold bind, get, raise, ret in H.
    destruct (_ && _); [discriminate|]. injection H as <- _ <-.
    cbn. repeat split; try constructor; lia.
  - destruct ((sent <? bytesRead) && btConnected s) eqn:Hcond.
    + apply andb_prop in Hcond. destruct Hcond as [Hlt Hc].
      apply Z.ltb_lt in Hlt.
      destruct (callbacks_link evs s) as (s1 & t1 & Hcb & _).
      rewrite (transmit_write accepted evs rest bytesRead sent s s1 t1 Hlt Hc Hcb) in H.
      destruct (transmit rest _ _ s1) as [e|[[r s2] t2]] eqn:Hrest; [discriminate|].
      injection H as <- _ <-.
      destruct (callbacks_no_write _ _ _ _ Hcb) as [W1 B1].
      assert (Hoff : u32 (bytesRead - sent) = bytesRead - sent)
        by (apply u32_small; lia).
      pose proof (u32_range accepted) as Hw.
      set (written := u32 accepted) in *.
      assert (Hws : writes (BtWrite (u32 (bytesRead - sent)) written
                              :: (if written >? 0 then [] else [Wait 1]) ++ t1 ++ t2)
                    = (bytesRead - sent, written) :: writes t2).
      { cbn [writes]. rewrite Hoff, !writes_app, W1.
        destruct (written >? 0); reflexivity. }
      rewrite Hws in *. inversion Hhonest as [|c cs Hc1 Hrest']; subst.
      cbn [fst snd] in Hc1.
      assert (Hnext : (if written >? 0 then u32 (sent + written) else sent)
                      = sent + written).
      { destruct (Z.gtb_spec written 0); [apply u32_small|]; lia. }
      rewrite Hnext in Hrest.
      destruct (IH bytesRead (sent + written) s1 r s2 t2 Hrest ltac:(lia) Hmax Hrest')
        as (Hre & Hpos & Hsum & Hle & Hback).
      cbn [reoffers written_sum fold_right snd filter is_backoff].
      fold (written_sum (writes t2)).
      split; [split; [reflexivity | exact Hre]|].
      split; [constructor; [cbn; lia | exact Hpos]|].
      split; [lia|]. split; [exact Hle|].
      rewrite backoffs_app, backoffs_app, B1. cbn [List.length Nat.add].
      unfold is_empty_write at 1. cbn [snd].
      destruct (Z.gtb_spec written 0) as [Hgt|Hle0].
      * replace (written =? 0) with false by (symmetry; apply Z.eqb_neq; lia).
        cbn. exact Hback.
      * replace (written =? 0) with true by (symmetry; apply Z.eqb_eq; lia).
        cbn. now rewrite Hback.
    + rewrite transmit_exit in H by exact Hcond. injection H as <- _ <-.
      cbn. repeat split; try constructor; lia.
Qed.

(** X4: the accounting of one block, whenever the transport never reports
    more than it was offered: every call to the transport is offered the
    whole unsent remainder, which is never empty; the count [sendBlock]
    returns is the sum of what the calls reported and does not exceed the
    block; and there are as many 1 ms back-offs as zero-byte answers. *)
Theorem sendBlock_accounting script bytesRead s total s' tr :
  sendBlock script bytesRead s = inr (total, s', tr) ->
  0 <= bytesRead < 2 ^ 32 ->
  Forall (fun call => snd call <= fst call) (writes tr) ->
  reoffers bytesRead 0 (writes tr) /\
  Forall (fun call => 0 < fst call) (writes tr) /\
  total = written_sum (writes tr) /\
  total <= bytesRead /\
  List.length (filter is_backoff tr)
  = List.length (filter is_empty_write (writes tr)).
Proof.
  intros H HN Hhonest. unfold sendBlock in H.
  apply bind_inr in H. destruct H as (t & s1 & t1 & t2 & H1 & H2 & ->).
  apply bind_inr in H2. destruct H2 as ([] & s2 & t3 & t4 & H3 & H4 & ->).
  injection H4 as <- _ <-.
  assert (Hw : writes (t1 ++ t3 ++ []) = writes t1
               /\ filter is_backoff (t1 ++ t3 ++ []) = filter is_backoff t1).
  { rewrite app_nil_r, writes_app, filter_app. unfold when in H3.
    destruct (negb _); injection H3 as _ <-; cbn; now rewrite !app_nil_r. }
  destruct Hw as [Hw Hb]. rewrite Hw, Hb in *.
  destruct (transmit_accounting _ _ _ _ _ _ _ H1 ltac:(lia) ltac:(lia) Hhonest)
    as (A & B & C & D & E).
  repeat split; assumption.
Qed.

Lemma sendBlock_accounting_witness :
  exists s' tr,
    sendBlock [(1, []); (0, []); (500, []); (1547, [])] 2048 streaming
      = inr (2048, s', tr) /\
    writes tr = [(2048, 1); (2047, 0); (2047, 500); (1547, 1547)] /\
    reoffers 2048 0 (writes tr) /\
    List.length (filter is_backoff tr) = 1%nat.
Proof.
  assert (H : sendBlock [(1, []); (0, []); (500, []); (1547, [])] 2048 streaming
              = inr (2048,
                     state_after
                       (bind (sendBlock [(1, []); (0, []); (500, []); (1547, [])] 2048)
                          (fun _ => ret tt)) streaming,
                     [BtWrite 2048 1; BtWrite 2047 0; Wait 1; BtWrite 2047 500;
                      BtWrite 1547 1547]))
    by (vm_compute; reflexivity).
  assert (HN : 0 <= 2048 < 2 ^ 32) by lia.
  assert (Hh : Forall (fun call => snd call <= fst call)
                 (writes [BtWrite 2048 1; BtWrite 2047 0; Wait 1; BtWrite 2047 500;
                          BtWrite 1547 1547])).
  { cbn [writes]. repeat constructor; cbn; lia. }
  destruct (sendBlock_accounting _ _ _ _ _ _ H HN Hh) as (A & _ & _ & _ & E).
  do 2 eexists. split; [exact H|]. split; [reflexivity|].
  split; [exact A | reflexivity].
Defined.

Lemma transmit_exit_condition : forall script bytesRead sent s total s' tr,
  transmit script bytesRead sent s = inr (total, s', tr) ->
  (total <? bytesRead) && btConnected s' = false.
Proof.
  induction script as [|[accepted evs] rest IH]; intros bytesRead sent s total s' tr H.
  - cbn [transmit] in H. unfold bind, get, raise, ret in H.
    destruct (_ && _) eqn:Hc; [discriminate|]. injection H as <- <- _. exact Hc.
  - destruct ((sent <? bytesRead) && btConnected s) eqn:Hcond.
    + apply andb_prop in Hcond. destruct Hcond as [Hlt Hc].
      apply Z.ltb_lt in Hlt.
      destruct (callbacks_link evs s) as (s1 & t1 & Hcb & _).
      rewrite (transmit_write accepted evs rest bytesRead sent s s1 t1 Hlt Hc Hcb) in H.
      destruct (transmit rest _ _ s1) as [e|[[r s2] t2]] eqn:Hrest; [discriminate|].
      injection H as <- <- _. exact (IH _ _ _ _ _ _ Hrest).
    + rewrite transmit_exit in H by exact Hcond. injection H as <- <- _. exact Hcond.
Qed.

(** X5: whatever the transport does, when [sendBlock] returns, either the
    count equals the block size and no warning is logged, or the warning
    with both numbers is logged; and a count below the block size is
    returned only with the link flag down. *)
Theorem sendBlock_outcome script bytesRead s total s' tr :
  sendBlock script bytesRead s = inr (total, s', tr) ->
  (total = bytesRead /\ forallb (fun e => negb (is_warning e)) tr = true
   \/ total <> bytesRead /\ In (Serial (PartialWrite total bytesRead)) tr) /\
  (total < bytesRead -> btConnected s' = false).
Proof.
  intros H. unfold sendBlock in H.
  apply bind_inr in H. destruct H as (t & s1 & t1 & t2 & H1 & H2 & ->).
  apply bind_inr in H2. destruct H2 as ([] & s2 & t3 & t4 & H3 & H4 & ->).
  injection H4 as <- <- <-.
  pose proof (transmit_exit_condition _ _ _ _ _ _ _ H1) as Hexit.
  pose proof (transmit_quiet _ _ _ _ _ _ _ H1) as Hq. unfold only in Hq.
  unfold when in H3. split.
  - destruct (Z.eqb_spec t bytesRead) as [->|Hne]; cbn [negb] in H3.
    + injection H3 as _ <-. left. split; [reflexivity|].
      now rewrite !app_nil_r.
    + injection H3 as <- <-. right. split; [exact Hne|].
      rewrite !in_app_iff. right. left. left. reflexivity.
  - intros Hlt. apply Z.ltb_lt in Hlt. rewrite Hlt in Hexit. cbn in Hexit.
    destruct (negb (t =? bytesRead)); injection H3 as <- _; exact Hexit.
Qed.

Lemma sendBlock_outcome_witness :
  exists total s' tr,
    sendBlock [(1, []); (500, [ESP_SPP_CLOSE_EVT]); (1547, [])] 2048 streaming
      = inr (total, s', tr) /\
    total = 501 /\
    In (Serial (PartialWrite 501 2048)) tr /\
    btConnected s' = false.
Proof.
  assert (H : sendBlock [(1, []); (500, [ESP_SPP_CLOSE_EVT]); (1547, [])] 2048 streaming
              = inr (501,
                     state_after
                       (bind (sendBlock [(1, []); (500, [ESP_SPP_CLOSE_EVT]); (1547, [])]
                                2048) (fun _ => ret tt)) streaming,
                     [BtWrite 2048 1; BtWrite 2047 500; Serial ClientDisconnected;
                      Serial (PartialWrite 501 2048)]))
    by (vm_compute; reflexivity).
  destruct (sendBlock_outcome _ _ _ _ _ _ H) as [Hcase Hdown].
  do 3 eexists. split; [exact H|]. split; [reflexivity|].
  split; [cbn; tauto|]. apply Hdown. lia.
Defined.

End TransmitAccounting.

Section ButtonPresses.

Lemma not_in_class (P : event -> bool) tr e :
  forallb P tr = true -> P e = false -> ~ In e tr.
Proof. intros H He Hin. apply (forallb_In _ _ _ H) in Hin. congruence. Qed.

Lemma latch_flags t s :
  btConnected (set_lastTouchState t s) = btConnected s /\
  btDiscoverable (set_lastTouchState t s) = btDiscoverable s /\
  discoverableStartTime (set_lastTouchState t s) = discoverableStartTime s /\
  needsFullRedraw (set_lastTouchState t s) = needsFullRedraw s /\
  lastTouchState (set_lastTouchState t s) = t.
Proof. destruct s. repeat split. Qed.


(** Lines 490-538 act on a button only when its test passes, never with
    the latch set, and always latch the touch state. *)
Lemma buttons_actions env s :
  exists s' tr,
    buttons env s = inr (tt, s', Touch (touch_x env) (touch_y env) :: tr) /\
    lastTouchState s' = touching env /\
    (In (Feedback CONNECT) tr <-> connect_fires env s = true) /\
    (In (Feedback STOP) tr -> stop_fires env (after_connect env s) = true) /\
    (lastTouchState s = true -> existsb is_action tr = false).
Proof.
  do 2 eexists. split; [apply buttons_eq|].
  destruct (after_connect_flags env s) as (T1 & K1).
  destruct (after_stop_flags env (after_connect env s)) as (T2 & S2 & K2).
  destruct (after_timeout_flags env
              (set_lastTouchState (touching env) (after_stop env (after_connect env s))))
    as (C4 & T4 & S4 & D4).
  split; [rewrite T4; apply latch_flags|].
  split; [split|split].
  - intros Hin. destruct (connect_fires env s); [reflexivity|]. cbn [app] in Hin.
    rewrite in_app_iff in Hin. destruct Hin as [Hin|Hin].
    + destruct (stop_fires env (after_connect env s)); [|contradiction].
      exfalso. revert Hin.
      apply (not_in_class (fun e => match e with Feedback CONNECT => false | _ => true end));
        [apply stop_trace_class; reflexivity | reflexivity].
    + destruct (times_out _ _); [destruct Hin as [Hin|[]]; discriminate | contradiction].
  - intros Hf. rewrite Hf. cbn. left. reflexivity.
  - intros Hin. destruct (stop_fires env (after_connect env s)); [reflexivity|].
    rewrite in_app_iff in Hin. cbn [app] in Hin. destruct Hin as [Hin|Hin].
    + destruct (connect_fires env s); [|contradiction].
      exfalso. revert Hin.
      apply (not_in_class (fun e => match e with Feedback STOP => false | _ => true end));
        [apply connect_trace_class; reflexivity | reflexivity].
    + destruct (times_out _ _); [destruct Hin as [Hin|[]]; discriminate | contradiction].
  - intros Hl.
    assert (N1 : connect_fires env s = false).
    { unfold connect_fires. rewrite Hl.
      destruct (btConnected s), (btDiscoverable s), (touching env); reflexivity. }
    rewrite N1 in *. rewrite K1 in *.
    assert (N2 : stop_fires env s = false).
    { unfold stop_fires. rewrite Hl.
      destruct (btConnected s), (touching env); reflexivity. }
    rewrite N2. cbn [app]. destruct (times_out _ _); reflexivity.
Qed.

End ButtonPresses.

Section TickPresses.

Local Open Scope m_scope.








(** X9: debounce: a finger that was down in one tick triggers no button in the
    next tick, wherever it is and whatever else happens. *)
Theorem held_finger_is_ignored env1 env2 s s1 s2 tr1 tr2 :
  loop env1 s = inr (tt, s1, tr1) -> touching env1 = true ->
  loop env2 s1 = inr (tt, s2, tr2) ->
  existsb is_action tr2 = false.
Proof.
  intros Hfirst Hdown Hsecond.
  assert (Hlatch : lastTouchState s1 = true).
  { apply loop_inv in Hfirst.
    destruct Hfirst as (a1 & t1 & a2 & t2 & t3 & H1 & H2 & H3 & _).
    destruct (buttons_actions env1 a1) as (a2' & t2' & H2' & L & _).
    rewrite H2 in H2'. injection H2' as <- <-.
    destruct (streamAudio_latch env1 _ _ _ _ H3) as [L3 _]. congruence. }
  apply loop_inv in Hsecond.
  destruct Hsecond as (a1 & t1 & a2 & t2 & t3 & H1 & H2 & H3 & ->).
  destruct (updateDisplay_spec env2 s1) as (a1' & t1' & H1' & F1 & _).
  rewrite H1 in H1'. injection H1' as <- <-.
  destruct F1 as (_ & _ & _ & _ & _ & _ & _ & L1 & R1).
  destruct (buttons_actions env2 a1) as (a2' & t2' & H2' & _ & _ & _ & Held).
  rewrite H2 in H2'. injection H2' as <- <-.
  destruct (streamAudio_latch env2 _ _ _ _ H3) as [_ A3].
  rewrite existsb_app. cbn [existsb is_action]. rewrite existsb_app.
  rewrite (no_action_in t1 (render_no_action _ R1)), (no_action_in t3 A3).
  rewrite orb_false_r. cbn [orb].
  apply Held. congruence.
Qed.

Lemma held_finger_is_ignored_witness :
  touching (press 160 215 1000) = true /\
  existsb is_action
    (trace_of (loop (press 160 215 1300))
       (state_after (loop (press 160 215 1000)) ready)) = false.
Proof.
  assert (H1 : loop (press 160 215 1000) ready
               = inr (tt, state_after (loop (press 160 215 1000)) ready,
                      trace_of (loop (press 160 215 1000)) ready))
    by (vm_compute; reflexivity).
  assert (Hd : touching (press 160 215 1000) = true) by (vm_compute; reflexivity).
  assert (H2 : loop (press 160 215 1300) (state_after (loop (press 160 215 1000)) ready)
               = inr (tt,
                      state_after (loop (press 160 215 1300))
                        (state_after (loop (press 160 215 1000)) ready),
                      trace_of (loop (press 160 215 1300))
                        (state_after (loop (press 160 215 1000)) ready)))
    by (vm_compute; reflexivity).
  exact (conj Hd (held_finger_is_ignored _ _ _ _ _ _ _ H1 Hd H2)).
Defined.



End TickPresses.

Section FaultSafety.

Local Open Scope m_scope.

Lemma guards_bind {A B : Type} (F : fault -> Prop) (m : M A) (f : A -> M B)
      (Q : A -> Prop) (Q' : B -> Prop) :
  guards F m Q -> (forall a, Q a -> guards F (f a) Q') -> guards F (bind m f) Q'.
Proof.
  intros Hm Hf s Hs. unfold bind. specialize (Hm s Hs).
  destruct (m s) as [e|[[a s1] t1]]; [exact Hm|]. destruct Hm as [Hs1 Ha].
  specialize (Hf a Ha s1 Hs1).
  destruct (f a s1) as [e|[[b s2] t2]]; assumption.
Qed.

Lemma guards_weaken {A : Type} (F F' : fault -> Prop) (m : M A) (Q Q' : A -> Prop) :
  (forall f, F f -> F' f) -> (forall a, Q a -> Q' a) -> guards F m Q -> guards F' m Q'.
Proof.
  intros HF HQ Hm s Hs. specialize (Hm s Hs).
  destruct (m s) as [e|[[a s1] t1]]; [auto|]. destruct Hm. auto.
Qed.

Lemma guards_ret {A : Type} F (a : A) (Q : A -> Prop) : Q a -> guards F (ret a) Q.
Proof. intros Ha s Hs. cbn. auto. Qed.

Lemma guards_get F : guards F get (fun s => sound s).
Proof. intros s Hs. cbn. auto. Qed.

Lemma guards_emit F e : guards F (emit e) (fun _ => True).
Proof. intros s Hs. cbn. auto. Qed.

Lemma guards_modify F f :
  (forall s, sound s -> sound (f s)) -> guards F (modify f) (fun _ => True).
Proof. intros Hf s Hs. cbn. auto. Qed.

Lemma guards_when F c (m : M unit) :
  (c = true -> guards F m (fun _ => True)) -> guards F (when c m) (fun _ => True).
Proof.
  intros Hm. destruct c; [now apply Hm | now apply guards_ret].
Qed.

Lemma btCallback_guards F ev : guards F (btCallback ev) (fun _ => True).
Proof. intros s Hs. destruct s, ev; cbn; auto. Qed.

Lemma callbacks_guards F evs : guards F (callbacks evs) (fun _ => True).
Proof.
  induction evs as [|ev evs IH]; cbn [callbacks].
  - now apply guards_ret.
  - eapply guards_bind; [apply btCallback_guards | intros _ _; exact IH].
Qed.

Lemma transmit_guards : forall script bytesRead totalWritten,
  guards (fun f => f = Stalled) (transmit script bytesRead totalWritten) (fun _ => True).
Proof.
  induction script as [|[accepted evs] rest IH]; intros bytesRead totalWritten;
    cbn [transmit]; (eapply guards_bind; [apply guards_get|]); intros s _;
    destruct (_ && _); try (now apply guards_ret).
  - intros s0 _. reflexivity.
  - eapply guards_bind; [apply guards_emit|]. intros _ _.
    eapply guards_bind; [apply guards_when; intros _; apply guards_emit|]. intros _ _.
    eapply guards_bind; [apply callbacks_guards|]. intros _ _. apply IH.
Qed.

Lemma sendBlock_guards script bytesRead :
  guards (fun f => f = Stalled) (sendBlock script bytesRead) (fun _ => True).
Proof.
  unfold sendBlock. eapply guards_bind; [apply transmit_guards|]. intros t _.
  eapply guards_bind; [apply guards_when; intros _; apply guards_emit|]. intros _ _.
  now apply guards_ret.
Qed.

(** The analysis on [1 <= length <= DATA_SIZE] bytes of a sound state: the
    only fault is the division by zero of a one-byte read. *)
Lemma calculateAudioLevel_guards length :
  1 <= length <= DATA_SIZE ->
  guards (fun f => f = DivideByZero /\ length = 1) (calculateAudioLevel length)
         (fun _ => True).
Proof.
  intros Hlen s (Hbuf & Ha & Hl). unfold calculateAudioLevel, bind, get, lift, modify.
  destruct (Z.eq_dec length 1) as [->|Hne].
  - cbn. auto.
  - assert (Hv : Level.valid_block (audioBuffer s) length) by (split; [exact Hbuf | lia]).
    rewrite (calculateAudioLevel_ok _ _ _ Hv) by lia.
    pose proof (blend_below _ (lastLevel s)
                  (spec_mapped_range
                     (Level.spec_combined (Level.block_samples (audioBuffer s) length)))
                  Hl) as Hn.
    destruct s; cbn in *. repeat split; try assumption; apply Hn.
Qed.

Lemma i2s_read_guards F env :
  guards F (i2s_read env)
         (fun r => snd r = Z.of_nat (List.length (firstn (Z.to_nat DATA_SIZE) (i2s_data env)))).
Proof.
  unfold i2s_read. eapply guards_bind; [apply guards_get|]. intros s Hs.
  eapply guards_bind.
  - apply guards_modify. intros s0 (Hbuf & Ha & Hl).
    destruct Hs as (Hbuf' & _).
    unfold sound. destruct s0.
    cbn [audioBuffer audioLevel lastLevel set_audioBuffer] in *.
    split; [|split; assumption].
    rewrite length_app, length_skipn.
    pose proof (firstn_le_length (Z.to_nat DATA_SIZE) (i2s_data env)) as Hle.
    unfold DATA_SIZE in *. lia.
  - intros _ _. eapply guards_bind; [apply guards_emit|]. intros _ _.
    eapply guards_bind; [apply callbacks_guards|]. intros _ _.
    apply guards_ret. reflexivity.
Qed.

Lemma streamAudio_guards env :
  guards (tick_fault env) (streamAudio env) (fun _ => True).
Proof.
  unfold streamAudio. eapply guards_bind; [apply guards_get|]. intros s _.
  destruct (btConnected s); [|apply guards_emit].
  eapply guards_bind; [apply i2s_read_guards|]. intros [ok bytesRead] Hr.
  cbn [snd] in Hr. apply guards_when. intros Hguard.
  apply andb_prop in Hguard. destruct Hguard as [_ Hpos]. apply Z.gtb_lt in Hpos.
  assert (Hlen : 1 <= bytesRead <= DATA_SIZE).
  { pose proof (firstn_le_length (Z.to_nat DATA_SIZE) (i2s_data env)) as Hle.
    unfold DATA_SIZE in *. lia. }
  eapply guards_bind; [apply guards_get|]. intros s1 _.
  eapply guards_bind.
  - apply guards_when. intros _.
    eapply guards_bind.
    + eapply (guards_weaken _ _ _ _ (fun _ => True));
        [| |apply (calculateAudioLevel_guards bytesRead Hlen)].
      * intros f [-> H1]. right. split; [reflexivity|].
        unfold one_byte. apply Nat.eqb_eq. lia.
      * auto.
    + intros _ _. apply guards_modify. intros s0 Hs0. destruct s0; exact Hs0.
  - intros _ _. eapply guards_bind.
    + eapply (guards_weaken _ _ _ _ (fun _ => True)); [| |apply sendBlock_guards];
        [intros f ->; now left | auto].
    + intros _ _. now apply guards_ret.
Qed.

Lemma loop_guards env : guards (tick_fault env) (loop env) (fun _ => True).
Proof.
  intros s (Hbuf & Ha & Hl).
  destruct (loop_run env s) as (s1 & t1 & s2 & t2 & H1 & H2 & Hloop).
  destruct (updateDisplay_spec env s) as (s1' & t1' & H1' & F1 & _).
  rewrite H1 in H1'. injection H1' as <- <-.
  destruct F1 as (_ & _ & _ & B1 & A1 & _ & L1 & _).
  destruct (buttons_spec env s1) as (s2' & t2' & H2' & _ & _ & _ & B2 & A2 & L2 & _).
  rewrite H2 in H2'. injection H2' as <- <-.
  assert (Hs2 : sound s2) by (unfold sound; rewrite B2, B1, A2, A1, L2, L1; auto).
  pose proof (streamAudio_guards env s2 Hs2) as Hst.
  rewrite Hloop. destruct (streamAudio env s2) as [e|[[u s3] t3]]; exact Hst.
Qed.

Lemma whole_block_not_one_byte env : whole_block env -> one_byte env = false.
Proof.
  unfold whole_block, one_byte, DATA_SIZE. intros H.
  rewrite firstn_length_le by lia. reflexivity.
Qed.

Lemma streaming_sound : sound streaming.
Proof.
  unfold sound. split; [vm_compute; reflexivity|].
  split; vm_compute; split; discriminate.
Qed.

(** C4: the level analysis is defined wherever the capture lets it be
    called.  On every block of 2 to [DATA_SIZE] bytes of the buffer, with a
    previous level in [0,100], it returns a level.  And a tick from a sound
    state whose read is not a single byte, as is every read that fills the
    whole block, never divides by zero, overflows or reads out of bounds:
    the only way it does not return is a stalled transmit loop. *)
Theorem C4_level_analysis_defined buffer length previous env s :
  Level.valid_block buffer length -> 0 <= previous <= 100 ->
  sound s -> one_byte env = false ->
  (exists level, Level.calculateAudioLevel buffer length previous = inr level) /\
  (forall f, loop env s = inl f -> f = Stalled).
Proof.
  intros Hv Hp Hs Hone. split.
  - eexists. apply calculateAudioLevel_ok; assumption.
  - intros f Hf. pose proof (loop_guards env s Hs) as H. rewrite Hf in H.
    destruct H as [H|[_ H]]; [exact H | congruence].
Qed.

Lemma C4_level_analysis_defined_witness :
  (exists level, Level.calculateAudioLevel tone138 2048 0 = inr level) /\
  (forall f, loop (capture 1000 tone138 [(2048, [])]) streaming = inl f -> f = Stalled).
Proof.
  apply (C4_level_analysis_defined tone138 2048 0
           (capture 1000 tone138 [(2048, [])]) streaming).
  - apply valid_block_intro; vm_compute; reflexivity.
  - lia.
  - exact streaming_sound.
  - apply whole_block_not_one_byte. vm_compute. discriminate.
Defined.

Lemma run_guards : forall steps,
  guards (fun f => f = Stalled \/ (f = DivideByZero /\ existsb reads_one_byte steps = true))
         (run steps) (fun _ => True).
Proof.
  induction steps as [|st steps IH]; cbn [run].
  - now apply guards_ret.
  - eapply guards_bind.
    + destruct st as [env|ev]; cbn [exec].
      * eapply (guards_weaken _ _ _ _ (fun _ => True)); [| |apply (loop_guards env)]; [|auto].
        intros f [->|[-> H1]]; [now left|]. right. split; [reflexivity|].
        cbn [existsb reads_one_byte]. now rewrite H1.
      * apply btCallback_guards.
    + intros _ _. eapply (guards_weaken _ _ _ _ (fun _ => True)); [| |exact IH]; [|auto].
      intros f [->|[-> H1]]; [now left|]. right. split; [reflexivity|].
      cbn [existsb]. rewrite H1. apply orb_true_r.
Qed.

Lemma ready_sound : sound ready.
Proof.
  unfold sound. split; [vm_compute; reflexivity|].
  split; vm_compute; split; discriminate.
Qed.

(** X11: safety of a run: from a sound state, such as the one [setup] leaves, a
    run of ticks and link callbacks never reads outside [audioBuffer] and
    never overflows an [int]; it can only stall in the transmit loop, or
    divide by zero in a tick whose read delivers exactly one byte.  When it
    returns, the buffer still has [DATA_SIZE] bytes and the level is in
    [0,99]. *)
Theorem run_is_safe steps s :
  sound s ->
  (forall f, run steps s = inl f ->
     f = Stalled \/ (f = DivideByZero /\ existsb reads_one_byte steps = true)) /\
  (forall s' tr, run steps s = inr (tt, s', tr) -> sound s').
Proof.
  intros Hs. pose proof (run_guards steps s Hs) as H.
  split.
  - intros f Hf. now rewrite Hf in H.
  - intros s' tr Hr. rewrite Hr in H. apply H.
Qed.

Lemma run_is_safe_witness :
  sound ready /\
  sound (state_after
           (run [Deliver ESP_SPP_SRV_OPEN_EVT;
                 Tick (capture 1000 tone138 [(1, []); (500, []); (1547, [])])]) ready).
Proof.
  assert (Hs : sound ready) by exact ready_sound.
  split; [exact Hs|].
  apply (proj2 (run_is_safe
                  [Deliver ESP_SPP_SRV_OPEN_EVT;
                   Tick (capture 1000 tone138 [(1, []); (500, []); (1547, [])])]
                  ready Hs)
           _ (trace_of
                (run [Deliver ESP_SPP_SRV_OPEN_EVT;
                      Tick (capture 1000 tone138 [(1, []); (500, []); (1547, [])])])
                ready)).
  vm_compute. reflexivity.
Defined.

End FaultSafety.

Section QuietDisplay.

(** X12: between events the display is left alone: when no render is owed, the
    static part of the screen has been drawn, the status bar is less than
    five seconds old and, on the two animated screens, the animation frame
    is at most 50 ms old, [updateDisplay] draws nothing and changes
    nothing. *)
Theorem updateDisplay_still env s :
  pending s = false -> lastAudioLevel s <> -1 ->
  u32 (u32 (t_now env) - lastStatusBarUpdate s) <= 5000 ->
  (connection s <> Idle -> u32 (u32 (t_now env) - lastUpdate s) <= 50) ->
  updateDisplay env s = inr (tt, s, []).
Proof.
  destruct s as [c d st buf lvl lau lds nfr ll lu af lal lrt lsb lts].
  unfold pending, currentState, connection.
  cbn [btConnected btDiscoverable lastDisplayState needsFullRedraw lastAudioLevel
       lastStatusBarUpdate lastUpdate].
  intros Hp Hal Hbar Hanim.
  unfold updateDisplay, fullRedraw, refreshStatusBar, drawStreaming, drawSearching,
    drawReady, currentState. run_m. run_m.
  assert (Ebar : (u32 (u32 (t_now env) - lsb) >? 5000) = false)
    by (rewrite Z.gtb_ltb; apply Z.ltb_ge; exact Hbar).
  assert (Eal : (lal =? -1) = false) by (apply Z.eqb_neq; exact Hal).
  rewrite Hp. run_m. rewrite Ebar. run_m.
  destruct c; [|destruct d]; run_m; rewrite ?Eal; run_m; try reflexivity;
    (assert (Eanim : (u32 (u32 (t_now env) - lu) >? 50) = false)
      by (rewrite Z.gtb_ltb; apply Z.ltb_ge; apply Hanim; congruence));
    rewrite Eanim; reflexivity.
Qed.

Lemma updateDisplay_still_witness :
  updateDisplay (quiet 3000) ready = inr (tt, ready, []).
Proof.
  apply updateDisplay_still.
  - vm_compute; reflexivity.
  - vm_compute; discriminate.
  - vm_compute; discriminate.
  - intros H. exfalso. apply H. vm_compute; reflexivity.
Defined.

(** X13: the idle device left alone: a tick with nobody touching the screen only
    polls the touch point, waits 100 ms and clears the touch latch. *)
Theorem idle_tick_is_still env s :
  connection s = Idle -> touching env = false ->
  pending s = false -> lastAudioLevel s <> -1 ->
  u32 (u32 (t_now env) - lastStatusBarUpdate s) <= 5000 ->
  loop env s =
    inr (tt, set_lastTouchState false s,
         [Touch (touch_x env) (touch_y env); Wait 100]).
Proof.
  intros Hidle Htouch Hp Hal Hbar.
  destruct s as [c d st buf lvl lau lds nfr ll lu af lal lrt lsb lts].
  unfold connection in Hidle. cbn [btConnected btDiscoverable] in Hidle.
  destruct c; [discriminate|]. destruct d; [discriminate|].
  unfold pending, currentState in Hp.
  cbn [btConnected btDiscoverable lastDisplayState needsFullRedraw lastAudioLevel
       lastStatusBarUpdate] in Hp, Hal, Hbar.
  assert (Hstill :
    updateDisplay env (mkState false false st buf lvl lau lds nfr ll lu af lal lrt lsb lts)
    = inr (tt, mkState false false st buf lvl lau lds nfr ll lu af lal lrt lsb lts, [])).
  { unfold updateDisplay, fullRedraw, refreshStatusBar, drawStreaming, drawSearching,
      drawReady, currentState. run_m. run_m.
    rewrite Hp. run_m.
    replace (u32 (u32 (t_now env) - lsb) >? 5000) with false
      by (symmetry; rewrite Z.gtb_ltb; apply Z.ltb_ge; exact Hbar).
    run_m.
    replace (lal =? -1) with false by (symmetry; apply Z.eqb_neq; exact Hal).
    run_m. reflexivity. }
  rewrite loop_eq, (bind_run _ _ _ _ _ _ Hstill).
  unfold buttons, connectButton, stopButton, discoverableTimeout, streamAudio.
  unfold touching in Htouch. rewrite Htouch. run_m. run_m. reflexivity.
Qed.

Lemma idle_tick_is_still_witness :
  loop (quiet 3000) ready
  = inr (tt, set_lastTouchState false ready, [Touch (-1) (-1); Wait 100]).
Proof.
  apply (idle_tick_is_still (quiet 3000) ready).
  - vm_compute; reflexivity.
  - vm_compute; reflexivity.
  - vm_compute; reflexivity.
  - vm_compute; discriminate.
  - vm_compute; discriminate.
Defined.

(** X14: [setup] at boot.  When the microphone or the Bluetooth start fails
    the device parks with the variables untouched: after the splash it
    draws the red error screen of the failed part, logs the error, and
    nothing follows, so the callback is never registered and the ready
    screen never drawn.  Otherwise it registers the callback and comes up
    idle, with the ready screen drawn by one full redraw and no render
    owed. *)
Theorem setup_outcome mic_ok bt_ok env :
  exists outcome s tr,
    setup mic_ok bt_ok env init = inr (outcome, s, tr) /\
    if mic_ok && bt_ok
    then outcome = Booted /\ connection s = Idle /\ pending s = false /\
         redraws tr = 1%nat /\ In RegisterCallback tr /\ In (Lcd StaticReady) tr /\
         lastAudioLevel s = 0 /\ sound s
    else outcome = Parked /\ s = init /\
         tr = [Serial Started; Splash; MicPower true; Wait 100; MicPower false]
              ++ (if mic_ok
                  then [Serial MicrophoneInitialized; ErrorScreen Bluetooth;
                        Serial BluetoothFailed]
                  else [ErrorScreen Microphone; Serial MicrophoneFailed]).
Proof.
  destruct mic_ok; [destruct bt_ok|]; cbn [andb].
  - unfold setup, updateDisplay, fullRedraw, refreshStatusBar, drawReady, init,
      pending, currentState, connection, sound.
    run_m. run_m. rewrite orb_true_r. run_m.
    destruct (u32 (u32 (t_now env) - u32 (t_redraw env)) >? 5000); run_m;
      change (-1 =? -1) with true; run_m;
      do 3 eexists; (split; [reflexivity|]);
      run_m;
      (repeat split; try reflexivity; try lia; try (cbn; tauto)).
  - do 3 eexists. split; [reflexivity|]. repeat split.
  - do 3 eexists. split; [reflexivity|]. repeat split.
Qed.

(** X15: inside the window the countdown counts down without wrapping: it is
    the whole seconds left, between 0 and 60, it never increases as the
    elapsed time grows, and it shows 60 only at the very instant of the
    press. *)
Theorem countdown_counts_down now1 now2 start :
  u32 (now1 - start) <= u32 (now2 - start) <= DISCOVERABLE_DURATION ->
  0 <= remainingSeconds now2 start <= remainingSeconds now1 start /\
  remainingSeconds now1 start <= 60 /\
  (remainingSeconds now1 start = 60 <-> u32 (now1 - start) = 0).
Proof.
  intros [H12 H2].
  destruct (countdown_in_window now1 start ltac:(lia)) as [E1 R1].
  destruct (countdown_in_window now2 start H2) as [E2 R2].
  pose proof (u32_range (now1 - start)) as P1.
  rewrite E1, E2 in *. unfold DISCOVERABLE_DURATION in *.
  split; [split; [lia|]|split; [lia|]].
  - apply Z.div_le_mono; lia.
  - split; intros H.
    + assert (60 * 1000 <= 60000 - u32 (now1 - start)); [|lia].
      rewrite <- H. rewrite Z.mul_comm. apply Z.mul_div_le. lia.
    + rewrite H. reflexivity.
Qed.

Lemma countdown_counts_down_witness :
  remainingSeconds 1400 1000 = 59 /\ remainingSeconds 31000 1000 = 30 /\
  0 <= remainingSeconds 31000 1000 <= remainingSeconds 1400 1000.
Proof.
  assert (H : u32 (1400 - 1000) <= u32 (31000 - 1000) <= DISCOVERABLE_DURATION)
    by (split; vm_compute; discriminate).
  split; [vm_compute; reflexivity|]. split; [vm_compute; reflexivity|].
  exact (proj1 (countdown_counts_down 1400 31000 1000 H)).
Defined.

End QuietDisplay.

Section MicrophoneStart.

(** X16: [InitMicrophone] adds the three codes up; for the codes the driver
    returns the sum is zero exactly when each call succeeded, so the
    function reports success exactly then. *)
Theorem InitMicrophone_all_or_nothing install pin clk :
  idf_code install -> idf_code pin -> idf_code clk ->
  InitMicrophone install pin clk
  = inr ((install =? ESP_OK) && (pin =? ESP_OK) && (clk =? ESP_OK)).
Proof.
  unfold InitMicrophone. unfold idf_code, ESP_OK, ESP_FAIL. intros Ha Hb Hc.
  rewrite checked_ok by (unfold INT_MIN, INT_MAX; lia). cbn [rbind].
  rewrite checked_ok by (unfold INT_MIN, INT_MAX; lia). cbn [rbind].
  rewrite checked_ok by (unfold INT_MIN, INT_MAX; lia). cbn [rbind].
  f_equal.
  destruct (Z.eqb_spec install 0), (Z.eqb_spec pin 0), (Z.eqb_spec clk 0);
    cbn [andb]; first [apply Z.eqb_eq; lia | apply Z.eqb_neq; lia].
Qed.

Lemma InitMicrophone_all_or_nothing_witness :
  InitMicrophone 0 258 (-1) = inr false /\ InitMicrophone 0 0 0 = inr true.
Proof.
  split.
  - apply (InitMicrophone_all_or_nothing 0 258 (-1));
      unfold idf_code, ESP_OK, ESP_FAIL; lia.
  - apply (InitMicrophone_all_or_nothing 0 0 0);
      unfold idf_code, ESP_OK, ESP_FAIL; lia.
Defined.

End MicrophoneStart.

Section Gradient.

Variable color565 : Z -> Z -> Z -> Z.

Lemma u16_range z : 0 <= u16 z < 2 ^ 16.
Proof. unfold u16. apply Z.mod_pos_bound. lia. Qed.

Lemma red5_range c : 0 <= c < 2 ^ 16 -> 0 <= red5 c <= 31.
Proof.
  intros H. unfold red5. rewrite Z.shiftr_div_pow2 by lia. split.
  - apply Z.div_pos; lia.
  - apply Z.lt_succ_r. apply Z.div_lt_upper_bound; lia.
Qed.

Lemma land_ones_range a n : 0 <= n -> 0 <= Z.land a (Z.ones n) < 2 ^ n.
Proof.
  intros Hn. rewrite Z.land_ones by exact Hn. apply Z.mod_pos_bound.
  apply Z.pow_pos_nonneg; lia.
Qed.

Lemma green6_range c : 0 <= green6 c <= 63.
Proof.
  unfold green6.
  pose proof (land_ones_range (Z.shiftr c 5) 6 ltac:(lia)) as H.
  change (Z.ones 6) with 63 in H. change (2 ^ 6) with 64 in H. lia.
Qed.

Lemma blue5_range c : 0 <= blue5 c <= 31.
Proof.
  unfold blue5.
  pose proof (land_ones_range c 5 ltac:(lia)) as H.
  change (Z.ones 5) with 31 in H. change (2 ^ 5) with 32 in H. lia.
Qed.

Lemma mix_between a b h i :
  0 <= a -> 0 <= b -> 0 <= i < h -> Z.min a b <= mix a b h i <= Z.max a b.
Proof.
  intros Ha Hb Hi. unfold mix. split.
  - apply Z.div_le_lower_bound; [lia|]. nia.
  - apply Z.div_le_upper_bound; [lia|]. nia.
Qed.

Lemma channel_ok a b h i :
  0 <= a <= 63 -> 0 <= b <= 63 -> 0 <= i < h -> h <= 2 ^ 20 ->
  channel a b h i = inr (mix a b h i).
Proof.
  intros Ha Hb Hi Hh. unfold channel, mix.
  rewrite checked_ok by (unfold INT_MIN, INT_MAX; lia). cbn [rbind].
  rewrite checked_ok by (unfold INT_MIN, INT_MAX; nia). cbn [rbind].
  rewrite checked_ok by (unfold INT_MIN, INT_MAX; nia). cbn [rbind].
  rewrite checked_ok by (unfold INT_MIN, INT_MAX; nia). cbn [rbind].
  apply cdiv_ok; unfold INT_MAX; nia.
Qed.

Lemma u8_small z : 0 <= z <= 255 -> u8 z = z.
Proof. intros H. unfold u8. apply Z.mod_small. lia. Qed.

Lemma gradientRows_ok x y w h c1 c2 : forall n i,
  0 <= c1 < 2 ^ 16 -> 0 <= c2 < 2 ^ 16 ->
  0 <= i -> i + Z.of_nat n <= h -> h <= 2 ^ 20 -> - 2 ^ 20 <= y <= 2 ^ 20 ->
  gradientRows color565 n i x y w h c1 c2 =
    inr (List.map
           (fun k =>
              FastHLine x (y + k) w
                (u16 (color565 (mix (red5 c1) (red5 c2) h k)
                               (mix (green6 c1) (green6 c2) h k)
                               (mix (blue5 c1) (blue5 c2) h k))))
           (List.map (fun k => i + Z.of_nat k) (seq 0 n))).
Proof.
  induction n as [|n IH]; intros i H1 H2 Hi Hn Hh Hy; [reflexivity|].
  cbn [gradientRows].
  pose proof (red5_range c1 H1). pose proof (red5_range c2 H2).
  pose proof (green6_range c1). pose proof (green6_range c2).
  pose proof (blue5_range c1). pose proof (blue5_range c2).
  rewrite !channel_ok by lia. cbn [rbind].
  rewrite checked_ok by (unfold INT_MIN, INT_MAX; lia). cbn [rbind].
  rewrite checked_ok by (unfold INT_MIN, INT_MAX; lia). cbn [rbind].
  rewrite IH by lia. cbn [rbind].
  pose proof (mix_between (red5 c1) (red5 c2) h i ltac:(lia) ltac:(lia) ltac:(lia)).
  pose proof (mix_between (green6 c1) (green6 c2) h i ltac:(lia) ltac:(lia) ltac:(lia)).
  pose proof (mix_between (blue5 c1) (blue5 c2) h i ltac:(lia) ltac:(lia) ltac:(lia)).
  rewrite !u8_small by lia.
  f_equal. cbn [seq List.map]. rewrite Z.add_0_r. f_equal.
  rewrite <- seq_shift, !map_map. apply map_ext. intros k.
  replace (i + Z.of_nat (S k)) with (i + 1 + Z.of_nat k) by lia. reflexivity.
Qed.

(** X17: [drawGradientRect] never divides by zero and draws one line per row:
    [h] lines at [y], [y+1], ... (none when [h <= 0]), each in the colour
    whose channels are the weighted means of the two end colours' channels;
    every such mean lies between the two end values, so no channel is
    truncated on its way into [color565]. *)
Theorem drawGradientRect_rows x y w h color1 color2 :
  h <= 2 ^ 20 -> - 2 ^ 20 <= y <= 2 ^ 20 ->
  drawGradientRect color565 x y w h color1 color2 =
    inr (List.map
           (fun k =>
              FastHLine x (y + k) w
                (u16 (color565 (mix (red5 (u16 color1)) (red5 (u16 color2)) h k)
                               (mix (green6 (u16 color1)) (green6 (u16 color2)) h k)
                               (mix (blue5 (u16 color1)) (blue5 (u16 color2)) h k))))
           (Zrange 0 (h - 1))) /\
  forall a b k, 0 <= a -> 0 <= b -> 0 <= k < h ->
                Z.min a b <= mix a b h k <= Z.max a b.
Proof.
  intros Hh Hy. split; [|intros; now apply mix_between].
  unfold drawGradientRect, Zrange.
  replace (Z.to_nat (h - 1 - 0 + 1)) with (Z.to_nat h) by (f_equal; lia).
  destruct (Z.le_gt_cases 0 h) as [Hpos|Hneg].
  - apply gradientRows_ok; try assumption; try apply u16_range; lia.
  - replace (Z.to_nat h) with O by lia. reflexivity.
Qed.

(** X18: the highlight of a button: whatever the colour, the three channels
    handed to [color565] are within 50..255, 30..255 and 50..255, so they
    fit the [uint8_t] parameters, and none is darker than the colour's own
    channel scaled to eight bits. *)
Theorem highlight_in_range color :
  let '(r, g, b) := highlightChannels color in
  50 <= r <= 255 /\ 30 <= g <= 255 /\ 50 <= b <= 255 /\
  u8 r = r /\ u8 g = g /\ u8 b = b /\
  Z.land (Z.shiftr color 11) 31 * 8 <= r /\
  Z.land (Z.shiftr color 5) 63 * 4 <= g /\
  Z.land color 31 * 8 <= b.
Proof.
  unfold highlightChannels.
  pose proof (land_ones_range (Z.shiftr color 11) 5 ltac:(lia)) as Hr.
  pose proof (land_ones_range (Z.shiftr color 5) 6 ltac:(lia)) as Hg.
  pose proof (land_ones_range color 5 ltac:(lia)) as Hb.
  change (Z.ones 5) with 31 in *. change (Z.ones 6) with 63 in *.
  change (2 ^ 5) with 32 in *. change (2 ^ 6) with 64 in *.
  repeat split; try lia; apply u8_small; lia.
Qed.

End Gradient.

Lemma drawGradientRect_rows_witness :
  drawGradientRect rgb565 0 25 320 2 2113 32 =
    inr [FastHLine 0 25 320 (u16 (rgb565 1 2 1));
         FastHLine 0 26 320 (u16 (rgb565 0 1 0))].
Proof.
  assert (Hh : 2 <= 2 ^ 20) by lia.
  assert (Hy : - 2 ^ 20 <= 25 <= 2 ^ 20) by lia.
  rewrite (proj1 (drawGradientRect_rows rgb565 0 25 320 2 2113 32 Hh Hy)).
  reflexivity.
Defined.


Section Visualizer.

Variable color565 : Z -> Z -> Z -> Z.
Variables TFT_BLACK TFT_CYAN : Z.

Lemma map_ok x in_min in_max out_min out_max :
  0 <= x - in_min <= 2 ^ 20 -> 0 <= out_max - out_min <= 2 ^ 20 ->
  (x - in_min) * (out_max - out_min) <= 2 ^ 30 ->
  0 < in_max - in_min <= INT_MAX -> 0 <= out_min <= 2 ^ 20 ->
  Level.map x in_min in_max out_min out_max
  = inr ((x - in_min) * (out_max - out_min) / (in_max - in_min) + out_min).
Proof.
  intros Hx Ho Hxo Hi Hm. unfold Level.map.
  assert (0 <= (x - in_min) * (out_max - out_min) <= 2 ^ 30) by nia.
  rewrite checked_ok by (unfold INT_MIN, INT_MAX; lia). cbn [rbind].
  rewrite checked_ok by (unfold INT_MIN, INT_MAX; lia). cbn [rbind].
  rewrite checked_ok by (unfold INT_MIN, INT_MAX in *; lia). cbn [rbind].
  rewrite checked_ok by (unfold INT_MIN, INT_MAX; lia). cbn [rbind].
  rewrite cdiv_ok by (unfold INT_MAX; lia). cbn [rbind].
  assert (0 <= (x - in_min) * (out_max - out_min) / (in_max - in_min) <= 2 ^ 30).
  { split; [apply Z.div_pos; lia|].
    apply Z.div_le_upper_bound; [lia|]. nia. }
  apply checked_ok. unfold INT_MIN, INT_MAX. lia.
Qed.

Lemma map_upper x in_max out_max :
  0 <= x <= in_max -> 0 < in_max -> 0 <= out_max ->
  0 <= x * out_max / in_max <= out_max.
Proof.
  intros Hx Hi Ho. split; [apply Z.div_pos; nia|].
  apply Z.div_le_upper_bound; [lia|]. nia.
Qed.

Lemma rings_ok centerX centerY radius : forall radii,
  0 < radius <= 2 ^ 20 -> Forall (fun r => 0 <= r <= 2 ^ 20) radii ->
  exists ops, rings color565 centerX centerY radius radii = inr ops /\
              List.map circle_radius ops = List.map Some radii.
Proof.
  intros radii Hr Hall. induction Hall as [|r rest Hr0 _ IH].
  - exists []. split; reflexivity.
  - destruct IH as (ops & E & Hc). cbn [rings]. unfold ringColor.
    rewrite !map_ok by (unfold INT_MAX; nia). cbn [rbind].
    rewrite E. cbn [rbind]. eexists. split; [reflexivity|].
    cbn [List.map circle_radius]. now rewrite Hc.
Qed.

Lemma In_Zrange lo hi r : In r (Zrange lo hi) -> lo <= r <= hi.
Proof.
  unfold Zrange. intros H. apply in_map_iff in H as (k & <- & Hk).
  apply in_seq in Hk. lia.
Qed.

Lemma circles_within_radii lo hi ops radii :
  List.map circle_radius ops = List.map Some radii ->
  Forall (fun r => lo <= r <= hi) radii -> circles_within lo hi ops.
Proof.
  revert radii. induction ops as [|op ops IH]; intros radii E Hall.
  - constructor.
  - destruct radii as [|r radii]; [discriminate|].
    cbn [List.map] in E. injection E as E1 E2.
    inversion Hall as [|? ? Hr Hrest]; subst.
    constructor; [|now apply (IH radii)].
    intros r' Hr'. rewrite E1 in Hr'. injection Hr' as <-. exact Hr.
Qed.

Lemma circles_within_none lo hi ops :
  Forall (fun op => circle_radius op = None) ops -> circles_within lo hi ops.
Proof.
  intros H. unfold circles_within. eapply Forall_impl; [|exact H].
  cbn beta. intros op E r Hr. congruence.
Qed.

(** X19: one frame of the visualizer.  For a level within 0..100 and a pulse
    within -3..3, starting from statics that fit the widget, the call
    completes without overflow or division by zero; it leaves the statics
    fitting the widget again, with the new radius [map(level) + pulse] and
    the new bar height [map(level)]; and every circle it erases or draws
    has a radius within [-2, radius - 7], so the rings never reach the
    widget's own radius. *)
Theorem drawAudioVisualizer_stays_inside centerX centerY radius audioLevel pulse v :
  10 <= radius <= 2 ^ 20 -> 0 <= audioLevel <= 100 -> -3 <= pulse <= 3 ->
  visualizer_ok radius v ->
  exists ops,
    drawAudioVisualizer color565 TFT_BLACK TFT_CYAN
                        centerX centerY radius audioLevel pulse v
    = inr (mkVisualizerState (audioLevel * (radius - 10) / 100 + pulse) pulse
                             (audioLevel * 20 / 100), ops) /\
    visualizer_ok radius
      (mkVisualizerState (audioLevel * (radius - 10) / 100 + pulse) pulse
                         (audioLevel * 20 / 100)) /\
    circles_within (-2) (radius - 7) ops.
Proof.
  intros Hr Hl Hp [Hv Hb]. unfold drawAudioVisualizer.
  rewrite checked_ok by (unfold INT_MIN, INT_MAX; lia). cbn [rbind].
  rewrite !map_ok by (unfold INT_MAX; nia). cbn [rbind].
  replace ((audioLevel - 0) * (radius - 10 - 0) / (100 - 0) + 0)
    with (audioLevel * (radius - 10) / 100)
    by (rewrite Z.add_0_r; do 2 f_equal; lia).
  replace ((audioLevel - 0) * (20 - 0) / (100 - 0) + 0)
    with (audioLevel * 20 / 100)
    by (rewrite Z.add_0_r; do 2 f_equal; lia).
  pose proof (map_upper audioLevel 100 (radius - 10) ltac:(lia) ltac:(lia) ltac:(lia)) as Hlr.
  pose proof (map_upper audioLevel 100 20 ltac:(lia) ltac:(lia) ltac:(lia)) as Hbh.
  set (levelRadius := audioLevel * (radius - 10) / 100) in *.
  set (barHeight := audioLevel * 20 / 100) in *.
  rewrite checked_ok by (unfold INT_MIN, INT_MAX; lia). cbn [rbind].
  set (currentRadius := levelRadius + pulse).
  assert (Hcur : -3 <= currentRadius <= radius - 7) by (unfold currentRadius; lia).
  assert (Efirst :
    (if currentRadius <? lastLevelRadius v then checked (currentRadius + 1) else inr 0)
    = inr (if currentRadius <? lastLevelRadius v then currentRadius + 1 else 0)).
  { destruct (currentRadius <? lastLevelRadius v); [|reflexivity].
    apply checked_ok. unfold INT_MIN, INT_MAX. lia. }
  rewrite Efirst. cbn [rbind].
  assert (Elast :
    (if currentRadius <? lastLevelRadius v then checked (lastLevelRadius v + 1) else inr 0)
    = inr (if currentRadius <? lastLevelRadius v then lastLevelRadius v + 1 else 0)).
  { destruct (currentRadius <? lastLevelRadius v); [|reflexivity].
    apply checked_ok. unfold INT_MIN, INT_MAX. lia. }
  rewrite Elast. cbn [rbind].
  rewrite checked_ok by (unfold INT_MIN, INT_MAX; lia). cbn [rbind].
  set (startR := Z.max 0 (lastLevelRadius v - 5)).
  destruct (rings_ok centerX centerY radius (Zrange startR currentRadius))
    as (drawn & Edrawn & Hdrawn).
  { lia. }
  { apply Forall_forall. intros r Hin. apply In_Zrange in Hin.
    unfold startR in Hin. lia. }
  rewrite Edrawn. cbn [rbind].
  assert (Enext :
    (if startR <=? currentRadius then checked (currentRadius + 1) else inr 0)
    = inr (if startR <=? currentRadius then currentRadius + 1 else 0)).
  { destruct (startR <=? currentRadius); [|reflexivity].
    apply checked_ok. unfold INT_MIN, INT_MAX. lia. }
  rewrite Enext. cbn [rbind].
  assert (Einner :
    (if (lastBarHeight v >? 0) || (barHeight >? 0) then checked (radius - 15) else inr 0)
    = inr (if (lastBarHeight v >? 0) || (barHeight >? 0) then radius - 15 else 0)).
  { destruct ((lastBarHeight v >? 0) || (barHeight >? 0)); [|reflexivity].
    apply checked_ok. unfold INT_MIN, INT_MAX. lia. }
  rewrite Einner. cbn [rbind].
  set (inner := if (lastBarHeight v >? 0) || (barHeight >? 0) then radius - 15 else 0).
  assert (Hinner : -5 <= inner <= 2 ^ 20)
    by (unfold inner; destruct ((lastBarHeight v >? 0) || (barHeight >? 0)); lia).
  assert (Eold :
    (if lastBarHeight v >? 0 then checked (inner + lastBarHeight v) else inr 0)
    = inr (if lastBarHeight v >? 0 then inner + lastBarHeight v else 0)).
  { destruct (lastBarHeight v >? 0); [|reflexivity].
    apply checked_ok. unfold INT_MIN, INT_MAX. lia. }
  rewrite Eold. cbn [rbind].
  assert (Enew :
    (if barHeight >? 0 then checked (inner + barHeight) else inr 0)
    = inr (if barHeight >? 0 then inner + barHeight else 0)).
  { destruct (barHeight >? 0); [|reflexivity].
    apply checked_ok. unfold INT_MIN, INT_MAX. lia. }
  rewrite Enew. cbn [rbind].
  eexists. split; [reflexivity|]. split.
  { unfold visualizer_ok. cbn [lastLevelRadius lastBarHeight].
    fold currentRadius. lia. }
  unfold circles_within. rewrite !Forall_app. repeat split.
  - destruct (Z.ltb_spec currentRadius (lastLevelRadius v)); [|constructor].
    apply Forall_forall. intros op Hin.
    apply in_map_iff in Hin as (r & <- & Hr0). apply In_Zrange in Hr0.
    intros r' E. cbn [circle_radius] in E. injection E as <-. lia.
  - apply (circles_within_radii _ _ _ _ Hdrawn).
    apply Forall_forall. intros r Hin. apply In_Zrange in Hin.
    unfold startR in Hin. lia.
  - apply circles_within_none. apply Forall_forall. intros op Hin.
    apply in_flat_map in Hin as (angle & _ & Hin).
    apply in_app_or in Hin as [Hin|Hin].
    + destruct (lastBarHeight v >? 0); [|contradiction].
      destruct Hin as [<-|[]]. reflexivity.
    + destruct (barHeight >? 0); [|contradiction].
      destruct Hin as [<-|[]]. reflexivity.
Qed.

End Visualizer.

Lemma drawAudioVisualizer_stays_inside_witness :
  exists ops,
    drawAudioVisualizer rgb565 0 2047 160 120 50 40 2 (mkVisualizerState 0 0 0)
    = inr (mkVisualizerState (40 * (50 - 10) / 100 + 2) 2 (40 * 20 / 100), ops) /\
    visualizer_ok 50 (mkVisualizerState (40 * (50 - 10) / 100 + 2) 2 (40 * 20 / 100)) /\
    circles_within (-2) (50 - 7) ops.
Proof.
  apply (drawAudioVisualizer_stays_inside rgb565 0 2047 160 120 50 40 2
           (mkVisualizerState 0 0 0)).
  - lia.
  - lia.
  - lia.
  - unfold visualizer_ok. cbn. lia.
Defined.
